(** * TSP-DRL (Bello et al.): environment and pointer-network decoder

    A shallow embedding of [env.py] (class [Env_tsp]) and [actor.py]
    (class [PtrNet1]).

    Numbers.  The Python code computes with [float32] tensors.  The
    embedding of [env.py] is written once over an abstract scalar type
    (class [Scalar]) and instantiated three times: at [f32], the
    binary32 numbers with their rounding; at [R], where the distances
    are the true Euclidean ones and no operation rounds; and at [Z],
    with integer square roots.  A statement made for every [Scalar]
    does not depend on the arithmetic: it holds with rounding as well
    as without.  A statement made under [ScalarLaws], or over [R], is
    one of exact arithmetic, and holds of a run of the code only where
    no operation of that run rounds.  [actor.py] is embedded over [R]:
    what is proved of it is proved of the network as a function of real
    numbers.

    Tensors.  A tensor of shape [(batch, city_t, 2)] is a list of
    instances, an instance a list of points, a point a pair of scalars.
    A tour is a list of city indices ([nat]).

    Exceptions.  Python code that can raise returns a [result]. *)

From Stdlib Require Import List Arith ZArith Lia Bool Permutation Sorted.
From Stdlib Require Import Reals Lra.
From Stdlib Require Import SpecFloat.
Import ListNotations.

Set Implicit Arguments.

(** ** Exceptions and the error monad *)

Inductive exn : Type :=
| IndexError     (* subscript out of range, too many indices *)
| ValueError     (* min() of an empty sequence *)
| KeyError       (* missing dictionary key *)
| RuntimeError.  (* raised by torch: stack of no tensors, gather out of range *)

Inductive result (A : Type) : Type :=
| Ok (a : A)
| Err (e : exn).

Arguments Ok {A} a.
Arguments Err {A} e.

Definition bind {A B} (m : result A) (f : A -> result B) : result B :=
  match m with
  | Ok a => f a
  | Err e => Err e
  end.

Notation "x <- m ;; k" := (bind m (fun x => k))
  (at level 61, m at next level, right associativity).

Definition is_err {A} (m : result A) : bool :=
  match m with Ok _ => false | Err _ => true end.

(** [[f(x) for x in l]]: the elements are evaluated left to right and
    the first exception aborts the comprehension. *)
Fixpoint mapM {A B} (f : A -> result B) (l : list A) : result (list B) :=
  match l with
  | [] => Ok []
  | x :: l' => y <- f x ;; ys <- mapM f l' ;; Ok (y :: ys)
  end.

(** [l[i]] for [0 <= i]. *)
Definition index {A} (l : list A) (i : nat) : result A :=
  match nth_error l i with
  | Some x => Ok x
  | None => Err IndexError
  end.

(** [torch.stack(l, dim=0)] of equally shaped tensors: refuses an empty list. *)
Definition torch_stack {A} (l : list A) : result (list A) :=
  match l with
  | [] => Err RuntimeError
  | _ => Ok l
  end.

(** ** Scalars *)

Class Scalar (D : Type) : Type := {
  s0 : D;
  sadd : D -> D -> D;
  ssub : D -> D -> D;
  smul : D -> D -> D;
  ssqrt : D -> D;
  seqb : D -> D -> bool;
  sltb : D -> D -> bool
}.

(** [a <= b] is "not [b < a]", the way [min] uses the order. *)
Definition sle {D} `{Scalar D} (a b : D) : Prop := sltb b a = false.

(** What the proofs use of the numbers: an ordered commutative monoid. *)
Class ScalarLaws (D : Type) `{Scalar D} : Prop := {
  seqb_eq : forall a b, seqb a b = true -> a = b;
  seqb_refl : forall a, seqb a a = true;
  sltb_irrefl : forall a, sltb a a = false;
  sltb_asym : forall a b, sltb a b = true -> sltb b a = false;
  sle_trans : forall a b c, sle a b -> sle b c -> sle a c;
  sadd_assoc : forall a b c, sadd a (sadd b c) = sadd (sadd a b) c;
  sadd_comm : forall a b, sadd a b = sadd b a;
  sadd_0_l : forall a, sadd s0 a = a;
  sadd_mono : forall a b c, sle a b -> sle (sadd c a) (sadd c b)
}.

Arguments ScalarLaws D {_}.

#[export] Instance Scalar_Z : Scalar Z := {|
  s0 := 0%Z; sadd := Z.add; ssub := Z.sub; smul := Z.mul;
  ssqrt := Z.sqrt; seqb := Z.eqb; sltb := Z.ltb
|}.

#[export] Instance Scalar_R : Scalar R := {|
  s0 := 0%R; sadd := Rplus; ssub := Rminus; smul := Rmult;
  ssqrt := sqrt;
  seqb := fun a b => if Req_dec_T a b then true else false;
  sltb := fun a b => if Rlt_dec a b then true else false
|}.

(** [float32]: the binary32 format of IEEE 754 (24 bits of precision,
    exponents below 128), every operation rounded to the nearest
    number, ties to even.  [==] and [<] are those of the format: a NaN
    compares false with everything. *)
Definition f32 : Type := spec_float.

#[export] Instance Scalar_f32 : Scalar f32 := {|
  s0 := S754_zero false;
  sadd := SFadd 24 128;
  ssub := SFsub 24 128;
  smul := SFmul 24 128;
  ssqrt := SFsqrt 24 128;
  seqb := SFeqb;
  sltb := SFltb
|}.


(** ** [env.py] *)

Section Env.

Context {D : Type} `{Scalar D}.

Definition point : Type := (D * D)%type.

(** [get_2city_distance]: both branches ([torch.Tensor] and
    [list]/[np.ndarray]) compute the same expression.  The second,
    which [get_optimal_tour] takes, has the root from [math.sqrt] in
    double precision and rounds it to [float32] in [torch.tensor]; where
    the sum of the squares is exact in [float32] (small integer
    coordinates, as in the instances below) that is the [float32] root.
    The [TypeError] branch is not reachable from [Env_tsp]. *)
Definition get_2city_distance (n1 n2 : point) : D :=
  let '(x1, y1) := n1 in
  let '(x2, y2) := n2 in
  ssqrt (sadd (smul (ssub x2 x1) (ssub x2 x1)) (smul (ssub y2 y1) (ssub y2 y1))).

(** The configuration read by [Env_tsp.__init__]. *)
Record Env_tsp : Type := { batch : nat; city_t : nat }.

Variable self : Env_tsp.

(** [get_tour_distance]: [l = 0; for i in range(city_t): l += ...]. *)
Definition tour_step (nodes : list point) (tour : list nat)
    (acc : result D) (i : nat) : result D :=
  l <- acc ;;
  a <- index tour i ;;
  p <- index nodes a ;;
  b <- index tour ((i + 1) mod city_t self) ;;
  q <- index nodes b ;;
  Ok (sadd l (get_2city_distance p q)).

Definition get_tour_distance (nodes : list point) (tour : list nat) : result D :=
  fold_left (tour_step nodes tour) (seq 0 (city_t self)) (Ok s0).

(** [stack_l]: one [get_tour_distance] per [i in range(self.batch)]. *)
Definition stack_l (inputs : list (list point)) (tours : list (list nat))
    : result (list D) :=
  l <- mapM (fun i => nodes <- index inputs i ;;
                      tour <- index tours i ;;
                      get_tour_distance nodes tour)
            (seq 0 (batch self)) ;;
  torch_stack l.

(** [torch.gather(inputs, 1, index)] on one instance: row [j] of the
    result is [inputs[tour[j]]]; torch raises on an index out of range. *)
Definition gather (nodes : list point) (tour : list nat) : result (list point) :=
  mapM (fun a => match nth_error nodes a with
                 | Some p => Ok p
                 | None => Err RuntimeError
                 end) tour.

Definition psub (p q : point) : point :=
  (ssub (fst p) (fst q), ssub (snd p) (snd q)).

(** [.norm(p=2)] over the coordinate dimension. *)
Definition norm2 (p : point) : D :=
  ssqrt (sadd (smul (fst p) (fst p)) (smul (snd p) (snd p))).

(** [torch.sum].  The order in which the library adds is not part of
    the source; the terms are added here from left to right, starting
    from zero, which in exact arithmetic is the sum in any order. *)
Definition torch_sum (l : list D) : D := fold_left sadd l s0.

(** [x - y] on two slices of equal length. *)
Fixpoint zip_sub (xs ys : list point) : list point :=
  match xs, ys with
  | x :: xs', y :: ys' => psub x y :: zip_sub xs' ys'
  | _, _ => []
  end.

(** The body of [stack_l_fast] on one gathered instance [d]:
    [sum(norm(d[1:] - d[:-1])) + norm(d[0] - d[-1])]; [d[0]] raises on
    an empty dimension. *)
Definition fast_length (d : list point) : result D :=
  match d with
  | [] => Err IndexError
  | d0 :: _ =>
      Ok (sadd (torch_sum (map norm2 (zip_sub (tl d) (removelast d))))
               (norm2 (psub d0 (last d d0))))
  end.

(** [stack_l_fast]: the batch dimension is that of [tours] (the index
    tensor of [gather]).  [gather] refuses an index with more rows than
    [inputs] has instances, unless the index has no element at all
    (tours with no entry): that one it accepts whatever the sizes, and
    the subscript [d[:, 0]] raises on what it returns. *)
Definition stack_l_fast (inputs : list (list point)) (tours : list (list nat))
    : result (list D) :=
  if length inputs <? length tours then
    if forallb (fun tour => length tour =? 0) tours then Err IndexError
    else Err RuntimeError
  else mapM (fun it => d <- gather (fst it) (snd it) ;; fast_length d)
            (combine inputs tours).

(** [shuffle]: row [i] of the result is [inputs[i, perm, :]] for
    [i in range(batch)]; the remaining rows of the [torch.zeros] buffer
    stay zero.  The permutations drawn by [torch.randperm] are passed in.
    The assignment [shuffle_inputs[i, :, :] = ...] wants as many rows as
    the instance has, or one row, which it repeats; anything else is a
    [RuntimeError]. *)
Fixpoint set_nth {A} (i : nat) (x : A) (l : list A) : list A :=
  match l, i with
  | [], _ => []
  | _ :: l', 0 => x :: l'
  | y :: l', S i' => y :: set_nth i' x l'
  end.

Definition shuffle_step (perms : list (list nat)) (inputs : list (list point))
    (acc : result (list (list point))) (i : nat) : result (list (list point)) :=
  out <- acc ;;
  nodes <- index inputs i ;;
  perm <- index perms i ;;
  row <- mapM (index nodes) perm ;;
  if length row =? length nodes then Ok (set_nth i row out)
  else match row with
       | [p] => Ok (set_nth i (map (fun _ => p) nodes) out)
       | _ => Err RuntimeError
       end.

Definition shuffle (perms : list (list nat)) (inputs : list (list point))
    : result (list (list point)) :=
  fold_left (shuffle_step perms inputs) (seq 0 (batch self))
            (Ok (map (map (fun _ => (s0, s0))) inputs)).

(** [torch.all(torch.eq(xy_temp, test_inputs[i, k]))]. *)
Definition peqb (p q : point) : bool :=
  seqb (fst p) (fst q) && seqb (snd p) (snd q).

(** The [for k in range(city_t)] scan of [back_tours]: the first [k]
    whose coordinates equal [xy], if any ([break]). *)
Fixpoint scan (xy : point) (test : list point) (ks : list nat)
    : result (option nat) :=
  match ks with
  | [] => Ok None
  | k :: ks' =>
      p <- index test k ;;
      if peqb xy p then Ok (Some k) else scan xy test ks'
  end.

(** One round of the [for j] loop; the state is [(pred_tour, pred_tours)]. *)
Definition back_step (tour : list nat) (shuffled test : result (list point))
    (acc : result (list nat * list (list nat))) (j : nat)
    : result (list nat * list (list nat)) :=
  st <- acc ;;
  a <- index tour j ;;
  sh <- shuffled ;;
  xy <- index sh a ;;
  te <- test ;;
  m <- scan xy te (seq 0 (city_t self)) ;;
  match m with
  | None => Ok st
  | Some k =>
      let pred_tour := fst st ++ [k] in
      Ok (pred_tour,
          if length pred_tour =? city_t self
          then snd st ++ [pred_tour] else snd st)
  end.

(** One round of the [for i] loop. *)
Definition back_instance (pred_shuffle_tours : list (list nat))
    (shuffle_inputs test_inputs : list (list point))
    (acc : result (list (list nat))) (i : nat) : result (list (list nat)) :=
  pred_tours <- acc ;;
  match city_t self with
  | 0 => Ok pred_tours
  | _ =>
      tour <- index pred_shuffle_tours i ;;
      st <- fold_left (back_step tour (index shuffle_inputs i) (index test_inputs i))
                      (seq 0 (city_t self)) (Ok ([], pred_tours)) ;;
      Ok (snd st)
  end.

Definition back_tours (pred_shuffle_tours : list (list nat))
    (shuffle_inputs test_inputs : list (list point)) : result (list (list nat)) :=
  pred_tours <- fold_left (back_instance pred_shuffle_tours shuffle_inputs test_inputs)
                          (seq 0 (batch self)) (Ok []) ;;
  torch_stack pred_tours.

(** *** [get_random_tour], [stack_random_tours] *)

(** [set(a) == set(b)]. *)
Definition set_eqb (a b : list nat) : bool :=
  forallb (fun c => existsb (Nat.eqb c) b) a &&
  forallb (fun c => existsb (Nat.eqb c) a) b.

(** [get_random_tour]: the numbers [np.random.randint(city_t)] draws
    are read from [draws]; the tour comes with the draws that are left.
    [None]: the draws ran out before the [while] loop ended. *)
Fixpoint random_tour_loop (draws tour : list nat) {struct draws}
    : option (list nat * list nat) :=
  if set_eqb tour (seq 0 (city_t self)) then Some (tour, draws)
  else match draws with
       | [] => None
       | city :: draws' =>
           random_tour_loop draws'
             (if negb (existsb (Nat.eqb city) tour) then tour ++ [city] else tour)
       end.

Definition get_random_tour (draws : list nat) : option (list nat * list nat) :=
  random_tour_loop draws [].



(** *** [get_optimal_tour]: dynamic programming over subsets *)

(** A [frozenset] of cities is kept as its increasing list, which is how
    [itertools.combinations(range(1, cnt), m)] produces it and how
    [S - {j}] leaves it; two such lists are equal exactly when the sets
    are.  Iteration over a set is taken in increasing order. *)
Definition key : Type := (nat * list nat)%type.
Definition entry : Type := (D * list nat)%type.
Definition dict : Type := list (key * entry).

Definition key_eqb (a b : key) : bool :=
  (fst a =? fst b) && (if list_eq_dec Nat.eq_dec (snd a) (snd b) then true else false).

(** [A[k]]. *)
Fixpoint dict_get (A : dict) (k : key) : result entry :=
  match A with
  | [] => Err KeyError
  | (k', v) :: A' => if key_eqb k k' then Ok v else dict_get A' k
  end.

(** [B[k] = v]: an existing key keeps its place, a new one goes last. *)
Fixpoint dict_set (B : dict) (k : key) (v : entry) : dict :=
  match B with
  | [] => [(k, v)]
  | (k', v') :: B' =>
      if key_eqb k k' then (k', v) :: B' else (k', v') :: dict_set B' k v
  end.

(** [S - {j}]. *)
Definition set_remove (j : nat) (S : list nat) : list nat :=
  remove Nat.eq_dec j S.

(** [itertools.combinations(l, m)], in its lexicographic order. *)
Fixpoint combinations (l : list nat) (m : nat) {struct l} : list (list nat) :=
  match m, l with
  | 0, _ => [[]]
  | S _, [] => []
  | S m', x :: l' => map (cons x) (combinations l' m') ++ combinations l' m
  end.

(** [<] on Python lists of integers. *)
Fixpoint list_ltb (a b : list nat) : bool :=
  match a, b with
  | [], [] => false
  | [], _ :: _ => true
  | _ :: _, [] => false
  | x :: a', y :: b' => if x =? y then list_ltb a' b' else x <? y
  end.

(** [<] on the tuples [(distance, sequence)]: the first components
    decide unless they are equal. *)
Definition tuple_ltb (a b : entry) : bool :=
  if seqb (fst a) (fst b) then list_ltb (snd a) (snd b)
  else sltb (fst a) (fst b).

(** [min(...)]: the first smallest item; [ValueError] on no item. *)
Definition py_min (l : list entry) : result entry :=
  match l with
  | [] => Err ValueError
  | x :: l' => Ok (fold_left (fun best y => if tuple_ltb y best then y else best) l' x)
  end.

(** [all_distances]: the matrix of pairwise distances. *)
Definition all_distances (points : list point) : list (list D) :=
  map (fun x => map (fun y => get_2city_distance x y) points) points.

(** [all_distances[j, k]]. *)
Definition index2 (d : list (list D)) (j k : nat) : result D :=
  row <- index d j ;; index row k.

(** The initial table: [(idx, frozenset()) -> (all_distances[idx, 0], [idx])]
    for [idx >= 1].  With no point at all [np.array] builds a
    one-dimensional array and [all_distances[1:, 0]] raises. *)
Definition init_table (d : list (list D)) : result dict :=
  match d with
  | [] => Err IndexError
  | _ :: rows =>
      col <- mapM (fun row => index row 0) rows ;;
      Ok (fold_left (fun A id => dict_set A (fst id, []) (snd id, [fst id]))
                    (combine (seq 1 (length col)) col) [])
  end.

(** One item of the generator under [min]:
    [(all_distances[j, k] + A[(k, R - {k})][0], [j] + A[(k, R - {k})][1])]. *)
Definition candidate (d : list (list D)) (A : dict) (j : nat) (R : list nat)
    (k : nat) : result entry :=
  djk <- index2 d j k ;;
  v <- dict_get A (k, set_remove k R) ;;
  Ok (sadd djk (fst v), j :: snd v).

(** The body of [for j in S]. *)
Definition fill (d : list (list D)) (A : dict) (S : list nat)
    (acc : result dict) (j : nat) : result dict :=
  B <- acc ;;
  let R := set_remove j S in
  cands <- mapM (candidate d A j R) R ;;
  best <- py_min cands ;;
  Ok (dict_set B (j, R) best).

(** The body of [for m in range(2, cnt)]. *)
Definition layer (d : list (list D)) (cnt : nat) (acc : result dict) (m : nat)
    : result dict :=
  A <- acc ;;
  fold_left (fun accB S => fold_left (fill d A S) S accB)
            (combinations (seq 1 (cnt - 1)) m) (Ok []).

(** The last [min], over [A.items()]. *)
Definition closing (d : list (list D)) (kv : key * entry) : result entry :=
  d0 <- index2 d 0 (fst (fst kv)) ;;
  Ok (sadd d0 (fst (snd kv)), 0 :: snd (snd kv)).

(** [res], the pair [(length, tour)] of which [get_optimal_tour]
    returns the tour. *)
Definition get_optimal_res (nodes : list point) : result entry :=
  let d := all_distances nodes in
  A0 <- init_table d ;;
  let cnt := length d in
  A <- fold_left (layer d cnt) (seq 2 (cnt - 2)) (Ok A0) ;;
  cands <- mapM (closing d) A ;;
  py_min cands.

Definition get_optimal_tour (nodes : list point) : result (list nat) :=
  res <- get_optimal_res nodes ;;
  Ok (snd res).

End Env.

Arguments point D : clear implicits.
Arguments entry D : clear implicits.
Arguments dict D : clear implicits.

(** The instance of [__main__] in [env.py], and a run on it with
    integer square roots. *)
Definition main_nodes_Z : list (point Z) :=
  [(0, 0); (1, 0); (4, 0); (0, -3)]%Z.

Definition main_res_Z : result (entry Z) :=
  Eval vm_compute in get_optimal_res main_nodes_Z.

(** ** [actor.py]

    The network computes with real numbers, without rounding: [tanh]
    never reaches 1 and [exp] never underflows to 0, as they do in
    [float32].  What is proved below of the counters and of the shapes
    does not rest on the arithmetic; what compares logits does.  One
    instance of the batch is decoded at a time (the instances of a
    batch do not interact).  A vector is a list of reals, a matrix the
    list of its rows.  Shapes are taken to agree, as torch enforces; an
    entry missing from a short list reads as [0]. *)

Module Actor.

Local Open Scope R_scope.

Definition vec : Type := list R.
Definition mat : Type := list vec.

Definition rsum (l : list R) : R := fold_right Rplus 0 l.

Fixpoint vadd (a b : vec) : vec :=
  match a, b with
  | x :: a', y :: b' => (x + y) :: vadd a' b'
  | _, _ => []
  end.

Fixpoint vmul (a b : vec) : vec :=
  match a, b with
  | x :: a', y :: b' => (x * y) :: vmul a' b'
  | _, _ => []
  end.

Definition dot (a b : vec) : R := rsum (vmul a b).

Definition matvec (W : mat) (x : vec) : vec := map (fun row => dot row x) W.

(** Column [k] of a matrix. *)
Definition col (k : nat) (M : mat) : vec := map (fun row => nth k row 0) M.

Definition madd (A B : mat) : mat := map (fun ab => vadd (fst ab) (snd ab)) (combine A B).

Definition mmap (f : R -> R) (M : mat) : mat := map (map f) M.

(** [nn.Linear] with bias, and [bias=False]. *)
Record Linear : Type := { l_weight : mat; l_bias : vec }.

Definition linear (L : Linear) (x : vec) : vec := vadd (matvec (l_weight L) x) (l_bias L).

(** [nn.Conv1d(c, c, 1, 1)] on a [(c, city_t)] matrix: the kernel has
    width one, so column [k] of the output is [W x_k + b]. *)
Definition conv1d (L : Linear) (n : nat) (X : mat) : mat :=
  map (fun wb => map (fun k => dot (fst wb) (col k X) + snd wb) (seq 0 n))
      (combine (l_weight L) (l_bias L)).

(** [ref.permute(0, 2, 1)]: from [(city_t, hidden)] to [(hidden, city_t)]. *)
Definition permute (hidden : nat) (ref : mat) : mat :=
  map (fun i => col i ref) (seq 0 hidden).

(** [v.unsqueeze(-1).repeat(1, 1, n)]: [n] copies of each entry, side by side. *)
Definition repeat_last (v : vec) (n : nat) : mat := map (fun x => repeat x n) v.

(** [torch.bmm(V, M).squeeze(1)] for a one-row [V]. *)
Definition bmm_row (V : vec) (n : nat) (M : mat) : vec :=
  map (fun k => dot V (col k M)) (seq 0 n).

(** [torch.bmm(M, a.unsqueeze(2)).squeeze(2)]. *)
Definition bmm_col (M : mat) (a : vec) : vec := matvec M a.

Definition sigmoid (x : R) : R := 1 / (1 + exp (- x)).

(** [nn.LSTM], one layer: the gates are stacked in the order
    input, forget, cell, output. *)
Record LSTM : Type := { w_ih : mat; w_hh : mat; b_ih : vec; b_hh : vec }.

Definition lstm_cell (hidden : nat) (P : LSTM) (x : vec) (hc : vec * vec) : vec * vec :=
  let '(h, c) := hc in
  let gates := vadd (vadd (matvec (w_ih P) x) (b_ih P))
                    (vadd (matvec (w_hh P) h) (b_hh P)) in
  let i := map sigmoid (firstn hidden gates) in
  let f := map sigmoid (firstn hidden (skipn hidden gates)) in
  let g := map tanh (firstn hidden (skipn (2 * hidden) gates)) in
  let o := map sigmoid (firstn hidden (skipn (3 * hidden) gates)) in
  let c' := vadd (vmul f c) (vmul i g) in
  (vmul o (map tanh c'), c').

(** A pass over a sequence: the outputs and the last state. *)
Fixpoint lstm (hidden : nat) (P : LSTM) (xs : list vec) (hc : vec * vec)
    : list vec * (vec * vec) :=
  match xs with
  | [] => ([], hc)
  | x :: xs' =>
      let hc' := lstm_cell hidden P x hc in
      let '(out, last) := lstm hidden P xs' hc' in
      (fst hc' :: out, last)
  end.

Definition softmax (u : vec) : vec :=
  let z := rsum (map exp u) in map (fun x => exp x / z) u.

Definition log_softmax (u : vec) : vec :=
  let z := rsum (map exp u) in map (fun x => x - ln z) u.

(** [torch.argmax]: the index of the first maximal entry. *)
Fixpoint argmax (l : vec) : nat :=
  match l with
  | [] => 0%nat
  | x :: l' =>
      match l' with
      | [] => 0%nat
      | _ => let j := argmax l' in
             if Rle_dec (nth j l' 0) x then 0%nat else S j
      end
  end.

(** [torch.multinomial(w, 1)]: the draw is made by inversion from a
    number [u] of [[0, sum w)] supplied by the random source.  A [u]
    outside that range falls off the end of the list. *)
Fixpoint multinomial (w : vec) (u : R) : nat :=
  match w with
  | [] => 0%nat
  | x :: w' => if Rlt_dec u x then 0%nat else S (multinomial w' (u - x))
  end.

(** The two selection policies of [city_selecter]. *)
Inductive decode_type : Type := greedy | sampling.

Definition Greedy (log_p : vec) : nat := argmax log_p.

Definition Categorical (u : R) (log_p : vec) : nat :=
  multinomial (map exp log_p) (u * rsum (map exp log_p)).

Record PtrNet1 : Type := {
  embed : nat;
  hidden : nat;
  Embedding : mat;
  Encoder : LSTM;
  Decoder : LSTM;
  Vec : vec;
  Vec2 : vec;
  W_q : Linear;
  W_ref : Linear;
  W_q2 : Linear;
  W_ref2 : Linear;
  dec_input : vec;
  clip_logits : R;
  softmax_T : R;
  n_glimpse : nat;
  city_selecter : decode_type
}.

(** The default of the parameter [inf] of [glimpse] and [pointer]. *)
Definition inf : R := 100000000.

Section Net.

Variable self : PtrNet1.

(** [u - inf * mask]. *)
Definition penalize (u mask : vec) : vec :=
  map (fun um => fst um - inf * snd um) (combine u mask).

Definition glimpse (query : vec) (ref : mat) (mask : vec) : vec :=
  let n := length ref in
  let u1 := repeat_last (linear (W_q self) query) n in
  let u2 := conv1d (W_ref self) n (permute (hidden self) ref) in
  let u := bmm_row (Vec self) n (mmap tanh (madd u1 u2)) in
  let u := penalize u mask in
  let a := softmax (map (fun x => x / softmax_T self) u) in
  bmm_col u2 a.

Definition pointer (query : vec) (ref : mat) (mask : vec) : vec :=
  let n := length ref in
  let u1 := repeat_last (linear (W_q2 self) query) n in
  let u2 := conv1d (W_ref2 self) n (permute (hidden self) ref) in
  let u := bmm_row (Vec2 self) n
             (mmap (fun x => clip_logits self * x) (mmap tanh (madd u1 u2))) in
  penalize u mask.

(** [torch.zeros(city_t).scatter_(index=next_node, value=1)]. *)
Definition scatter (n next_node : nat) : vec :=
  map (fun k => if k =? next_node then 1 else 0) (seq 0 n).

(** The variables of the decoding loop of [forward]. *)
Record loop_state : Type := {
  st_hc : vec * vec;
  st_dec_input : vec;
  st_mask : vec;
  st_pi : list nat;
  st_log_ps : list vec
}.

(** The body of [for _ in range(city_t)]; [u] is the number the random
    source hands to this step. *)
Definition step (embed_enc_inputs ref : mat) (st : loop_state) (u : R) : loop_state :=
  let n := length ref in
  let hc := lstm_cell (hidden self) (Decoder self) (st_dec_input st) (st_hc st) in
  let query := Nat.iter (n_glimpse self)
                 (fun q => glimpse q ref (st_mask st)) (fst hc) in
  let logits := pointer query ref (st_mask st) in
  let log_p := log_softmax logits in
  let next_node := match city_selecter self with
                   | greedy => Greedy log_p
                   | sampling => Categorical u log_p
                   end in
  {| st_hc := hc;
     st_dec_input := nth next_node embed_enc_inputs [];
     st_mask := vadd (st_mask st) (scatter n next_node);
     st_pi := st_pi st ++ [next_node];
     st_log_ps := st_log_ps st ++ [log_p] |}.

Definition zeros (n : nat) : vec := repeat 0 n.

(** The state after the first [length us] rounds of the loop on the
    instance [x]. *)
Definition decode (x : list (R * R)) (us : list R) : loop_state :=
  let embed_enc_inputs := map (fun p => matvec (Embedding self) [fst p; snd p]) x in
  let '(enc_h, hc) :=
    lstm (hidden self) (Encoder self) embed_enc_inputs
         (zeros (hidden self), zeros (hidden self)) in
  fold_left (step embed_enc_inputs enc_h) us
    {| st_hc := hc; st_dec_input := dec_input self;
       st_mask := zeros (length x); st_pi := []; st_log_ps := [] |}.

(** [get_log_likelihood]: gather the chosen entries, then sum. *)
Definition get_log_likelihood (log_ps : list vec) (pi : list nat) : R :=
  rsum (map (fun lp => nth (snd lp) (fst lp) 0) (combine log_ps pi)).

(** [forward] on one instance of at least one city: the loop runs
    [city_t] rounds; [us] holds one random number for each of them, and
    a missing one reads as 0.  On an instance of no city [nn.LSTM]
    raises; that run has no counterpart here. *)
Definition forward (x : list (R * R)) (us : list R) : list nat * R :=
  let st := decode x (firstn (length x) (us ++ repeat 0 (length x))) in
  (st_pi st, get_log_likelihood (st_log_ps st) (st_pi st)).

End Net.

End Actor.

(** * Properties *)

(** ** The error monad and list indexing *)

Lemma index_nth {A} (l : list A) (i : nat) (d : A) :
  i < length l -> index l i = Ok (nth i l d).
Proof.
  intros Hi. unfold index.
  rewrite (nth_error_nth' l d Hi). reflexivity.
Qed.

Lemma index_out {A} (l : list A) (i : nat) :
  length l <= i -> index l i = Err IndexError.
Proof.
  intros Hi. unfold index.
  apply nth_error_None in Hi. rewrite Hi. reflexivity.
Qed.

Lemma mapM_ok {A B} (f : A -> result B) (g : A -> B) (l : list A) :
  (forall x, In x l -> f x = Ok (g x)) -> mapM f l = Ok (map g l).
Proof.
  induction l as [|x l IH]; intros Hf; simpl.
  - reflexivity.
  - rewrite (Hf x (or_introl eq_refl)). simpl.
    rewrite IH by (intros y Hy; apply Hf; right; exact Hy).
    reflexivity.
Qed.

Lemma mapM_err {A B} (f : A -> result B) (l1 l2 : list A) (x : A) (e : exn) :
  (forall y, In y l1 -> is_err (f y) = false) ->
  f x = Err e -> mapM f (l1 ++ x :: l2) = Err e.
Proof.
  induction l1 as [|y l1 IH]; intros Hok Hx; simpl.
  - rewrite Hx. reflexivity.
  - pose proof (Hok y (or_introl eq_refl)) as Hy.
    destruct (f y) as [b|e']; [|discriminate]. simpl.
    rewrite IH; [reflexivity| |exact Hx].
    intros z Hz. apply Hok. right. exact Hz.
Qed.

Lemma map_nth_seq {A B} (h : A -> B) (l : list A) (d : A) :
  map (fun i => h (nth i l d)) (seq 0 (length l)) = map h l.
Proof.
  induction l as [|x l IH]; simpl; [reflexivity|].
  f_equal. rewrite <- seq_shift, map_map. exact IH.
Qed.

Lemma fold_left_err {A B} (f : result A -> B -> result A) (l : list B) (e : exn) :
  (forall b, f (Err e) b = Err e) -> fold_left f l (Err e) = Err e.
Proof.
  intros Hf. induction l as [|b l IH]; simpl; [reflexivity|].
  rewrite Hf. exact IH.
Qed.

Lemma firstn_snoc {A} (l : list A) (k : nat) (d : A) :
  k < length l -> firstn (S k) l = firstn k l ++ [nth k l d].
Proof.
  revert k. induction l as [|x l IH]; intros k Hk; [simpl in Hk; lia|].
  destruct k as [|k]; [reflexivity|].
  cbn [firstn nth app]. f_equal. rewrite <- IH by (simpl in Hk; lia). reflexivity.
Qed.

Lemma last_default {A} (l : list A) (a b : A) :
  l <> [] -> last l a = last l b.
Proof.
  induction l as [|x l IH]; intros Hl; [congruence|].
  destruct l as [|y l]; [reflexivity|].
  change (last (y :: l) a = last (y :: l) b).
  apply IH. discriminate.
Qed.

Lemma nth_length_last {A} (x : A) (l : list A) (d : A) :
  nth (length l) (x :: l) d = last (x :: l) x.
Proof.
  revert x. induction l as [|y l IH]; intros x; [reflexivity|].
  change (nth (length l) (y :: l) d = last (y :: l) x).
  rewrite IH. apply last_default. discriminate.
Qed.

(** ** Tour length: the loop and the gathered form *)

Section TourLength.

Context {D : Type} `{Scalar D}.
Variable self : Env_tsp.

(** The distances between neighbours of a list of points. *)
Fixpoint chain (d : list (point D)) : list D :=
  match d with
  | [] => []
  | x :: d' =>
      match d' with
      | [] => []
      | y :: _ => get_2city_distance x y :: chain d'
      end
  end.

Lemma distance_norm2 (p q : point D) :
  get_2city_distance p q = norm2 (psub q p).
Proof. destruct p, q. reflexivity. Qed.

Lemma zip_sub_chain (d : list (point D)) :
  map norm2 (zip_sub (tl d) (removelast d)) = chain d.
Proof.
  induction d as [|x d IH]; [reflexivity|].
  destruct d as [|y d]; [reflexivity|].
  change (tl (x :: y :: d)) with (y :: d).
  change (removelast (x :: y :: d)) with (x :: removelast (y :: d)).
  cbn [zip_sub map chain]. rewrite distance_norm2. f_equal.
  destruct d as [|z d]; [reflexivity|].
  exact IH.
Qed.

Lemma chain_length (d : list (point D)) : length (chain d) = length d - 1.
Proof.
  induction d as [|x d IH]; [reflexivity|].
  destruct d as [|y d]; [reflexivity|].
  change (chain (x :: y :: d)) with (get_2city_distance x y :: chain (y :: d)).
  cbn [length] in *. lia.
Qed.

Lemma chain_nth (d : list (point D)) (k : nat) (p0 : point D) (z : D) :
  S k < length d ->
  nth k (chain d) z = get_2city_distance (nth k d p0) (nth (S k) d p0).
Proof.
  revert k. induction d as [|x d IH]; intros k Hk; [simpl in Hk; lia|].
  destruct d as [|y d]; [simpl in Hk; lia|].
  change (chain (x :: y :: d)) with (get_2city_distance x y :: chain (y :: d)).
  destruct k as [|k]; [reflexivity|].
  cbn [nth]. rewrite (IH k) by (simpl in *; lia). reflexivity.
Qed.

(** The exact value both evaluators compute on a gathered tour. *)
Definition cyclic_length (d : list (point D)) : D :=
  match d with
  | [] => s0
  | d0 :: _ => sadd (torch_sum (chain d)) (get_2city_distance (last d d0) d0)
  end.

Definition visit (nodes : list (point D)) (tour : list nat) : list (point D) :=
  map (fun a => nth a nodes (s0, s0)) tour.

Lemma gather_visit (nodes : list (point D)) (tour : list nat) :
  (forall a, In a tour -> a < length nodes) ->
  gather nodes tour = Ok (visit nodes tour).
Proof.
  intros Hin. unfold gather, visit. apply mapM_ok.
  intros a Ha. rewrite (nth_error_nth' nodes (s0, s0) (Hin a Ha)). reflexivity.
Qed.

Lemma tour_step_ok (nodes : list (point D)) (tour : list nat) (l : D) (i : nat) :
  (forall a, In a tour -> a < length nodes) ->
  length tour = city_t self -> i < city_t self ->
  tour_step self nodes tour (Ok l) i =
  Ok (sadd l (get_2city_distance
                (nth i (visit nodes tour) (s0, s0))
                (nth ((i + 1) mod city_t self) (visit nodes tour) (s0, s0)))).
Proof.
  intros Hin Hlen Hi.
  assert (Hm : (i + 1) mod city_t self < length tour).
  { rewrite Hlen. apply Nat.mod_upper_bound. lia. }
  assert (Hv : forall j, j < length tour ->
             nth j (visit nodes tour) (s0, s0) = nth (nth j tour 0) nodes (s0, s0)).
  { intros j Hj. unfold visit.
    rewrite (nth_indep _ (s0, s0) (nth 0 nodes (s0, s0)))
      by (rewrite length_map; exact Hj).
    exact (map_nth (fun a => nth a nodes (s0, s0)) tour 0 j). }
  unfold tour_step. cbn [bind].
  rewrite (index_nth tour 0) by lia. cbn [bind].
  rewrite (index_nth nodes (s0, s0)) by (apply Hin, nth_In; lia). cbn [bind].
  rewrite (index_nth tour 0 Hm). cbn [bind].
  rewrite (index_nth nodes (s0, s0)) by (apply Hin, nth_In; exact Hm). cbn [bind].
  rewrite !Hv by lia. reflexivity.
Qed.

Lemma tour_loop_prefix (nodes : list (point D)) (tour : list nat) (k : nat) :
  (forall a, In a tour -> a < length nodes) ->
  length tour = city_t self -> k < city_t self ->
  fold_left (tour_step self nodes tour) (seq 0 k) (Ok s0) =
  Ok (fold_left sadd (firstn k (chain (visit nodes tour))) s0).
Proof.
  intros Hin Hlen. induction k as [|k IH]; intros Hk; [reflexivity|].
  rewrite seq_S, fold_left_app, IH by lia. cbn [fold_left Nat.add].
  rewrite tour_step_ok by (assumption || lia).
  assert (Hlv : length (visit nodes tour) = city_t self)
    by (unfold visit; rewrite length_map; exact Hlen).
  rewrite Nat.mod_small by lia.
  replace (k + 1) with (S k) by lia.
  rewrite <- (chain_nth (visit nodes tour) (s0, s0) s0) by lia.
  assert (Hc : k < length (chain (visit nodes tour)))
    by (rewrite chain_length; lia).
  rewrite (firstn_snoc _ s0 Hc).
  rewrite fold_left_app. reflexivity.
Qed.

Lemma get_tour_distance_cyclic (nodes : list (point D)) (tour : list nat) :
  (forall a, In a tour -> a < length nodes) ->
  length tour = city_t self ->
  get_tour_distance self nodes tour = Ok (cyclic_length (visit nodes tour)).
Proof.
  intros Hin Hlen. unfold get_tour_distance.
  assert (Hlv : length (visit nodes tour) = city_t self)
    by (unfold visit; rewrite length_map; exact Hlen).
  destruct (Nat.eq_dec (city_t self) 0) as [E0|E0].
  - rewrite E0 in *. destruct (visit nodes tour); [reflexivity|discriminate].
  - pose (n := city_t self - 1).
    assert (En : city_t self = S n) by (unfold n; lia).
    replace (seq 0 (city_t self)) with (seq 0 n ++ [n])
      by (rewrite En, seq_S; reflexivity).
    rewrite fold_left_app.
    rewrite tour_loop_prefix by (assumption || lia).
    cbn [fold_left].
    rewrite tour_step_ok by (assumption || lia).
    replace ((n + 1) mod city_t self) with 0
      by (rewrite En; replace (n + 1) with (S n) by lia;
          rewrite Nat.Div0.mod_same; reflexivity).
    rewrite En in Hlv.
    rewrite firstn_all2 by (rewrite chain_length; lia).
    destruct (visit nodes tour) as [|d0 d] eqn:Ev; [discriminate|].
    unfold cyclic_length, torch_sum. do 3 f_equal.
    assert (Hn : n = length d) by (simpl in Hlv; lia).
    rewrite Hn. apply nth_length_last.
Qed.

Lemma fast_length_cyclic (d : list (point D)) :
  d <> [] -> fast_length d = Ok (cyclic_length d).
Proof.
  destruct d as [|d0 d]; [congruence|]. intros _.
  unfold fast_length, cyclic_length.
  rewrite zip_sub_chain, distance_norm2. reflexivity.
Qed.

(** Both evaluators on a batch whose size is the configured one. *)
Lemma stack_l_both (inputs : list (list (point D))) (tours : list (list nat)) :
  1 <= batch self -> 1 <= city_t self ->
  length inputs = batch self -> length tours = batch self ->
  (forall i, i < batch self ->
     length (nth i tours []) = city_t self /\
     forall a, In a (nth i tours []) -> a < length (nth i inputs [])) ->
  let l := map (fun it => cyclic_length (visit (fst it) (snd it)))
               (combine inputs tours) in
  stack_l self inputs tours = Ok l /\ stack_l_fast inputs tours = Ok l /\
  length l = batch self.
Proof.
  intros Hb Hc Hli Hlt Hrows l.
  assert (Hlen : length l = batch self).
  { unfold l. rewrite length_map, length_combine. lia. }
  assert (Hcomb : forall i, i < batch self ->
            nth i (combine inputs tours) ([], []) = (nth i inputs [], nth i tours [])).
  { intros i Hi. apply combine_nth. lia. }
  split; [|split; [|exact Hlen]].
  - unfold stack_l.
    rewrite (mapM_ok _ (fun i => cyclic_length (visit (nth i inputs []) (nth i tours [])))).
    + cbn [bind].
      assert (E : map (fun i => cyclic_length (visit (nth i inputs []) (nth i tours [])))
                      (seq 0 (batch self)) = l).
      { unfold l.
        rewrite <- (map_nth_seq (fun it => cyclic_length (visit (fst it) (snd it)))
                      (combine inputs tours) ([], [])).
        rewrite length_combine, Hli, Hlt, Nat.min_id.
        apply map_ext_in. intros i Hi. apply in_seq in Hi.
        rewrite Hcomb by lia. reflexivity. }
      rewrite E. destruct l; [simpl in Hlen; lia|reflexivity].
    + intros i Hi. apply in_seq in Hi.
      rewrite (index_nth inputs []) by lia. cbn [bind].
      rewrite (index_nth tours []) by lia. cbn [bind].
      destruct (Hrows i) as [H1 H2]; [lia|].
      apply get_tour_distance_cyclic; assumption.
  - unfold stack_l_fast.
    replace (length inputs <? length tours) with false
      by (symmetry; apply Nat.ltb_ge; lia).
    apply mapM_ok. intros [nodes tour] Hin.
    destruct (In_nth _ _ ([], []) Hin) as [i [Hi Hn]].
    rewrite length_combine in Hi.
    rewrite Hcomb in Hn by lia. injection Hn as <- <-.
    destruct (Hrows i) as [H1 H2]; [lia|].
    cbn [fst snd]. rewrite gather_visit by exact H2. cbn [bind].
    apply fast_length_cyclic.
    unfold visit. destruct (nth i tours []); [simpl in H1; lia|discriminate].
Qed.

End TourLength.

Lemma Permutation_seq_bound (l : list nat) (n a : nat) :
  Permutation l (seq 0 n) -> In a l -> a < n.
Proof.
  intros HP Ha. apply (Permutation_in _ HP) in Ha.
  apply in_seq in Ha. lia.
Qed.

(** ** The batch size of the configuration against that of the input *)

Lemma mapM_ext {A B} (f g : A -> result B) (l : list A) :
  (forall x, In x l -> f x = g x) -> mapM f l = mapM g l.
Proof.
  induction l as [|x l IH]; intros Hfg; simpl; [reflexivity|].
  rewrite (Hfg x (or_introl eq_refl)).
  rewrite IH by (intros y Hy; apply Hfg; right; exact Hy). reflexivity.
Qed.

Lemma mapM_length {A B} (f : A -> result B) (l : list A) (r : list B) :
  mapM f l = Ok r -> length r = length l.
Proof.
  revert r. induction l as [|x l IH]; intros r; simpl.
  - intros [= <-]. reflexivity.
  - destruct (f x) as [y|e]; [|discriminate]. simpl.
    destruct (mapM f l) as [ys|e]; [|discriminate]. simpl.
    intros [= <-]. simpl. f_equal. apply IH. reflexivity.
Qed.

(** A comprehension whose items can only raise [e], and one of which
    does, raises [e]. *)
Lemma mapM_raises {A B} (f : A -> result B) (l : list A) (i : A) (e : exn) :
  (forall x, In x l -> (exists y, f x = Ok y) \/ f x = Err e) ->
  In i l -> f i = Err e -> mapM f l = Err e.
Proof.
  induction l as [|x l IH]; intros Hall Hin Hi; [destruct Hin|].
  simpl. destruct (Hall x (or_introl eq_refl)) as [[y Hy]|Hx].
  - rewrite Hy. simpl. destruct Hin as [->|Hin]; [congruence|].
    rewrite IH; auto. intros z Hz. apply Hall. right. exact Hz.
  - rewrite Hx. reflexivity.
Qed.

Lemma fold_left_ext {A B} (f g : A -> B -> A) (l : list B) (a : A) :
  (forall acc x, In x l -> f acc x = g acc x) ->
  fold_left f l a = fold_left g l a.
Proof.
  revert a. induction l as [|x l IH]; intros a Hfg; simpl; [reflexivity|].
  rewrite (Hfg a x (or_introl eq_refl)).
  apply IH. intros acc y Hy. apply Hfg. right. exact Hy.
Qed.

(** A loop whose rounds can only raise [e], and one of which does,
    raises [e]. *)
Lemma fold_left_raises {A B} (f : result A -> B -> result A) (l : list B)
    (i : B) (e : exn) :
  (forall x, f (Err e) x = Err e) ->
  (forall a x, In x l -> (exists a', f (Ok a) x = Ok a') \/ f (Ok a) x = Err e) ->
  In i l -> (forall a, f (Ok a) i = Err e) ->
  forall a, fold_left f l (Ok a) = Err e.
Proof.
  intros Herr. induction l as [|x l IH]; intros Hall Hin Hi a; [destruct Hin|].
  simpl. destruct (Hall a x (or_introl eq_refl)) as [[a' Ha']|Hx].
  - rewrite Ha'. destruct Hin as [->|Hin]; [rewrite Hi in Ha'; discriminate|].
    apply IH; auto. intros b z Hz. apply Hall. right. exact Hz.
  - rewrite Hx. apply fold_left_err. exact Herr.
Qed.

Lemma index_firstn {A} (l : list A) (n i : nat) :
  i < n -> index (firstn n l) i = index l i.
Proof.
  intros Hi. unfold index. rewrite nth_error_firstn.
  destruct (Nat.ltb_spec i n); [reflexivity|lia].
Qed.

Lemma index_cases {A} (l : list A) (i : nat) :
  (exists x, index l i = Ok x) \/ index l i = Err IndexError.
Proof.
  unfold index. destruct (nth_error l i); [left; eexists; reflexivity|right; reflexivity].
Qed.

Section BatchSize.

Context {D : Type} `{Scalar D}.
Variable self : Env_tsp.

Ltac by_index l i :=
  destruct (index_cases l i) as [[? ->]| ->]; [cbn [bind]|right; reflexivity].

Lemma tour_step_cases (nodes : list (point D)) (tour : list nat) (l : D) (i : nat) :
  (exists l', tour_step self nodes tour (Ok l) i = Ok l') \/
  tour_step self nodes tour (Ok l) i = Err IndexError.
Proof.
  unfold tour_step. cbn [bind].
  by_index tour i. by_index nodes x.
  by_index tour ((i + 1) mod city_t self). by_index nodes x1.
  left. eexists. reflexivity.
Qed.

Lemma get_tour_distance_cases (nodes : list (point D)) (tour : list nat) :
  (exists l, get_tour_distance self nodes tour = Ok l) \/
  get_tour_distance self nodes tour = Err IndexError.
Proof.
  unfold get_tour_distance. generalize (seq 0 (city_t self)) (s0 : D).
  intros l. induction l as [|i l IH]; intros a; cbn [fold_left].
  - left. eexists. reflexivity.
  - destruct (tour_step_cases nodes tour a i) as [[a' ->]| ->].
    + apply IH.
    + right. apply fold_left_err. reflexivity.
Qed.

Lemma scan_cases (xy : point D) (test : list (point D)) (ks : list nat) :
  (exists m, scan xy test ks = Ok m) \/ scan xy test ks = Err IndexError.
Proof.
  induction ks as [|k ks IH]; simpl.
  - left. eexists. reflexivity.
  - by_index test k. destruct (peqb xy x); [left; eexists; reflexivity|exact IH].
Qed.

Lemma back_step_cases (tour : list nat) (shuffled test : list (list (point D)))
    (i : nat) (st : list nat * list (list nat)) (j : nat) :
  (exists st', back_step self tour (index shuffled i) (index test i) (Ok st) j = Ok st') \/
  back_step self tour (index shuffled i) (index test i) (Ok st) j = Err IndexError.
Proof.
  unfold back_step. cbn [bind].
  by_index tour j. by_index shuffled i. by_index x0 x. by_index test i.
  destruct (scan_cases x1 x2 (seq 0 (city_t self))) as [[m ->]| ->];
    [cbn [bind]|right; reflexivity].
  destruct m; left; eexists; reflexivity.
Qed.

Lemma back_loop_cases (tour : list nat) (shuffled test : list (list (point D)))
    (i : nat) (js : list nat) (st : list nat * list (list nat)) :
  (exists st', fold_left (back_step self tour (index shuffled i) (index test i))
                         js (Ok st) = Ok st') \/
  fold_left (back_step self tour (index shuffled i) (index test i)) js (Ok st)
  = Err IndexError.
Proof.
  revert st. induction js as [|j js IH]; intros st; cbn [fold_left].
  - left. eexists. reflexivity.
  - destruct (back_step_cases tour shuffled test i st j) as [[st' ->]| ->].
    + apply IH.
    + right. apply fold_left_err. reflexivity.
Qed.

Lemma back_instance_cases (tours : list (list nat))
    (shuffled test : list (list (point D))) (a : list (list nat)) (i : nat) :
  (exists a', back_instance self tours shuffled test (Ok a) i = Ok a') \/
  back_instance self tours shuffled test (Ok a) i = Err IndexError.
Proof.
  unfold back_instance. cbn [bind].
  destruct (city_t self) as [|n] eqn:En; [left; eexists; reflexivity|].
  rewrite <- En. by_index tours i.
  destruct (back_loop_cases x shuffled test i (seq 0 (city_t self)) ([], a))
    as [[st' ->]| ->]; [left; eexists; reflexivity|right; reflexivity].
Qed.

Lemma back_instance_short (tours : list (list nat))
    (shuffled test : list (list (point D))) (a : list (list nat)) (i : nat) :
  1 <= city_t self ->
  length tours <= i \/ length shuffled <= i \/ length test <= i ->
  back_instance self tours shuffled test (Ok a) i = Err IndexError.
Proof.
  intros Hc Hshort. unfold back_instance. cbn [bind].
  destruct (city_t self) as [|n] eqn:En; [lia|]. rewrite <- En.
  destruct (index tours i) as [tour|e] eqn:Ht; cbn [bind];
    [|destruct (index_cases tours i) as [[? Hx]|Hx]; congruence].
  assert (Hstep : forall st,
    back_step self tour (index shuffled i) (index test i) (Ok st) 0 = Err IndexError).
  { intros st. unfold back_step. cbn [bind].
    destruct (index_cases tour 0) as [[c ->]| ->]; [cbn [bind]|reflexivity].
    destruct (index shuffled i) as [sh|e] eqn:Hs; cbn [bind];
      [|destruct (index_cases shuffled i) as [[? Hx]|Hx]; congruence].
    destruct (index_cases sh c) as [[xy ->]| ->]; [cbn [bind]|reflexivity].
    destruct (index test i) as [te|e] eqn:Hte; cbn [bind];
      [|destruct (index_cases test i) as [[? Hx]|Hx]; congruence].
    destruct Hshort as [Hl|[Hl|Hl]]; apply index_out in Hl; congruence. }
  rewrite En at 1. cbn [seq fold_left]. rewrite Hstep.
  rewrite fold_left_err by reflexivity. reflexivity.
Qed.

(** C10.  [stack_l] and [back_tours] run over [range(self.batch)]
    whatever the batch dimension of their arguments, and
    [stack_l_fast] over the batch dimension of its arguments: instances
    beyond [self.batch] change nothing for the first two, whose result
    has [self.batch] rows where that of [stack_l_fast] has one per
    tour, and with fewer instances than [self.batch] the first two
    raise [IndexError]. *)
Theorem batch_size_mismatch
    (inputs shuffle_inputs test_inputs : list (list (point D)))
    (tours : list (list nat)) :
  let b := batch self in
  stack_l self inputs tours = stack_l self (firstn b inputs) (firstn b tours) /\
  back_tours self tours shuffle_inputs test_inputs =
    back_tours self (firstn b tours) (firstn b shuffle_inputs) (firstn b test_inputs) /\
  (forall l, stack_l self inputs tours = Ok l -> length l = b) /\
  (forall l, stack_l_fast inputs tours = Ok l -> length l = length tours) /\
  (length inputs < b \/ length tours < b ->
   stack_l self inputs tours = Err IndexError) /\
  (1 <= city_t self ->
   length tours < b \/ length shuffle_inputs < b \/ length test_inputs < b ->
   back_tours self tours shuffle_inputs test_inputs = Err IndexError).
Proof.
  intros b. repeat split.
  - unfold stack_l. f_equal. apply mapM_ext. intros i Hi. apply in_seq in Hi.
    rewrite !index_firstn by (unfold b; lia). reflexivity.
  - unfold back_tours. f_equal. apply fold_left_ext. intros acc i Hi.
    apply in_seq in Hi. unfold back_instance.
    rewrite !index_firstn by (unfold b; lia). reflexivity.
  - intros l. unfold stack_l.
    destruct (mapM _ (seq 0 (batch self))) as [r|e] eqn:Hm; [|discriminate].
    cbn [bind]. apply mapM_length in Hm. rewrite length_seq in Hm.
    destruct r; [discriminate|]. intros [= <-]. exact Hm.
  - intros l. unfold stack_l_fast.
    destruct (Nat.ltb_spec (length inputs) (length tours));
      [destruct (forallb _ tours); discriminate|].
    intros Hm. apply mapM_length in Hm. rewrite length_combine in Hm. lia.
  - intros Hshort. unfold stack_l.
    set (f := fun i => nodes <- index inputs i ;; tour <- index tours i ;;
                       get_tour_distance self nodes tour).
    assert (Hcases : forall i, (exists y, f i = Ok y) \/ f i = Err IndexError).
    { intros i. unfold f. by_index inputs i. by_index tours i.
      apply get_tour_distance_cases. }
    assert (Hraise : exists i, i < b /\ f i = Err IndexError).
    { destruct (Nat.lt_ge_cases (length inputs) b) as [Hi|Hi].
      - exists (length inputs). split; [exact Hi|].
        unfold f. rewrite index_out by lia. reflexivity.
      - exists (length tours). split; [lia|].
        unfold f. destruct (index_cases inputs (length tours)) as [[? ->]| ->];
          [cbn [bind]|reflexivity].
        rewrite index_out by lia. reflexivity. }
    destruct Hraise as (i & Hi & Hf).
    rewrite (mapM_raises f (seq 0 (batch self)) i (e := IndexError)); auto.
    apply in_seq. unfold b in Hi. lia.
  - intros Hc Hshort. unfold back_tours.
    assert (Hraise : exists i, i < b /\
              (length tours <= i \/ length shuffle_inputs <= i \/ length test_inputs <= i)).
    { destruct Hshort as [Hl|[Hl|Hl]]; eexists; (split; [exact Hl|]); auto. }
    destruct Hraise as (i & Hi & Hs).
    rewrite (fold_left_raises (back_instance self tours shuffle_inputs test_inputs)
               (seq 0 (batch self)) i (e := IndexError)).
    + reflexivity.
    + reflexivity.
    + intros a x _. apply back_instance_cases.
    + apply in_seq. unfold b in Hi. lia.
    + intros a. apply back_instance_short; assumption.
Qed.

End BatchSize.

Lemma batch_size_mismatch_witness :
  let self := {| batch := 2; city_t := 2 |} in
  stack_l self [[(0, 0); (3, 4)]]%Z [[0; 1]] = Err IndexError /\
  back_tours self [[0; 1]] [[(0, 0); (3, 4)]]%Z [[(0, 0); (3, 4)]]%Z = Err IndexError.
Proof.
  intros self.
  pose proof (batch_size_mismatch self [[(0, 0); (3, 4)]]%Z [[(0, 0); (3, 4)]]%Z
                [[(0, 0); (3, 4)]]%Z [[0; 1]]) as (_ & _ & _ & _ & H5 & H6).
  split.
  - apply H5. left. simpl. lia.
  - apply H6; [simpl; lia|]. left. simpl. lia.
Defined.

(** ** The integers and the reals are scalars *)

#[export] Instance ScalarLaws_Z : ScalarLaws Z.
Proof.
  split; unfold sle; cbn [seqb sltb sadd s0 Scalar_Z]; intros.
  - apply Z.eqb_eq. assumption.
  - apply Z.eqb_refl.
  - apply Z.ltb_irrefl.
  - apply Z.ltb_ge. apply Z.ltb_lt in H. lia.
  - apply Z.ltb_ge. apply Z.ltb_ge in H, H0. lia.
  - apply Z.add_assoc.
  - apply Z.add_comm.
  - reflexivity.
  - apply Z.ltb_ge. apply Z.ltb_ge in H. lia.
Qed.

Lemma Rltb_false (a b : R) :
  (if Rlt_dec a b then true else false) = false <-> (b <= a)%R.
Proof. destruct (Rlt_dec a b); split; intros; try discriminate; lra. Qed.

Lemma Rltb_true (a b : R) :
  (if Rlt_dec a b then true else false) = true <-> (a < b)%R.
Proof. destruct (Rlt_dec a b); split; intros; try discriminate; try lra; reflexivity. Qed.

#[export] Instance ScalarLaws_R : ScalarLaws R.
Proof.
  split; unfold sle; cbn [seqb sltb sadd s0 Scalar_R]; intros.
  - destruct (Req_dec_T a b); [assumption|discriminate].
  - destruct (Req_dec_T a a); [reflexivity|contradiction].
  - apply Rltb_false. lra.
  - apply Rltb_false. apply Rltb_true in H. lra.
  - apply Rltb_false. apply Rltb_false in H, H0. lra.
  - ring.
  - ring.
  - ring.
  - apply Rltb_false. apply Rltb_false in H. lra.
Qed.

(** ** [back_tours]: the first match *)

Section BackTours.

Context {D : Type} `{ScalarLaws D}.
Variable self : Env_tsp.

Lemma peqb_true (p q : point D) : peqb p q = true <-> p = q.
Proof.
  unfold peqb. destruct p as [a b], q as [c d]. cbn [fst snd]. split.
  - intros Hpq. apply andb_prop in Hpq. destruct Hpq as [H1 H2].
    apply seqb_eq in H1, H2. congruence.
  - intros [= -> ->]. rewrite !seqb_refl. reflexivity.
Qed.

(** The index [back_tours] gives to the coordinates [xy]: that of
    their first occurrence in the canonical order. *)
Fixpoint first_index (xy : point D) (test : list (point D)) : nat :=
  match test with
  | [] => 0
  | p :: test' => if peqb xy p then 0 else S (first_index xy test')
  end.

Lemma first_index_spec (xy : point D) (test : list (point D)) :
  In xy test ->
  first_index xy test < length test /\
  nth (first_index xy test) test (s0, s0) = xy /\
  forall k, k < first_index xy test -> nth k test (s0, s0) <> xy.
Proof.
  induction test as [|p test IH]; intros Hin; [destruct Hin|].
  cbn [first_index]. destruct (peqb xy p) eqn:E.
  - apply peqb_true in E. subst p. cbn [length nth]. repeat split; [lia|].
    intros k Hk. lia.
  - assert (Hne : p <> xy).
    { intros ->. rewrite (proj2 (peqb_true xy xy) eq_refl) in E. discriminate. }
    destruct Hin as [Hp|Hin]; [contradiction|].
    destruct (IH Hin) as (H1 & H2 & H3). cbn [length nth]. repeat split.
    + lia.
    + exact H2.
    + intros [|k] Hk; [exact Hne|]. apply H3. lia.
Qed.

Lemma scan_first_index (xy : point D) (pre test : list (point D)) :
  In xy test ->
  scan xy (pre ++ test) (seq (length pre) (length test))
  = Ok (Some (length pre + first_index xy test)).
Proof.
  revert pre. induction test as [|p test IH]; intros pre Hin; [destruct Hin|].
  cbn [length seq scan first_index].
  assert (Hidx : index (pre ++ p :: test) (length pre) = Ok p).
  { unfold index. rewrite nth_error_app2 by lia. rewrite Nat.sub_diag. reflexivity. }
  rewrite Hidx. cbn [bind]. destruct (peqb xy p) eqn:E.
  - rewrite Nat.add_0_r. reflexivity.
  - destruct Hin as [Hp|Hin].
    + subst p. rewrite (proj2 (peqb_true xy xy) eq_refl) in E. discriminate.
    + specialize (IH (pre ++ [p]) Hin).
      rewrite <- app_assoc, length_app in IH. cbn [length app] in IH.
      replace (length pre + 1) with (S (length pre)) in IH by lia.
      rewrite IH. do 2 f_equal. lia.
Qed.

(** The tour [back_tours] computes for one instance. *)
Definition rectify (shuffled test : list (point D)) (tour : list nat) : list nat :=
  map (fun a => first_index (nth a shuffled (s0, s0)) test) tour.

Lemma back_step_ok (tour : list nat) (shuffled test : list (list (point D)))
    (i j : nat) (st : list nat * list (list nat)) :
  i < length shuffled -> i < length test ->
  length (nth i test []) = city_t self ->
  j < length tour ->
  nth j tour 0 < length (nth i shuffled []) ->
  In (nth (nth j tour 0) (nth i shuffled []) (s0, s0)) (nth i test []) ->
  back_step self tour (index shuffled i) (index test i) (Ok st) j =
  let k := first_index (nth (nth j tour 0) (nth i shuffled []) (s0, s0)) (nth i test []) in
  Ok (fst st ++ [k],
      if length (fst st ++ [k]) =? city_t self
      then snd st ++ [fst st ++ [k]] else snd st).
Proof.
  intros Hs Ht Hlen Hj Ha Hin. unfold back_step. cbn [bind].
  rewrite (index_nth tour 0 Hj). cbn [bind].
  rewrite (index_nth shuffled [] Hs). cbn [bind].
  rewrite (index_nth (nth i shuffled []) (s0, s0) Ha). cbn [bind].
  rewrite (index_nth test [] Ht). cbn [bind].
  rewrite <- Hlen.
  pose proof (scan_first_index _ [] (nth i test []) Hin) as Hscan.
  cbn [app length Nat.add] in Hscan. rewrite Hscan. cbn [bind].
  reflexivity.
Qed.

(** What [back_tours] needs of instance [i]. *)
Definition well_formed (tours : list (list nat))
    (shuffled test : list (list (point D))) (i : nat) : Prop :=
  i < length tours /\ i < length shuffled /\ i < length test /\
  length (nth i test []) = city_t self /\
  length (nth i tours []) = city_t self /\
  (forall a, In a (nth i tours []) -> a < length (nth i shuffled [])) /\
  (forall p, In p (nth i shuffled []) -> In p (nth i test [])).

Lemma back_loop_prefix (tours : list (list nat))
    (shuffled test : list (list (point D))) (i j : nat) (acc : list (list nat)) :
  1 <= city_t self -> well_formed tours shuffled test i -> j <= city_t self ->
  let r := rectify (nth i shuffled []) (nth i test []) (firstn j (nth i tours [])) in
  fold_left (back_step self (nth i tours []) (index shuffled i) (index test i))
            (seq 0 j) (Ok ([], acc))
  = Ok (r, if j =? city_t self then acc ++ [r] else acc).
Proof.
  intros Hc (Ht & Hs & Hte & Hlte & Hlt & Hrange & Hin).
  induction j as [|j IH]; intros Hj r.
  - cbn [seq fold_left]. unfold r. cbn [firstn rectify map].
    destruct (Nat.eqb_spec 0 (city_t self)); [lia|reflexivity].
  - rewrite seq_S, fold_left_app, IH by lia. cbn [Nat.add fold_left].
    destruct (Nat.eqb_spec j (city_t self)); [lia|].
    assert (Hja : nth j (nth i tours []) 0 < length (nth i shuffled []))
      by (apply Hrange, nth_In; lia).
    rewrite back_step_ok; try assumption; try lia.
    + cbn [fst snd].
      assert (Er : rectify (nth i shuffled []) (nth i test [])
                     (firstn j (nth i tours [])) ++
                   [first_index (nth (nth j (nth i tours []) 0) (nth i shuffled []) (s0, s0))
                      (nth i test [])] = r).
      { unfold r, rectify. rewrite (firstn_snoc (nth i tours []) 0) by lia.
        rewrite map_app. reflexivity. }
      rewrite Er.
      assert (El : length r = S j).
      { unfold r, rectify. rewrite length_map, firstn_length_le; lia. }
      rewrite El. reflexivity.
    + apply Hin, nth_In. exact Hja.
Qed.

Lemma back_instance_ok (tours : list (list nat))
    (shuffled test : list (list (point D))) (i : nat) (acc : list (list nat)) :
  1 <= city_t self -> well_formed tours shuffled test i ->
  back_instance self tours shuffled test (Ok acc) i
  = Ok (acc ++ [rectify (nth i shuffled []) (nth i test []) (nth i tours [])]).
Proof.
  intros Hc Hwf.
  unfold back_instance. cbn [bind].
  destruct (city_t self) as [|n] eqn:En; [lia|]. rewrite <- En in *.
  pose proof Hwf as (Ht & _ & _ & _ & Hlt & _).
  rewrite (index_nth tours [] Ht). cbn [bind].
  rewrite back_loop_prefix by (assumption || lia).
  cbn [bind snd]. rewrite Nat.eqb_refl.
  rewrite <- Hlt, firstn_all. reflexivity.
Qed.

Lemma back_tours_prefix (tours : list (list nat))
    (shuffled test : list (list (point D))) (b : nat) :
  1 <= city_t self ->
  (forall i, i < b -> well_formed tours shuffled test i) ->
  fold_left (back_instance self tours shuffled test) (seq 0 b) (Ok [])
  = Ok (map (fun i => rectify (nth i shuffled []) (nth i test []) (nth i tours []))
            (seq 0 b)).
Proof.
  intros Hc. induction b as [|b IH]; intros Hwf; [reflexivity|].
  rewrite seq_S, fold_left_app, IH by (intros i Hi; apply Hwf; lia).
  cbn [Nat.add fold_left]. rewrite back_instance_ok by (auto; apply Hwf; lia).
  rewrite map_app. reflexivity.
Qed.

Lemma back_tours_ok (tours : list (list nat))
    (shuffled test : list (list (point D))) :
  1 <= batch self -> 1 <= city_t self ->
  (forall i, i < batch self -> well_formed tours shuffled test i) ->
  back_tours self tours shuffled test
  = Ok (map (fun i => rectify (nth i shuffled []) (nth i test []) (nth i tours []))
            (seq 0 (batch self))).
Proof.
  intros Hb Hc Hwf. unfold back_tours.
  rewrite back_tours_prefix by assumption. cbn [bind].
  destruct (batch self); [lia|reflexivity].
Qed.

Lemma rectify_visit (shuffled test : list (point D)) (tour : list nat) :
  (forall a, In a tour -> a < length shuffled) ->
  (forall p, In p shuffled -> In p test) ->
  visit test (rectify shuffled test tour) = visit shuffled tour /\
  Forall (fun k => k < length test) (rectify shuffled test tour).
Proof.
  intros Hrange Hin. unfold visit, rectify. rewrite map_map. split.
  - apply map_ext_in. intros a Ha.
    apply first_index_spec, Hin, nth_In, Hrange, Ha.
  - apply Forall_map, Forall_forall. intros a Ha.
    apply first_index_spec, Hin, nth_In, Hrange, Ha.
Qed.

Lemma nth_map_seq {A} (g : nat -> A) (b i : nat) (d : A) :
  i < b -> nth i (map g (seq 0 b)) d = g i.
Proof.
  intros Hi. rewrite (nth_indep _ d (g 0)) by (rewrite length_map, length_seq; exact Hi).
  rewrite (map_nth g (seq 0 b) 0 i), seq_nth by exact Hi. reflexivity.
Qed.

(** C5.  On a batch of the configured size whose instances are
    shuffled copies of the canonical ones, and for tours over the
    shuffled order, [back_tours] returns one sequence of canonical
    indices for each instance, and the canonical coordinates read in
    that order are, position by position, the shuffled coordinates read
    in the order of the shuffled tour.  (That the coordinates of an
    instance are pairwise distinct is not needed for this.) *)
Theorem back_tours_coordinates
    (test_inputs shuffle_inputs : list (list (point D))) (tours : list (list nat)) :
  1 <= batch self -> 1 <= city_t self ->
  length test_inputs = batch self -> length shuffle_inputs = batch self ->
  length tours = batch self ->
  (forall i, i < batch self ->
     length (nth i test_inputs []) = city_t self /\
     Permutation (nth i test_inputs []) (nth i shuffle_inputs []) /\
     length (nth i tours []) = city_t self /\
     forall a, In a (nth i tours []) -> a < city_t self) ->
  exists pred_tours,
    back_tours self tours shuffle_inputs test_inputs = Ok pred_tours /\
    length pred_tours = batch self /\
    forall i, i < batch self ->
      length (nth i pred_tours []) = city_t self /\
      Forall (fun k => k < city_t self) (nth i pred_tours []) /\
      visit (nth i test_inputs []) (nth i pred_tours [])
      = visit (nth i shuffle_inputs []) (nth i tours []).
Proof.
  intros Hb Hc Hlte Hls Hlt Hrows.
  assert (Hwf : forall i, i < batch self -> well_formed tours shuffle_inputs test_inputs i).
  { intros i Hi. destruct (Hrows i Hi) as (H1 & H2 & H3 & H4).
    unfold well_formed. repeat split; try lia; try assumption.
    - intros a Ha. rewrite <- (Permutation_length H2), H1. apply H4, Ha.
    - intros p Hp. apply (Permutation_in _ (Permutation_sym H2)), Hp. }
  eexists. split; [apply back_tours_ok; assumption|].
  split; [rewrite length_map, length_seq; reflexivity|].
  intros i Hi. rewrite nth_map_seq by exact Hi.
  destruct (Hwf i Hi) as (_ & _ & _ & H1 & H3 & H4 & H5).
  destruct (rectify_visit (nth i shuffle_inputs []) (nth i test_inputs [])
              (nth i tours []) H4 H5) as [Hv Hf].
  rewrite H1 in Hf. repeat split; try assumption.
  unfold rectify. rewrite length_map. exact H3.
Qed.

(** C6, as the code has it.  Coordinates that occur twice raise
    nothing: on a batch of the configured size, whenever every city of
    a tour has its coordinates somewhere in the canonical instance,
    [back_tours] returns, and each index it returns is that of the
    first canonical city with these coordinates. *)
Theorem back_tours_first_match
    (test_inputs shuffle_inputs : list (list (point D))) (tours : list (list nat)) :
  1 <= batch self -> 1 <= city_t self ->
  (forall i, i < batch self -> well_formed tours shuffle_inputs test_inputs i) ->
  exists pred_tours,
    back_tours self tours shuffle_inputs test_inputs = Ok pred_tours /\
    length pred_tours = batch self /\
    forall i j, i < batch self -> j < city_t self ->
      let xy := nth (nth j (nth i tours []) 0) (nth i shuffle_inputs []) (s0, s0) in
      let k := nth j (nth i pred_tours []) 0 in
      k < city_t self /\
      nth k (nth i test_inputs []) (s0, s0) = xy /\
      forall k', k' < k -> nth k' (nth i test_inputs []) (s0, s0) <> xy.
Proof.
  intros Hb Hc Hwf.
  eexists. split; [apply back_tours_ok; assumption|].
  split; [rewrite length_map, length_seq; reflexivity|].
  intros i j Hi Hj xy k. unfold k. rewrite nth_map_seq by exact Hi.
  destruct (Hwf i Hi) as (_ & _ & _ & H1 & H3 & H4 & H5).
  unfold rectify.
  rewrite (nth_indep _ 0 (first_index (nth 0 (nth i shuffle_inputs []) (s0, s0))
                            (nth i test_inputs [])))
    by (rewrite length_map; lia).
  rewrite (map_nth (fun a => first_index (nth a (nth i shuffle_inputs []) (s0, s0))
                                (nth i test_inputs [])) (nth i tours []) 0 j).
  fold xy. rewrite <- H1.
  apply first_index_spec. apply H5, nth_In, H4, nth_In. lia.
Qed.

End BackTours.

Lemma back_tours_coordinates_witness :
  exists pred_tours,
    back_tours {| batch := 1; city_t := 3 |} [[0; 2; 1]]
      [[(3, 4); (0, 0); (3, 0)]]%Z [[(0, 0); (3, 0); (3, 4)]]%Z = Ok pred_tours /\
    length pred_tours = 1 /\
    forall i, i < 1 ->
      length (nth i pred_tours []) = 3 /\
      Forall (fun k => k < 3) (nth i pred_tours []) /\
      visit (nth i [[(0, 0); (3, 0); (3, 4)]]%Z []) (nth i pred_tours [])
      = visit (nth i [[(3, 4); (0, 0); (3, 0)]]%Z []) (nth i [[0; 2; 1]] []).
Proof.
  apply (@back_tours_coordinates Z _ _ {| batch := 1; city_t := 3 |}
           [[(0, 0); (3, 0); (3, 4)]]%Z [[(3, 4); (0, 0); (3, 0)]]%Z [[0; 2; 1]]);
    cbn [batch city_t length]; try lia.
  intros [|i] Hi; [|lia]. cbn [nth length]. repeat split.
  - apply Permutation_sym.
    apply (Permutation_cons_app [(0, 0); (3, 0)]%Z [] (3, 4)%Z). apply Permutation_refl.
  - intros a [<-|[<-|[<-|[]]]]; lia.
Defined.

(** C6, counterexample.  On the instance [(0,0), (0,0), (1,1)], whose
    first two cities have the same coordinates, nothing is raised: the
    tour [0, 1, 2] comes back as [0, 0, 2]. *)
Lemma back_tours_duplicates_no_error :
  back_tours {| batch := 1; city_t := 3 |} [[0; 1; 2]]
    [[(0, 0); (0, 0); (1, 1)]]%Z [[(0, 0); (0, 0); (1, 1)]]%Z = Ok [[0; 0; 2]].
Proof. reflexivity. Qed.

Lemma back_tours_first_match_witness :
  exists pred_tours,
    back_tours {| batch := 1; city_t := 3 |} [[0; 1; 2]]
      [[(0, 0); (0, 0); (1, 1)]]%Z [[(0, 0); (0, 0); (1, 1)]]%Z = Ok pred_tours /\
    length pred_tours = 1 /\
    forall i j, i < 1 -> j < 3 ->
      let xy := nth (nth j (nth i [[0; 1; 2]] []) 0)
                    (nth i [[(0, 0); (0, 0); (1, 1)]]%Z []) (0, 0)%Z in
      let k := nth j (nth i pred_tours []) 0 in
      k < 3 /\
      nth k (nth i [[(0, 0); (0, 0); (1, 1)]]%Z []) (0, 0)%Z = xy /\
      forall k', k' < k -> nth k' (nth i [[(0, 0); (0, 0); (1, 1)]]%Z []) (0, 0)%Z <> xy.
Proof.
  refine (@back_tours_first_match Z _ _ {| batch := 1; city_t := 3 |}
            [[(0, 0); (0, 0); (1, 1)]]%Z [[(0, 0); (0, 0); (1, 1)]]%Z [[0; 1; 2]]
            _ _ _);
    cbn [batch city_t]; try lia.
  intros [|i] Hi; [|lia]. unfold well_formed. cbn [nth length city_t].
  repeat split; try lia.
  - intros a [<-|[<-|[<-|[]]]]; lia.
  - intros p Hp. exact Hp.
Defined.

(** ** [get_optimal_tour] on fewer than two cities *)

Section Degenerate.

Context {D : Type} `{Scalar D}.

(** C9, as the code has it.  [get_optimal_tour] has no guard for
    fewer than two cities.  With no city the subscript
    [all_distances[1:, 0]] raises [IndexError]; with one city the
    distance matrix and the (empty) table are built, and it is the last
    [min], over no item, that raises [ValueError]. *)
Theorem get_optimal_tour_degenerate (nodes : list (point D)) :
  length nodes < 2 ->
  (nodes = [] -> get_optimal_tour nodes = Err IndexError) /\
  (length nodes = 1 ->
   length (all_distances nodes) = 1 /\
   init_table (all_distances nodes) = Ok [] /\
   get_optimal_tour nodes = Err ValueError).
Proof.
  intros Hlen. split.
  - intros ->. reflexivity.
  - intros H1. destruct nodes as [|p [|q nodes]]; try (simpl in H1; lia).
    repeat split.
Qed.

End Degenerate.

Lemma get_optimal_tour_degenerate_witness :
  length (all_distances [(2, 5)]%Z) = 1 /\
  init_table (all_distances [(2, 5)]%Z) = Ok [] /\
  get_optimal_tour [(2, 5)]%Z = Err ValueError.
Proof.
  apply (get_optimal_tour_degenerate [(2, 5)]%Z); simpl; lia.
Defined.

(** C9, counterexample.  On the single city [(0,0)] the error is not
    raised before the computation: the 1x1 distance matrix is built,
    the table is initialised, and the error is the [ValueError] of the
    closing [min]. *)
Lemma one_city_fails_late :
  all_distances [(0, 0)]%Z = [[0%Z]] /\
  init_table (all_distances [(0, 0)]%Z) = Ok [] /\
  get_optimal_tour [(0, 0)]%Z = Err ValueError.
Proof. repeat split. Qed.

(** ** Sets of cities as increasing lists *)


Definition increasing (l : list nat) : Prop := StronglySorted lt l.

Lemma increasing_cons_inv (x : nat) (l : list nat) :
  increasing (x :: l) -> increasing l /\ forall y, In y l -> x < y.
Proof.
  intros Hs. apply StronglySorted_inv in Hs. destruct Hs as [H1 H2].
  split; [exact H1|]. apply Forall_forall. exact H2.
Qed.

Lemma increasing_cons (x : nat) (l : list nat) :
  increasing l -> (forall y, In y l -> x < y) -> increasing (x :: l).
Proof.
  intros H1 H2. constructor; [exact H1|]. apply Forall_forall. exact H2.
Qed.

Lemma increasing_NoDup (l : list nat) : increasing l -> NoDup l.
Proof.
  induction l as [|x l IH]; intros Hs; constructor;
    apply increasing_cons_inv in Hs; destruct Hs as [H1 H2].
  - intros Hin. apply H2 in Hin. lia.
  - apply IH, H1.
Qed.

Lemma increasing_seq (s n : nat) : increasing (seq s n).
Proof.
  revert s. induction n as [|n IH]; intros s; [constructor|].
  apply increasing_cons; [apply IH|].
  intros y Hy. apply in_seq in Hy. lia.
Qed.

(** [itertools.combinations] of an increasing list yields exactly its
    increasing sublists of the given length. *)
Lemma combinations_spec (l : list nat) :
  increasing l ->
  forall m S, In S (combinations l m) <->
              increasing S /\ incl S l /\ length S = m.
Proof.
  induction l as [|x l IH]; intros Hl m S.
  - destruct m as [|m]; simpl; split.
    + intros [<-|[]]. repeat split; [constructor|apply incl_nil_l].
    + intros (_ & _ & Hlen). left. destruct S; [reflexivity|discriminate].
    + intros [].
    + intros (_ & Hincl & Hlen). destruct S as [|y S]; [discriminate|].
      exact (Hincl y (or_introl eq_refl)).
  - apply increasing_cons_inv in Hl. destruct Hl as [Hl Hx].
    destruct m as [|m].
    + simpl. split.
      * intros [<-|[]]. repeat split; [constructor|apply incl_nil_l].
      * intros (_ & _ & Hlen). left. destruct S; [reflexivity|discriminate].
    + cbn [combinations]. rewrite in_app_iff, in_map_iff. split.
      * intros [(S' & <- & HS')|HS].
        -- apply (IH Hl) in HS'. destruct HS' as (H1 & H2 & H3).
           repeat split.
           ++ apply increasing_cons; [exact H1|]. intros y Hy. apply Hx, H2, Hy.
           ++ intros y [<-|Hy]; [left; reflexivity|right; apply H2, Hy].
           ++ simpl. lia.
        -- apply (IH Hl) in HS. destruct HS as (H1 & H2 & H3).
           repeat split; [exact H1| |exact H3].
           intros y Hy. right. apply H2, Hy.
      * intros (H1 & H2 & H3). destruct S as [|y S]; [discriminate|].
        apply increasing_cons_inv in H1. destruct H1 as [H1 Hy].
        destruct (Nat.eq_dec x y) as [->|Hne].
        -- left. exists S. split; [reflexivity|]. apply (IH Hl).
           repeat split; [exact H1| |simpl in H3; lia].
           intros z Hz. destruct (H2 z (or_intror Hz)) as [->|Hz']; [|exact Hz'].
           apply Hy in Hz. lia.
        -- right. apply (IH Hl). repeat split.
           ++ apply increasing_cons; assumption.
           ++ assert (Hyl : In y l).
              { destruct (H2 y (or_introl eq_refl)) as [->|H']; [contradiction|exact H']. }
              intros z [<-|Hz]; [exact Hyl|].
              destruct (H2 z (or_intror Hz)) as [->|Hz']; [|exact Hz'].
              apply Hy in Hz. apply Hx in Hyl. lia.
           ++ exact H3.
Qed.

Lemma set_remove_In (k x : nat) (R : list nat) :
  In x (set_remove k R) <-> In x R /\ x <> k.
Proof.
  unfold set_remove. split.
  - intros Hin. apply in_remove in Hin. exact Hin.
  - intros [H1 H2]. apply in_in_remove; assumption.
Qed.

Lemma set_remove_notin (k : nat) (R : list nat) :
  ~ In k R -> set_remove k R = R.
Proof. intros Hk. apply notin_remove. exact Hk. Qed.

Lemma set_remove_increasing (k : nat) (R : list nat) :
  increasing R -> increasing (set_remove k R).
Proof.
  induction R as [|x R IH]; intros Hs; [constructor|].
  apply increasing_cons_inv in Hs. destruct Hs as [H1 H2].
  unfold set_remove. cbn [remove]. destruct (Nat.eq_dec k x).
  - apply IH, H1.
  - apply increasing_cons; [apply IH, H1|].
    intros y Hy. apply set_remove_In in Hy. apply H2, Hy.
Qed.

Lemma set_remove_length (k : nat) (R : list nat) :
  increasing R -> In k R -> S (length (set_remove k R)) = length R.
Proof.
  induction R as [|x R IH]; intros Hs Hin; [destruct Hin|].
  apply increasing_cons_inv in Hs. destruct Hs as [H1 H2].
  unfold set_remove. cbn [remove]. destruct (Nat.eq_dec k x) as [->|Hne].
  - fold (set_remove x R). rewrite set_remove_notin; [reflexivity|].
    intros Hx. apply H2 in Hx. lia.
  - destruct Hin as [->|Hin]; [contradiction|].
    cbn [length]. f_equal. apply IH; assumption.
Qed.

Lemma set_remove_Permutation (k : nat) (R : list nat) :
  increasing R -> In k R -> Permutation R (k :: set_remove k R).
Proof.
  induction R as [|x R IH]; intros Hs Hin; [destruct Hin|].
  apply increasing_cons_inv in Hs. destruct Hs as [H1 H2].
  unfold set_remove. cbn [remove]. destruct (Nat.eq_dec k x) as [->|Hne].
  - fold (set_remove x R). rewrite set_remove_notin; [reflexivity|].
    intros Hx. apply H2 in Hx. lia.
  - destruct Hin as [->|Hin]; [contradiction|].
    rewrite perm_swap. apply perm_skip. apply IH; assumption.
Qed.

(** The increasing list of [S] with [j] put in. *)
Fixpoint set_add (j : nat) (S : list nat) : list nat :=
  match S with
  | [] => [j]
  | x :: S' => if j <? x then j :: S else x :: set_add j S'
  end.

Lemma set_add_In (j x : nat) (S : list nat) :
  In x (set_add j S) <-> x = j \/ In x S.
Proof.
  induction S as [|y S IH]; simpl.
  - intuition.
  - destruct (j <? y); simpl; rewrite ?IH; intuition.
Qed.

Lemma set_add_increasing (j : nat) (S : list nat) :
  increasing S -> ~ In j S -> increasing (set_add j S).
Proof.
  induction S as [|y S IH]; intros Hs Hj; simpl.
  - apply increasing_cons; [constructor|]. intros ? [].
  - pose proof (increasing_cons_inv Hs) as [H1 H2].
    destruct (Nat.ltb_spec j y).
    + apply increasing_cons; [exact Hs|].
      intros z [<-|Hz]; [assumption|]. apply H2 in Hz. lia.
    + apply increasing_cons.
      * apply IH; [exact H1|]. intros Hin. apply Hj. right. exact Hin.
      * intros z Hz. apply set_add_In in Hz. destruct Hz as [->|Hz].
        -- assert (j <> y) by (intros ->; apply Hj; left; reflexivity). lia.
        -- apply H2, Hz.
Qed.

Lemma set_add_length (j : nat) (S : list nat) :
  length (set_add j S) = Datatypes.S (length S).
Proof.
  induction S as [|y S IH]; simpl; [reflexivity|].
  destruct (j <? y); simpl; [reflexivity|]. f_equal. exact IH.
Qed.

Lemma set_remove_add (j : nat) (S : list nat) :
  ~ In j S -> set_remove j (set_add j S) = S.
Proof.
  induction S as [|y S IH]; intros Hj; unfold set_remove; simpl.
  - destruct (Nat.eq_dec j j); [reflexivity|contradiction].
  - destruct (j <? y).
    + cbn [remove]. destruct (Nat.eq_dec j j); [|contradiction].
      change (set_remove j (y :: S) = y :: S). apply set_remove_notin, Hj.
    + cbn [remove]. destruct (Nat.eq_dec j y) as [->|Hne].
      * exfalso. apply Hj. left. reflexivity.
      * f_equal. apply IH. intros Hin. apply Hj. right. exact Hin.
Qed.

Lemma fold_left_through_map {A X Y} (f : A -> Y -> A) (g : X -> Y)
    (l : list X) (a : A) :
  fold_left f (map g l) a = fold_left (fun acc x => f acc (g x)) l a.
Proof.
  revert a. induction l as [|x l IH]; intros a; [reflexivity|]. simpl. apply IH.
Qed.

(** ** Dictionaries and [min] *)

Section Dict.

Context {D : Type} `{ScalarLaws D}.

Lemma key_eqb_true (a b : key) : key_eqb a b = true <-> a = b.
Proof.
  unfold key_eqb. destruct a as [j R], b as [j' R']. cbn [fst snd].
  destruct (list_eq_dec Nat.eq_dec R R') as [->|Hne];
    destruct (Nat.eqb_spec j j') as [->|Hj]; cbn [andb]; split;
    congruence.
Qed.

Definition has (A : dict D) (k : key) : Prop := exists v, dict_get A k = Ok v.

Lemma dict_get_In (A : dict D) (k : key) (v : entry D) :
  dict_get A k = Ok v -> In (k, v) A.
Proof.
  induction A as [|[k' v'] A IH]; simpl; [discriminate|].
  destruct (key_eqb k k') eqn:E.
  - apply key_eqb_true in E. subst k'. intros [= ->]. left. reflexivity.
  - intros Hget. right. apply IH, Hget.
Qed.

Lemma In_has (A : dict D) (k : key) (v : entry D) : In (k, v) A -> has A k.
Proof.
  induction A as [|[k' v'] A IH]; intros Hin; [destruct Hin|].
  unfold has. simpl. destruct (key_eqb k k') eqn:E; [eexists; reflexivity|].
  destruct Hin as [[= -> ->]|Hin].
  - rewrite (proj2 (key_eqb_true k k) eq_refl) in E. discriminate.
  - apply IH, Hin.
Qed.

Lemma dict_set_has (B : dict D) (k k' : key) (v : entry D) :
  k' = k \/ has B k' -> has (dict_set B k v) k'.
Proof.
  unfold has. induction B as [|[k0 v0] B IH]; intros Hk; simpl.
  - destruct Hk as [->|[w Hw]]; [|discriminate].
    rewrite (proj2 (key_eqb_true k k) eq_refl). eexists. reflexivity.
  - destruct (key_eqb k k0) eqn:E; simpl.
    + destruct (key_eqb k' k0) eqn:E'; [eexists; reflexivity|].
      destruct Hk as [->|[w Hw]].
      * congruence.
      * simpl in Hw. rewrite E' in Hw. eexists. exact Hw.
    + destruct (key_eqb k' k0) eqn:E'; [eexists; reflexivity|].
      apply IH. destruct Hk as [->|[w Hw]]; [left; reflexivity|].
      right. simpl in Hw. rewrite E' in Hw. eexists. exact Hw.
Qed.

Lemma dict_set_In (B : dict D) (k k' : key) (v v' : entry D) :
  In (k', v') (dict_set B k v) -> In (k', v') B \/ (k', v') = (k, v).
Proof.
  induction B as [|[k0 v0] B IH]; simpl.
  - intros [[= <- <-]|[]]. right. reflexivity.
  - destruct (key_eqb k k0) eqn:E; simpl.
    + apply key_eqb_true in E. subst k0.
      intros [[= <- <-]|Hin]; [right; reflexivity|left; right; exact Hin].
    + intros [Heq|Hin]; [left; left; exact Heq|].
      destruct (IH Hin) as [H1|H1]; [left; right; exact H1|right; exact H1].
Qed.

(** A loop that stores one entry per round. *)
Lemma dict_fold {X} (step : result (dict D) -> X -> result (dict D))
    (key_of : X -> key) (Q : key -> entry D -> Prop) (xs : list X) :
  (forall x B, In x xs ->
     exists v, step (Ok B) x = Ok (dict_set B (key_of x) v) /\ Q (key_of x) v) ->
  forall B0 : dict D, (forall k v, In (k, v) B0 -> Q k v) ->
  exists B, fold_left step xs (Ok B0) = Ok B /\
            (forall k v, In (k, v) B -> Q k v) /\
            (forall k, has B0 k \/ In k (map key_of xs) -> has B k).
Proof.
  induction xs as [|x xs IH]; intros Hstep B0 HB0.
  - exists B0. repeat split; [exact HB0|]. intros k [Hk|[]]. exact Hk.
  - destruct (Hstep x B0 (or_introl eq_refl)) as (v & Hv & HQ).
    destruct (IH (fun y B Hy => Hstep y B (or_intror Hy)) (dict_set B0 (key_of x) v))
      as (B & HB & HBQ & HBhas).
    + intros k w Hin. apply dict_set_In in Hin.
      destruct Hin as [Hin|[= -> ->]]; [apply HB0, Hin|exact HQ].
    + exists B. split; [|split]; [simpl; rewrite Hv; exact HB|exact HBQ|].
      intros k Hk. apply HBhas. cbn [map In] in Hk.
      destruct Hk as [Hk|[Hk|Hk]].
      * left. apply dict_set_has. right. exact Hk.
      * left. apply dict_set_has. left. symmetry. exact Hk.
      * right. exact Hk.
Qed.

Lemma fold_left_nested {A X Y} (h : X -> A -> Y -> A) (g : X -> list Y)
    (l : list X) (a : A) :
  fold_left (fun acc x => fold_left (h x) (g x) acc) l a
  = fold_left (fun acc p => h (fst p) acc (snd p))
              (flat_map (fun x => map (pair x) (g x)) l) a.
Proof.
  revert a. induction l as [|x l IH]; intros a; [reflexivity|].
  cbn [fold_left flat_map]. rewrite fold_left_app, IH. f_equal.
  generalize (g x) a. intros ys. induction ys as [|y ys IHy]; intros b; [reflexivity|].
  cbn [map fold_left fst snd]. apply IHy.
Qed.

Lemma mapM_rel {X Y} (f : X -> result Y) (P : X -> Y -> Prop) (l : list X) :
  (forall x, In x l -> exists y, f x = Ok y /\ P x y) ->
  exists ys, mapM f l = Ok ys /\ Forall2 P l ys.
Proof.
  induction l as [|x l IH]; intros Hf.
  - exists []. split; [reflexivity|constructor].
  - destruct (Hf x (or_introl eq_refl)) as (y & Hy & HP).
    destruct (IH (fun z Hz => Hf z (or_intror Hz))) as (ys & Hys & HF).
    exists (y :: ys). cbn [mapM]. rewrite Hy, Hys. split; [reflexivity|].
    constructor; assumption.
Qed.

Lemma sle_refl (a : D) : sle a a.
Proof. apply sltb_irrefl. Qed.

Lemma tuple_ltb_true (x b : entry D) : tuple_ltb x b = true -> sle (fst x) (fst b).
Proof.
  unfold tuple_ltb. destruct (seqb (fst x) (fst b)) eqn:E.
  - apply seqb_eq in E. rewrite E. intros _. apply sle_refl.
  - intros Hlt. apply sltb_asym, Hlt.
Qed.

Lemma tuple_ltb_false (x b : entry D) : tuple_ltb x b = false -> sle (fst b) (fst x).
Proof.
  unfold tuple_ltb. destruct (seqb (fst x) (fst b)) eqn:E.
  - apply seqb_eq in E. rewrite E. intros _. apply sle_refl.
  - intros Hlt. exact Hlt.
Qed.

Lemma min_loop (l : list (entry D)) (b0 : entry D) :
  let b := fold_left (fun best y => if tuple_ltb y best then y else best) l b0 in
  (b = b0 \/ In b l) /\ sle (fst b) (fst b0) /\
  forall x, In x l -> sle (fst b) (fst x).
Proof.
  revert b0. induction l as [|y l IH]; intros b0; cbn [fold_left].
  - repeat split; [left; reflexivity|apply sle_refl|intros x []].
  - set (b1 := if tuple_ltb y b0 then y else b0).
    destruct (IH b1) as (H1 & H2 & H3).
    assert (Hb1 : sle (fst b1) (fst b0) /\ sle (fst b1) (fst y) /\ (b1 = b0 \/ b1 = y)).
    { unfold b1. destruct (tuple_ltb y b0) eqn:E.
      - repeat split; [apply tuple_ltb_true, E|apply sle_refl|right; reflexivity].
      - repeat split; [apply sle_refl|apply tuple_ltb_false, E|left; reflexivity]. }
    destruct Hb1 as (Hb0 & Hy & Hor). repeat split.
    + destruct H1 as [H1|H1]; [|right; right; exact H1].
      rewrite H1. destruct Hor as [->| ->]; [left; reflexivity|right; left; reflexivity].
    + eapply sle_trans; eassumption.
    + intros x [<-|Hx]; [eapply sle_trans; eassumption|apply H3, Hx].
Qed.

Lemma py_min_spec (l : list (entry D)) :
  l <> [] ->
  exists b, py_min l = Ok b /\ In b l /\ forall x, In x l -> sle (fst b) (fst x).
Proof.
  destruct l as [|x l]; [congruence|]. intros _.
  destruct (min_loop l x) as (H1 & H2 & H3).
  eexists. split; [reflexivity|]. split.
  - destruct H1 as [->|H1]; [left; reflexivity|right; exact H1].
  - intros z [<-|Hz]; [exact H2|apply H3, Hz].
Qed.

End Dict.

(** ** [get_optimal_tour]: the table holds shortest paths *)

Section DP.

Context {D : Type} `{ScalarLaws D}.
Variable nodes : list (point D).

Local Abbreviation n := (length nodes).
Local Abbreviation d := (all_distances nodes).

(** The distance between cities [j] and [k]. *)
Definition dm (j k : nat) : D :=
  get_2city_distance (nth j nodes (s0, s0)) (nth k nodes (s0, s0)).

(** The length of the path that starts at [j], visits [q] in order
    and ends at [e]. *)
Fixpoint path_cost (e j : nat) (q : list nat) : D :=
  match q with
  | [] => dm j e
  | k :: q' => sadd (dm j k) (path_cost e k q')
  end.

(** An entry for the key [(j, R)] is a shortest path from [j] through
    the cities of [R] back to city 0, with its length. *)
Definition sound (j : nat) (R : list nat) (v : entry D) : Prop :=
  exists q, snd v = j :: q /\ Permutation q R /\ fst v = path_cost 0 j q /\
            forall q', Permutation q' R -> sle (fst v) (path_cost 0 j q').

(** The keys of the table after the sets of size [r] are done. *)
Definition good (r : nat) (k : key) : Prop :=
  increasing (snd k) /\ incl (snd k) (seq 1 (n - 1)) /\ length (snd k) = r /\
  1 <= fst k < n /\ ~ In (fst k) (snd k).

Definition table_inv (r : nat) (A : dict D) : Prop :=
  (forall k v, In (k, v) A -> good r k /\ sound (fst k) (snd k) v) /\
  (forall k, good r k -> has A k).

Lemma all_distances_length : length d = n.
Proof. unfold all_distances. apply length_map. Qed.

Lemma index2_dm (j k : nat) : j < n -> k < n -> index2 d j k = Ok (dm j k).
Proof.
  intros Hj Hk. unfold index2, all_distances.
  rewrite (index_nth _ [] (i := j)) by (rewrite length_map; exact Hj). cbn [bind].
  rewrite (nth_indep _ [] (map (fun y => get_2city_distance (s0, s0) y) nodes))
    by (rewrite length_map; exact Hj).
  rewrite (map_nth (fun x => map (fun y => get_2city_distance x y) nodes) nodes (s0, s0) j).
  rewrite (index_nth _ s0 (i := k)) by (rewrite length_map; exact Hk).
  rewrite (nth_indep _ s0 (get_2city_distance (nth j nodes (s0, s0)) (s0, s0)))
    by (rewrite length_map; exact Hk).
  rewrite (map_nth (fun y => get_2city_distance (nth j nodes (s0, s0)) y) nodes (s0, s0) k).
  reflexivity.
Qed.

Lemma fold_dict_set_pure {X} (key_of : X -> key) (val : X -> entry D)
    (xs : list X) (B0 : dict D) :
  fold_left (fun acc x => B <- acc ;; Ok (dict_set B (key_of x) (val x))) xs (Ok B0)
  = Ok (fold_left (fun B x => dict_set B (key_of x) (val x)) xs B0).
Proof.
  revert B0. induction xs as [|x xs IH]; intros B0; [reflexivity|].
  cbn [fold_left bind]. apply IH.
Qed.

Lemma combine_map_r {X Y} (g : X -> Y) (l : list X) :
  combine l (map g l) = map (fun x => (x, g x)) l.
Proof. induction l as [|x l IH]; simpl; [reflexivity|]. f_equal. exact IH. Qed.

Lemma init_table_inv :
  1 <= n -> exists A0, init_table d = Ok A0 /\ table_inv 0 A0.
Proof.
  intros Hn. unfold all_distances.
  destruct nodes as [|p0 ps] eqn:En; [simpl in Hn; lia|].
  cbn [map init_table].
  erewrite (mapM_ok _ (fun row => nth 0 row s0)).
  2:{ intros row Hrow. apply in_map_iff in Hrow. destruct Hrow as (x & <- & _).
      reflexivity. }
  cbn [bind]. rewrite !length_map, map_map. cbn [nth].
  assert (Ecol : map (fun x => get_2city_distance x p0) ps
                 = map (fun i => dm i 0) (seq 1 (length ps))).
  { rewrite <- seq_shift, map_map.
    rewrite <- (map_nth_seq (fun x => get_2city_distance x p0) ps (s0, s0)).
    apply map_ext. intros i. unfold dm. rewrite En. reflexivity. }
  rewrite Ecol, combine_map_r.
  pose proof (dict_fold (X := nat)
                (fun acc x => B <- acc ;; Ok (dict_set B (x, []) (dm x 0, [x])))
                (fun x => (x, []))
                (fun k v => good 0 k /\ sound (fst k) (snd k) v)
                (seq 1 (length ps))) as Hfold.
  destruct (Hfold) with (B0 := @nil (key * entry D)) as (A0 & HA0 & HQ & Hhas).
  - intros x B Hx. apply in_seq in Hx. exists (dm x 0, [x]). split; [reflexivity|].
    split.
    + unfold good. rewrite En. cbn [fst snd length].
      repeat split; try lia; [constructor|apply incl_nil_l|intros []].
    + exists []. cbn [fst snd]. repeat split; [constructor|].
      intros q' Hq'. apply Permutation_sym, Permutation_nil in Hq'. subst q'.
      apply sle_refl.
  - intros k v [].
  - rewrite fold_dict_set_pure in HA0. injection HA0 as HA0.
    exists A0. split.
    + f_equal. rewrite <- HA0. rewrite fold_left_through_map. reflexivity.
    + split; [exact HQ|]. intros [j R] (H1 & H2 & H3 & H4 & H5).
      cbn [fst snd] in *. apply Hhas. right.
      destruct R; [|discriminate]. apply in_map_iff. exists j.
      split; [reflexivity|]. apply in_seq. rewrite En in H4.
      cbn [length] in H4. lia.
Qed.

Lemma good_bounds (r : nat) (j k : nat) (R : list nat) :
  good r (j, R) -> In k R -> 1 <= k < n /\ k <> j.
Proof.
  intros (_ & H2 & _ & _ & H5) Hk. cbn [fst snd] in *. split.
  - apply H2, in_seq in Hk. lia.
  - intros ->. contradiction.
Qed.

Lemma good_remove (r : nat) (j k : nat) (R : list nat) :
  good (S r) (j, R) -> In k R -> good r (k, set_remove k R).
Proof.
  intros Hg Hk.
  assert (Hb : 1 <= k < n) by (eapply good_bounds; eassumption).
  destruct Hg as (H1 & H2 & H3 & _ & _). cbn [fst snd] in *.
  repeat split; cbn [fst snd]; try lia.
  - apply set_remove_increasing, H1.
  - intros x Hx. apply set_remove_In in Hx. apply H2, Hx.
  - assert (S (length (set_remove k R)) = length R)
      by (apply set_remove_length; assumption). lia.
  - intros Hin. apply set_remove_In in Hin. destruct Hin as [_ Hne]. congruence.
Qed.

(** What the generator under [min] yields for [k]. *)
Definition extends (j : nat) (R : list nat) (k : nat) (y : entry D) : Prop :=
  exists c q, y = (sadd (dm j k) c, j :: k :: q) /\
              Permutation q (set_remove k R) /\ c = path_cost 0 k q /\
              forall q', Permutation q' (set_remove k R) -> sle c (path_cost 0 k q').

Lemma candidate_ok (r : nat) (A : dict D) (j k : nat) (R : list nat) :
  table_inv r A -> good (S r) (j, R) -> In k R ->
  exists y, candidate d A j R k = Ok y /\ extends j R k y.
Proof.
  intros [HA Hhas] Hg Hk. unfold candidate.
  assert (Hb : 1 <= k < n) by (eapply good_bounds; eassumption).
  assert (Hj : 1 <= j < n) by (destruct Hg as (_ & _ & _ & Hj & _); exact Hj).
  rewrite index2_dm by lia. cbn [bind].
  assert (Hgr : good r (k, set_remove k R)) by (eapply good_remove; eassumption).
  destruct (Hhas _ Hgr) as [v Hv]. rewrite Hv. cbn [bind].
  apply dict_get_In, HA in Hv. destruct Hv as [_ (q & Hq1 & Hq2 & Hq3 & Hq4)].
  cbn [fst snd] in *. eexists. split; [reflexivity|].
  exists (fst v), q. rewrite Hq1. repeat split; assumption.
Qed.

Lemma Forall2_In_l {X Y} (P : X -> Y -> Prop) (l : list X) (ys : list Y) (x : X) :
  Forall2 P l ys -> In x l -> exists y, In y ys /\ P x y.
Proof.
  induction 1 as [|a b l ys Hab HF IH]; intros Hin; [destruct Hin|].
  destruct Hin as [->|Hin]; [exists b; split; [left; reflexivity|exact Hab]|].
  destruct (IH Hin) as (y & Hy & HP). exists y. split; [right; exact Hy|exact HP].
Qed.

Lemma Forall2_In_r {X Y} (P : X -> Y -> Prop) (l : list X) (ys : list Y) (y : Y) :
  Forall2 P l ys -> In y ys -> exists x, In x l /\ P x y.
Proof.
  induction 1 as [|a b l ys Hab HF IH]; intros Hin; [destruct Hin|].
  destruct Hin as [->|Hin]; [exists a; split; [left; reflexivity|exact Hab]|].
  destruct (IH Hin) as (x & Hx & HP). exists x. split; [right; exact Hx|exact HP].
Qed.

(** The entry [fill] stores for a key. *)
Lemma best_ok (r : nat) (A : dict D) (j : nat) (R : list nat) :
  table_inv r A -> good (S r) (j, R) ->
  exists best, (cands <- mapM (candidate d A j R) R ;; py_min cands) = Ok best /\
               sound j R best.
Proof.
  intros HA Hg.
  destruct (mapM_rel (candidate d A j R) (extends j R) R) as (cands & Hc & HF).
  { intros k Hk. eapply candidate_ok; eassumption. }
  rewrite Hc. cbn [bind].
  assert (HR : increasing R /\ length R = S r).
  { destruct Hg as (H1 & _ & H3 & _). split; assumption. }
  destruct HR as [HRi HRl].
  assert (Hne : cands <> []).
  { intros ->. inversion HF as [E|]. subst R. discriminate. }
  destruct (py_min_spec (l := cands) Hne) as (best & Hbest & Hin & Hmin).
  exists best. split; [exact Hbest|].
  destruct (Forall2_In_r best HF Hin) as (k & Hk & c & q & -> & Hq1 & Hq2 & Hq3).
  exists (k :: q). cbn [fst snd path_cost]. repeat split.
  - rewrite (set_remove_Permutation k HRi Hk). apply perm_skip, Hq1.
  - rewrite Hq2. reflexivity.
  - intros q' Hq'. destruct q' as [|k' q''].
    + apply Permutation_length in Hq'. simpl in Hq'. lia.
    + assert (Hk' : In k' R) by (apply (Permutation_in _ Hq'); left; reflexivity).
      assert (Hq'' : Permutation q'' (set_remove k' R)).
      { apply (Permutation_cons_inv (a := k')).
        rewrite Hq'. apply set_remove_Permutation; assumption. }
      destruct (Forall2_In_l k' HF Hk') as (y & Hy & c' & p' & -> & _ & _ & Hmin').
      cbn [path_cost]. eapply sle_trans; [apply (Hmin _ Hy)|].
      cbn [fst]. apply sadd_mono, Hmin', Hq''.
Qed.

Lemma fill_ok (r : nat) (A B : dict D) (S : list nat) (j : nat) :
  table_inv r A -> good (Datatypes.S r) (j, set_remove j S) ->
  exists v, fill d A S (Ok B) j = Ok (dict_set B (j, set_remove j S) v) /\
            good (Datatypes.S r) (j, set_remove j S) /\ sound j (set_remove j S) v.
Proof.
  intros HA Hg. destruct (best_ok HA Hg) as (best & Hbest & Hs).
  exists best. split; [|split; assumption].
  unfold fill. cbn [bind].
  destruct (mapM (candidate d A j (set_remove j S)) (set_remove j S)) as [cands|e];
    cbn [bind] in *; [|discriminate].
  rewrite Hbest. reflexivity.
Qed.

Lemma layer_inv (r : nat) (A : dict D) :
  table_inv r A ->
  exists B, layer d n (Ok A) (r + 2) = Ok B /\ table_inv (S r) B.
Proof.
  intros HA. unfold layer. cbn [bind].
  rewrite (fold_left_nested (fun S acc j => fill d A S acc j) (fun S => S)).
  set (pairs := flat_map (fun S => map (pair S) S) (combinations (seq 1 (n - 1)) (r + 2))).
  assert (Hpairs : forall p, In p pairs <->
            increasing (fst p) /\ incl (fst p) (seq 1 (n - 1)) /\
            length (fst p) = r + 2 /\ In (snd p) (fst p)).
  { intros [S j]. unfold pairs. rewrite in_flat_map. cbn [fst snd]. split.
    - intros (S' & HS' & Hin). apply in_map_iff in Hin.
      destruct Hin as (j' & [= -> ->] & Hj).
      apply (combinations_spec (increasing_seq 1 (n - 1))) in HS'.
      destruct HS' as (H1 & H2 & H3). auto.
    - intros (H1 & H2 & H3 & H4). exists S. split.
      + apply (combinations_spec (increasing_seq 1 (n - 1))). auto.
      + apply in_map. exact H4. }
  assert (Hkey : forall p, In p pairs -> good (S r) (snd p, set_remove (snd p) (fst p))).
  { intros [S j] Hp. apply Hpairs in Hp. cbn [fst snd] in *.
    destruct Hp as (H1 & H2 & H3 & H4). repeat split; cbn [fst snd].
    - apply set_remove_increasing, H1.
    - intros x Hx. apply set_remove_In in Hx. apply H2, Hx.
    - assert (Datatypes.S (length (set_remove j S)) = length S)
        by (apply set_remove_length; assumption). lia.
    - apply H2, in_seq in H4. lia.
    - apply H2, in_seq in H4. lia.
    - intros Hin. apply set_remove_In in Hin. destruct Hin as [_ Hne]. congruence. }
  destruct (dict_fold (fun acc p => fill d A (fst p) acc (snd p))
              (fun p => (snd p, set_remove (snd p) (fst p)))
              (fun k v => good (S r) k /\ sound (fst k) (snd k) v) pairs)
    with (B0 := @nil (key * entry D)) as (B & HB & HQ & Hhas).
  - intros p B Hp. apply fill_ok; [exact HA|apply Hkey, Hp].
  - intros k v [].
  - exists B. split; [exact HB|]. split; [exact HQ|].
    intros [j R] Hg. apply Hhas. right. apply in_map_iff.
    exists (set_add j R, j). destruct Hg as (H1 & H2 & H3 & H4 & H5).
    cbn [fst snd] in *. split.
    + rewrite set_remove_add by exact H5. reflexivity.
    + apply Hpairs. cbn [fst snd]. repeat split.
      * apply set_add_increasing; assumption.
      * intros x Hx. apply set_add_In in Hx. destruct Hx as [->|Hx]; [|apply H2, Hx].
        apply in_seq. lia.
      * rewrite set_add_length. lia.
      * apply set_add_In. left. reflexivity.
Qed.

Lemma layers_inv (A0 : dict D) (t : nat) :
  table_inv 0 A0 ->
  exists A, fold_left (layer d n) (seq 2 t) (Ok A0) = Ok A /\ table_inv t A.
Proof.
  intros H0'. induction t as [|t (A & HA & Hinv)].
  - exists A0. split; [reflexivity|exact H0'].
  - destruct (layer_inv Hinv) as (B & HB & HBinv).
    exists B. rewrite seq_S, fold_left_app, HA. cbn [fold_left].
    replace (2 + t) with (t + 2) by lia. split; assumption.
Qed.

(** The pair [res] of [get_optimal_tour]: a shortest tour among those
    that start at city 0, with its length. *)
Lemma get_optimal_res_spec :
  2 <= n ->
  exists c q, get_optimal_res nodes = Ok (c, 0 :: q) /\
    Permutation q (seq 1 (n - 1)) /\ c = path_cost 0 0 q /\
    forall q', Permutation q' (seq 1 (n - 1)) -> sle c (path_cost 0 0 q').
Proof.
  intros Hn. unfold get_optimal_res.
  destruct init_table_inv as (A0 & HA0 & Hinv0); [lia|].
  rewrite HA0. cbn [bind]. rewrite all_distances_length.
  destruct (layers_inv (n - 2) Hinv0) as (A & HA & [HQ Hhas]).
  rewrite HA. cbn [bind].
  set (g := fun kv : key * entry D =>
              (sadd (dm 0 (fst (fst kv))) (fst (snd kv)), 0 :: snd (snd kv))).
  rewrite (mapM_ok (closing d) g).
  2:{ intros [k v] Hin. destruct (HQ k v Hin) as [(_ & _ & _ & Hk & _) _].
      unfold closing. cbn [fst snd]. rewrite index2_dm by lia. reflexivity. }
  cbn [bind].
  assert (Hkey : forall j, 1 <= j < n -> good (n - 2) (j, set_remove j (seq 1 (n - 1)))).
  { intros j Hj. assert (Hin : In j (seq 1 (n - 1))) by (apply in_seq; lia).
    repeat split; cbn [fst snd]; try lia.
    - apply set_remove_increasing, increasing_seq.
    - intros x Hx. apply set_remove_In in Hx. apply Hx.
    - assert (S (length (set_remove j (seq 1 (n - 1)))) = length (seq 1 (n - 1)))
        by (apply set_remove_length; [apply increasing_seq|exact Hin]).
      rewrite length_seq in *. lia.
    - intros Hx. apply set_remove_In in Hx. destruct Hx as [_ Hne]. congruence. }
  assert (Hne : map g A <> []).
  { destruct (Hhas _ (Hkey 1 ltac:(lia))) as [v Hv]. apply dict_get_In in Hv.
    destruct A; [destruct Hv|discriminate]. }
  destruct (py_min_spec Hne) as (best & Hbest & Hin & Hmin).
  apply in_map_iff in Hin. destruct Hin as ([[j R] v] & <- & Hin).
  destruct (HQ _ _ Hin) as [(H1 & H2 & H3 & H4 & H5) (q & Hq1 & Hq2 & Hq3 & _)].
  cbn [fst snd] in H1, H2, H3, H4, H5, Hq1, Hq2, Hq3.
  exists (sadd (dm 0 j) (fst v)), (j :: q). repeat split.
  - transitivity (Ok (g (j, R, v))); [exact Hbest|].
    unfold g. cbn [fst snd]. rewrite Hq1. reflexivity.
  - rewrite Hq2. apply NoDup_Permutation_bis.
    + constructor; [exact H5|apply increasing_NoDup, H1].
    + rewrite length_seq. cbn [length]. lia.
    + intros x [<-|Hx]; [apply in_seq; lia|apply H2, Hx].
  - cbn [path_cost]. rewrite Hq3. reflexivity.
  - intros q' Hq'. destruct q' as [|j' q''].
    + apply Permutation_length in Hq'. rewrite length_seq in Hq'. simpl in Hq'. lia.
    + assert (Hj' : In j' (seq 1 (n - 1)))
        by (apply (Permutation_in _ Hq'); left; reflexivity).
      pose proof Hj' as Hb. apply in_seq in Hb.
      assert (Hq'' : Permutation q'' (set_remove j' (seq 1 (n - 1)))).
      { apply (Permutation_cons_inv (a := j')). rewrite Hq'.
        apply set_remove_Permutation; [apply increasing_seq|exact Hj']. }
      destruct (Hhas _ (Hkey j' ltac:(lia))) as [v' Hv']. apply dict_get_In in Hv'.
      destruct (HQ _ _ Hv') as [_ (p' & _ & _ & _ & Hmin')]. cbn [fst snd] in Hmin'.
      eapply sle_trans.
      * apply (Hmin (g ((j', set_remove j' (seq 1 (n - 1))), v'))).
        apply in_map. exact Hv'.
      * unfold g. cbn [fst snd path_cost]. apply sadd_mono, Hmin', Hq''.
Qed.

End DP.

(** ** Tour length and paths; rotations of a tour *)

Section Cycle.

Context {D : Type} `{ScalarLaws D}.
Variable nodes : list (point D).

(** The length of the closed tour [t]. *)
Definition cyc (t : list nat) : D :=
  match t with
  | [] => s0
  | a :: q => path_cost nodes a a q
  end.

Lemma visit_cons (a : nat) (q : list nat) :
  visit nodes (a :: q) = nth a nodes (s0, s0) :: visit nodes q.
Proof. reflexivity. Qed.

Lemma chain_cons (x y : point D) (l : list (point D)) :
  chain (x :: y :: l) = get_2city_distance x y :: chain (y :: l).
Proof. reflexivity. Qed.

Lemma last_cons {A} (x y : A) (l : list A) (p : A) :
  last (x :: y :: l) p = last (y :: l) p.
Proof. reflexivity. Qed.

Lemma chain_path (e : nat) (q : list nat) (a : nat) (acc : D) (p : point D) :
  sadd (fold_left sadd (chain (visit nodes (a :: q))) acc)
       (get_2city_distance (last (visit nodes (a :: q)) p) (nth e nodes (s0, s0)))
  = sadd acc (path_cost nodes e a q).
Proof.
  revert a acc. induction q as [|k q IH]; intros a acc; [reflexivity|].
  rewrite (visit_cons a (k :: q)), (visit_cons k q), chain_cons, last_cons.
  rewrite <- (visit_cons k q). cbn [fold_left].
  rewrite IH. cbn [path_cost]. rewrite sadd_assoc. reflexivity.
Qed.

Lemma cyclic_length_cyc (t : list nat) : cyclic_length (visit nodes t) = cyc t.
Proof.
  destruct t as [|a q]; [reflexivity|].
  rewrite visit_cons. cbn [cyclic_length cyc]. unfold torch_sum.
  rewrite <- visit_cons. rewrite chain_path. apply sadd_0_l.
Qed.

Lemma path_cost_snoc (e j : nat) (q : list nat) (a : nat) :
  path_cost nodes e j (q ++ [a]) = sadd (path_cost nodes a j q) (dm nodes a e).
Proof.
  revert j. induction q as [|k q IH]; intros j; [reflexivity|].
  cbn [app path_cost]. rewrite IH, sadd_assoc. reflexivity.
Qed.

Lemma cyc_rotate_one (a : nat) (t : list nat) :
  t <> [] -> cyc (a :: t) = cyc (t ++ [a]).
Proof.
  destruct t as [|b q]; [congruence|]. intros _.
  cbn [cyc app path_cost]. rewrite path_cost_snoc. apply sadd_comm.
Qed.

Lemma cyc_rotate (t1 t2 : list nat) : t2 <> [] -> cyc (t1 ++ t2) = cyc (t2 ++ t1).
Proof.
  revert t2. induction t1 as [|a t1 IH]; intros t2 Hne.
  - rewrite app_nil_r. reflexivity.
  - cbn [app]. rewrite cyc_rotate_one by (destruct t1; [exact Hne|discriminate]).
    rewrite <- app_assoc. rewrite IH by (destruct t2; discriminate).
    rewrite <- app_assoc. reflexivity.
Qed.


Variable self : Env_tsp.

Lemma get_tour_distance_cyc (t : list nat) :
  city_t self = length nodes -> Permutation t (seq 0 (length nodes)) ->
  get_tour_distance self nodes t = Ok (cyc t).
Proof.
  intros Hc Hp. rewrite get_tour_distance_cyclic.
  - rewrite cyclic_length_cyc. reflexivity.
  - intros a Ha. eapply Permutation_seq_bound; eassumption.
  - rewrite (Permutation_length Hp), length_seq. symmetry. exact Hc.
Qed.


End Cycle.

(** ** [get_optimal_tour]: what does not depend on the arithmetic *)

Section Shape.

Context {D : Type} `{Scalar D}.
Variable nodes : list (point D).

Local Abbreviation n := (length nodes).
Local Abbreviation d := (all_distances nodes).













End Shape.

(** ** The optimal tour, in [float32] and in exact arithmetic *)





(** *** The instance of [__main__] *)

Definition main_nodes : list (point R) := [(0, 0); (1, 0); (4, 0); (0, -3)]%R.

(** Its distance matrix. *)
Definition main_dist (j k : nat) : R :=
  match j, k with
  | 0, 1 | 1, 0 => 1
  | 0, 2 | 2, 0 => 4
  | 0, 3 | 3, 0 => 3
  | 1, 2 | 2, 1 => 3
  | 1, 3 | 3, 1 => sqrt 10
  | 2, 3 | 3, 2 => 5
  | _, _ => 0
  end.

Lemma sqrt_of_square (x v : R) : (0 <= v)%R -> (x = v * v)%R -> sqrt x = v.
Proof. intros Hv ->. apply sqrt_square, Hv. Qed.

Lemma dm_main (j k : nat) : j < 4 -> k < 4 -> dm main_nodes j k = main_dist j k.
Proof.
  intros Hj Hk.
  destruct j as [|[|[|[|j]]]]; try lia; destruct k as [|[|[|[|k]]]]; try lia;
    unfold dm, get_2city_distance, main_nodes, main_dist;
    cbn [nth ssqrt sadd smul ssub Scalar_R];
    first [ apply sqrt_of_square; lra | f_equal; lra ].
Qed.

Lemma sqrt_10_bounds : (3.16227 < sqrt 10 < 3.16228)%R.
Proof.
  split.
  - rewrite <- (sqrt_square 3.16227) by lra. apply sqrt_lt_1; lra.
  - rewrite <- (sqrt_square 3.16228) by lra. apply sqrt_lt_1; lra.
Qed.

Lemma perm_123 (q : list nat) :
  Permutation q [1; 2; 3] ->
  q = [1; 2; 3] \/ q = [1; 3; 2] \/ q = [2; 1; 3] \/
  q = [2; 3; 1] \/ q = [3; 1; 2] \/ q = [3; 2; 1].
Proof.
  intros Hp. pose proof (Permutation_length Hp) as Hl.
  destruct q as [|a [|b [|c [|]]]]; try discriminate.
  assert (Hnd : NoDup [a; b; c]).
  { apply (Permutation_NoDup (Permutation_sym Hp)).
    repeat constructor; simpl; intuition lia. }
  assert (Ha : In a [1; 2; 3]) by (apply (Permutation_in _ Hp); simpl; auto).
  assert (Hb : In b [1; 2; 3]) by (apply (Permutation_in _ Hp); simpl; auto).
  assert (Hc : In c [1; 2; 3]) by (apply (Permutation_in _ Hp); simpl; auto).
  inversion Hnd as [|? ? Hna Hnd']. inversion Hnd' as [|? ? Hnb _]. subst.
  simpl in Ha, Hb, Hc, Hna, Hnb.
  destruct Ha as [<-|[<-|[<-|[]]]]; destruct Hb as [<-|[<-|[<-|[]]]];
    destruct Hc as [<-|[<-|[<-|[]]]]; intuition congruence.
Qed.

Lemma main_path_cost (q : list nat) :
  Permutation q [1; 2; 3] ->
  (q = [1; 2; 3] \/ q = [3; 2; 1]) /\ path_cost main_nodes 0 0 q = 12%R \/
  q <> [1; 2; 3] /\ q <> [3; 2; 1] /\ path_cost main_nodes 0 0 q = (10 + sqrt 10)%R.
Proof.
  intros Hp.
  destruct (perm_123 Hp) as [->|[->|[->|[->|[->| ->]]]]];
    cbn [path_cost]; rewrite !dm_main by lia;
    cbn [main_dist sadd Scalar_R];
    first [ left; split; [auto|lra]
          | right; split; [discriminate|split; [discriminate|lra]] ].
Qed.

Lemma main_tour_distance (q : list nat) :
  Permutation q [1; 2; 3] ->
  get_tour_distance {| batch := 1; city_t := 4 |} main_nodes (0 :: q)
  = Ok (path_cost main_nodes 0 0 q).
Proof.
  intros Hp. rewrite get_tour_distance_cyc; [reflexivity|reflexivity|].
  apply (perm_skip 0 Hp).
Qed.

(** C8.  On the instance of [__main__] the optimal length is 12 and
    the tour returned is [0,1,2,3] or [0,3,2,1], both of length 12;
    every other tour from city 0 is strictly longer, of length
    10 + sqrt 10, between 13.1622 and 13.1624. *)
Theorem main_instance_optimal :
  exists tour,
    get_optimal_res main_nodes = Ok (12%R, tour) /\
    get_optimal_tour main_nodes = Ok tour /\
    (tour = [0; 1; 2; 3] \/ tour = [0; 3; 2; 1]) /\
    get_tour_distance {| batch := 1; city_t := 4 |} main_nodes [0; 1; 2; 3] = Ok 12%R /\
    get_tour_distance {| batch := 1; city_t := 4 |} main_nodes [0; 3; 2; 1] = Ok 12%R /\
    forall q, Permutation q [1; 2; 3] -> q <> [1; 2; 3] -> q <> [3; 2; 1] ->
      exists c, get_tour_distance {| batch := 1; city_t := 4 |} main_nodes (0 :: q) = Ok c /\
                (12 < c)%R /\ (13.1622 < c < 13.1624)%R.
Proof.
  destruct (get_optimal_res_spec main_nodes) as (c & q & Hres & Hq & Hcost & Hmin);
    [simpl; lia|].
  change (seq 1 (length main_nodes - 1)) with [1; 2; 3] in *.
  assert (H123 : Permutation [1; 2; 3] [1; 2; 3]) by apply Permutation_refl.
  assert (H321 : Permutation [3; 2; 1] [1; 2; 3]).
  { apply Permutation_sym. exact (Permutation_rev [1; 2; 3]). }
  pose proof sqrt_10_bounds as Hs.
  assert (Hc12 : c = 12%R /\ (q = [1; 2; 3] \/ q = [3; 2; 1])).
  { pose proof (Hmin _ H123) as Hle. apply Rltb_false in Hle.
    destruct (main_path_cost H123) as [[_ E]|(Hne & _)]; [|congruence].
    rewrite E in Hle.
    destruct (main_path_cost Hq) as [[Hor E']|(_ & _ & E')].
    - split; [congruence|exact Hor].
    - rewrite <- Hcost in E'. lra. }
  destruct Hc12 as [-> Hor]. exists (0 :: q). repeat split.
  - exact Hres.
  - unfold get_optimal_tour. rewrite Hres. reflexivity.
  - destruct Hor as [-> | ->]; [left|right]; reflexivity.
  - rewrite main_tour_distance by exact H123.
    destruct (main_path_cost H123) as [[_ E]|(Hne & _)]; congruence.
  - rewrite main_tour_distance by exact H321.
    destruct (main_path_cost H321) as [[_ E]|(_ & Hne & _)]; congruence.
  - intros q' Hq' Hn1 Hn2. exists (path_cost main_nodes 0 0 q').
    split; [apply main_tour_distance, Hq'|].
    destruct (main_path_cost Hq') as [[[E|E] _]|(_ & _ & E)]; try contradiction.
    rewrite E. lra.
Qed.

Lemma main_instance_optimal_witness :
  exists c, get_tour_distance {| batch := 1; city_t := 4 |} main_nodes [0; 1; 3; 2] = Ok c /\
            (12 < c)%R /\ (13.1622 < c < 13.1624)%R.
Proof.
  destruct main_instance_optimal as (tour & _ & _ & _ & _ & _ & Hother).
  apply (Hother [1; 3; 2]).
  - apply perm_skip, perm_swap.
  - discriminate.
  - discriminate.
Defined.

(** ** The decoder of [actor.py] *)

Module ActorFacts.

Import Actor.
Local Open Scope R_scope.

(** *** [tanh] and [sigmoid] *)

Lemma tanh_alt (x : R) : tanh x = 1 - 2 / (exp x * exp x + 1).
Proof.
  unfold tanh, sinh, cosh. rewrite exp_Ropp.
  pose proof (exp_pos x). field. split; nra.
Qed.

Lemma tanh_bounds (x : R) : -1 < tanh x < 1.
Proof.
  rewrite tanh_alt. pose proof (exp_pos x) as He.
  assert (Hd : 0 < exp x * exp x + 1) by nra.
  assert (H2 : 0 < 2 / (exp x * exp x + 1) < 2).
  { split.
    - apply Rdiv_lt_0_compat; lra.
    - apply (Rmult_lt_reg_r (exp x * exp x + 1)); [exact Hd|].
      unfold Rdiv. rewrite Rmult_assoc, Rinv_l by lra. nra. }
  lra.
Qed.

Lemma tanh_0 : tanh 0 = 0.
Proof. rewrite tanh_alt, exp_0. lra. Qed.

Lemma tanh_lower (a y : R) : 0 <= a -> a <= y -> a / (1 + a) <= tanh y.
Proof.
  intros Ha Hy. rewrite tanh_alt.
  assert (He : 1 + 2 * y <= exp y * exp y).
  { rewrite <- exp_plus. replace (y + y) with (2 * y) by ring. apply exp_ineq1_le. }
  assert (Hd : 0 < exp y * exp y + 1) by nra.
  apply (Rmult_le_reg_r ((1 + a) * (exp y * exp y + 1))); [nra|].
  replace (a / (1 + a) * ((1 + a) * (exp y * exp y + 1)))
    with (a * (exp y * exp y + 1)) by (field; lra).
  replace ((1 - 2 / (exp y * exp y + 1)) * ((1 + a) * (exp y * exp y + 1)))
    with ((exp y * exp y - 1) * (1 + a)) by (field; lra).
  nra.
Qed.

Lemma sigmoid_0 : sigmoid 0 = 1 / 2.
Proof. unfold sigmoid. rewrite Ropp_0, exp_0. lra. Qed.

Lemma mmap_mmap (f g : R -> R) (M : mat) :
  mmap f (mmap g M) = mmap (fun x => f (g x)) M.
Proof. unfold mmap. rewrite map_map. apply map_ext. intros row. apply map_map. Qed.

Lemma combine_nth_lt {A B} (l : list A) (l' : list B) (k : nat) (a : A) (b : B) :
  (k < length l)%nat -> (k < length l')%nat ->
  nth k (combine l l') (a, b) = (nth k l a, nth k l' b).
Proof.
  revert l' k. induction l as [|x l IH]; intros l' k Hl Hl'; [simpl in Hl; lia|].
  destruct l' as [|y l']; [simpl in Hl'; lia|].
  destruct k as [|k]; [reflexivity|]. simpl. apply IH; simpl in *; lia.
Qed.

(** *** [argmax] *)

Lemma argmax_lt (l : vec) : l <> [] -> (argmax l < length l)%nat.
Proof.
  induction l as [|x l IH]; intros Hne; [congruence|].
  destruct l as [|y l]; [simpl; lia|].
  change (argmax (x :: y :: l))
    with (if Rle_dec (nth (argmax (y :: l)) (y :: l) 0) x then 0%nat
          else S (argmax (y :: l))).
  destruct (Rle_dec _ x); [simpl; lia|].
  assert (argmax (y :: l) < length (y :: l))%nat by (apply IH; discriminate).
  simpl in *. lia.
Qed.

Lemma argmax_max (l : vec) (j : nat) :
  (j < length l)%nat -> nth j l 0 <= nth (argmax l) l 0.
Proof.
  revert j. induction l as [|x l IH]; intros j Hj; [simpl in Hj; lia|].
  destruct l as [|y l].
  - destruct j; [simpl; lra|simpl in Hj; lia].
  - change (argmax (x :: y :: l))
      with (if Rle_dec (nth (argmax (y :: l)) (y :: l) 0) x then 0%nat
            else S (argmax (y :: l))).
    destruct (Rle_dec _ x) as [Hle|Hgt].
    + destruct j as [|j]; [simpl; lra|].
      change (nth j (y :: l) 0 <= x).
      eapply Rle_trans; [apply IH; simpl in *; lia|exact Hle].
    + destruct j as [|j].
      * change (x <= nth (argmax (y :: l)) (y :: l) 0). lra.
      * change (nth j (y :: l) 0 <= nth (argmax (y :: l)) (y :: l) 0).
        apply IH. simpl in *. lia.
Qed.

Lemma argmax_shift (c : R) (l : vec) :
  argmax (map (fun x => x - c) l) = argmax l.
Proof.
  induction l as [|x l IH]; [reflexivity|].
  destruct l as [|y l]; [reflexivity|].
  change (argmax (x :: y :: l))
    with (if Rle_dec (nth (argmax (y :: l)) (y :: l) 0) x then 0%nat
          else S (argmax (y :: l))).
  change (argmax (map (fun x => x - c) (x :: y :: l)))
    with (if Rle_dec (nth (argmax (map (fun x => x - c) (y :: l)))
                          (map (fun x => x - c) (y :: l)) 0) (x - c)
          then 0%nat else S (argmax (map (fun x => x - c) (y :: l)))).
  rewrite IH.
  rewrite (nth_indep _ 0 (0 - c))
    by (rewrite length_map; apply argmax_lt; discriminate).
  rewrite (map_nth (fun x => x - c) (y :: l) 0).
  destruct (Rle_dec _ x); destruct (Rle_dec _ (x - c)); try reflexivity; lra.
Qed.

Lemma Greedy_log_softmax (u : vec) : Greedy (log_softmax u) = argmax u.
Proof. unfold Greedy, log_softmax. apply argmax_shift. Qed.

(** *** The pointer logits *)

Section Pointer.

Variable self : PtrNet1.

(** The logits of [pointer] before the mask is subtracted. *)
Definition raw_logits (query : vec) (ref : mat) : vec :=
  let n := length ref in
  let u1 := repeat_last (linear (W_q2 self) query) n in
  let u2 := conv1d (W_ref2 self) n (permute (hidden self) ref) in
  bmm_row (Vec2 self) n
    (mmap (fun x => clip_logits self * x) (mmap tanh (madd u1 u2))).

Lemma pointer_raw (query : vec) (ref : mat) (mask : vec) :
  pointer self query ref mask = penalize (raw_logits query ref) mask.
Proof. reflexivity. Qed.

Lemma raw_logits_length (query : vec) (ref : mat) :
  length (raw_logits query ref) = length ref.
Proof. unfold raw_logits, bmm_row. rewrite length_map, length_seq. reflexivity. Qed.

Lemma penalize_length (u mask : vec) :
  length u = length mask -> length (penalize u mask) = length u.
Proof.
  intros Hl. unfold penalize. rewrite length_map, length_combine. lia.
Qed.

Lemma penalize_nth (u mask : vec) (k : nat) :
  (k < length u)%nat -> (k < length mask)%nat ->
  nth k (penalize u mask) 0 = nth k u 0 - inf * nth k mask 0.
Proof.
  intros Hu Hm. unfold penalize.
  rewrite (nth_indep _ 0 ((fun um => fst um - inf * snd um) (0, 0)))
    by (rewrite length_map, length_combine; lia).
  rewrite (map_nth (fun um => fst um - inf * snd um) (combine u mask) (0, 0) k).
  rewrite combine_nth_lt by lia. reflexivity.
Qed.

(** What the specification says of the pointer step: the sum of the
    two projections is scaled by the clip constant before the [tanh]. *)
Definition pointer_scaled_before_tanh (query : vec) (ref : mat) (mask : vec) : vec :=
  let n := length ref in
  let u1 := repeat_last (linear (W_q2 self) query) n in
  let u2 := conv1d (W_ref2 self) n (permute (hidden self) ref) in
  penalize
    (bmm_row (Vec2 self) n
       (mmap tanh (mmap (fun x => clip_logits self * x) (madd u1 u2))))
    mask.

Lemma vadd_combine (a b : vec) :
  vadd a b = map (fun xy => fst xy + snd xy) (combine a b).
Proof.
  revert b. induction a as [|x a IH]; intros b; [reflexivity|].
  destruct b as [|y b]; [reflexivity|]. simpl. f_equal. apply IH.
Qed.

Lemma vadd_nth (a b : vec) (k : nat) :
  (k < length a)%nat -> (k < length b)%nat ->
  nth k (vadd a b) 0 = nth k a 0 + nth k b 0.
Proof.
  revert b k. induction a as [|x a IH]; intros b k Ha Hb; [simpl in Ha; lia|].
  destruct b as [|y b]; [simpl in Hb; lia|].
  destruct k as [|k]; [reflexivity|]. simpl. apply IH; simpl in *; lia.
Qed.

Lemma vadd_length (a b : vec) : length (vadd a b) = Nat.min (length a) (length b).
Proof. rewrite vadd_combine, length_map, length_combine. reflexivity. Qed.

Lemma col_mmap (f : R -> R) (k : nat) (M : mat) :
  f 0 = 0 -> col k (mmap f M) = map f (col k M).
Proof.
  intros Hf. unfold col, mmap. rewrite !map_map. apply map_ext. intros row.
  rewrite <- Hf at 1. apply map_nth.
Qed.

Lemma col_madd (k : nat) (A B : mat) :
  Forall (fun row => (k < length row)%nat) A ->
  Forall (fun row => (k < length row)%nat) B ->
  col k (madd A B) = vadd (col k A) (col k B).
Proof.
  revert B. induction A as [|a A IH]; intros B HA HB; [reflexivity|].
  destruct B as [|b B]; [reflexivity|].
  inversion HA; inversion HB; subst.
  change (nth k (vadd a b) 0 :: col k (madd A B)
          = (nth k a 0 + nth k b 0) :: vadd (col k A) (col k B)).
  rewrite vadd_nth by assumption. f_equal. apply IH; assumption.
Qed.

Lemma col_repeat_last (v : vec) (n k : nat) :
  (k < n)%nat -> col k (repeat_last v n) = v.
Proof.
  intros Hk. unfold col, repeat_last. rewrite map_map.
  rewrite <- (map_id v) at 2. apply map_ext. intros x.
  apply nth_repeat_lt. exact Hk.
Qed.

Lemma col_permute (h k : nat) (ref : mat) :
  length (nth k ref []) = h -> col k (permute h ref) = nth k ref [].
Proof.
  intros Hl. unfold col, permute. rewrite map_map. subst h.
  transitivity (map (fun i => nth i (nth k ref []) 0) (seq 0 (length (nth k ref [])))).
  - apply map_ext. intros i.
    destruct (Nat.lt_ge_cases k (length ref)) as [Hk|Hk].
    + rewrite (nth_indep (map (fun row => nth i row 0) ref) 0 (nth i [] 0))
        by (rewrite length_map; exact Hk).
      apply (map_nth (fun row => nth i row 0)).
    + rewrite (nth_overflow (map (fun row => nth i row 0) ref))
        by (rewrite length_map; exact Hk).
      rewrite (nth_overflow ref) by exact Hk.
      destruct i; reflexivity.
  - rewrite (map_nth_seq (fun x => x)). apply map_id.
Qed.

Lemma col_conv1d (L : Linear) (n k : nat) (X : mat) :
  (k < n)%nat -> col k (conv1d L n X) = linear L (col k X).
Proof.
  intros Hk. unfold col at 1, conv1d, linear, matvec. rewrite map_map.
  rewrite vadd_combine.
  generalize (l_weight L) (l_bias L). intros W b. revert b.
  induction W as [|w W IH]; intros b; [reflexivity|].
  destruct b as [|b0 b]; [reflexivity|]. cbn [combine map fst snd]. f_equal.
  - rewrite (nth_indep _ 0 (dot w (col 0 X) + b0))
      by (rewrite length_map, length_seq; exact Hk).
    rewrite (map_nth (fun k' => dot w (col k' X) + b0) (seq 0 n) 0%nat k).
    rewrite seq_nth by exact Hk. reflexivity.
  - apply IH.
Qed.

(** C4, as the code has it.  It is the output of the [tanh] that is
    multiplied by the clip constant: the logit of city [k] is the
    product of [Vec2] with [clip_logits * tanh (W_q2 query + W_ref2 ref_k)],
    minus [inf] times the mask of [k]. *)
Theorem pointer_clips_after_tanh (query : vec) (ref : mat) (mask : vec) (k : nat) :
  (k < length ref)%nat -> length mask = length ref ->
  length (nth k ref []) = hidden self ->
  nth k (pointer self query ref mask) 0
  = dot (Vec2 self)
        (map (fun z => clip_logits self * tanh z)
             (vadd (linear (W_q2 self) query) (linear (W_ref2 self) (nth k ref []))))
    - inf * nth k mask 0.
Proof.
  intros Hk Hm Hh. rewrite pointer_raw.
  rewrite penalize_nth by (rewrite ?raw_logits_length; lia). f_equal.
  unfold raw_logits, bmm_row.
  rewrite (nth_indep _ 0 (dot (Vec2 self) (col 0
             (mmap (fun x => clip_logits self * x)
                (mmap tanh (madd (repeat_last (linear (W_q2 self) query) (length ref))
                   (conv1d (W_ref2 self) (length ref) (permute (hidden self) ref))))))))
    by (rewrite length_map, length_seq; exact Hk).
  rewrite (map_nth (fun k' => dot (Vec2 self) (col k' _)) (seq 0 (length ref)) 0%nat k).
  rewrite seq_nth by exact Hk. cbn [Nat.add]. f_equal.
  rewrite mmap_mmap, col_mmap by (rewrite tanh_0; ring).
  rewrite col_madd.
  - rewrite col_repeat_last by exact Hk.
    rewrite col_conv1d by exact Hk.
    rewrite col_permute by exact Hh. reflexivity.
  - unfold repeat_last. apply Forall_map, Forall_forall. intros x _.
    rewrite repeat_length. exact Hk.
  - unfold conv1d. apply Forall_map, Forall_forall. intros x _.
    rewrite length_map, length_seq. exact Hk.
Qed.

End Pointer.

(** Parameters with one hidden unit, and the clip constant 10. *)
Definition zero_lstm : LSTM :=
  {| w_ih := [[0]; [0]; [0]; [0]]; w_hh := [[0]; [0]; [0]; [0]];
     b_ih := [0; 0; 0; 0]; b_hh := [0; 0; 0; 0] |}.

Definition clip_net : PtrNet1 :=
  {| embed := 1; hidden := 1; Embedding := [[1; 0]];
     Encoder := zero_lstm; Decoder := zero_lstm;
     Vec := [0]; Vec2 := [1];
     W_q := {| l_weight := [[0]]; l_bias := [0] |};
     W_ref := {| l_weight := [[0]]; l_bias := [0] |};
     W_q2 := {| l_weight := [[0]]; l_bias := [0] |};
     W_ref2 := {| l_weight := [[1]]; l_bias := [0] |};
     dec_input := [0]; clip_logits := 10; softmax_T := 1;
     n_glimpse := 1; city_selecter := greedy |}.

Lemma scaling_differs (z : R) :
  z = 1 -> 10 * tanh z <> tanh (10 * z).
Proof.
  intros ->. pose proof (tanh_bounds (10 * 1)) as [_ Hlt].
  pose proof (tanh_lower (a := 1) (y := 1)) as Hge. lra.
Qed.

(** C4, counterexample.  With one hidden unit, [Vec2 = [1]],
    [W_ref2] the identity and clip constant 10, the logit of a city
    whose memory vector is [[1]] is [10 * tanh 1 > 5], not
    [tanh 10 < 1]. *)
Lemma pointer_not_scaled_before_tanh :
  pointer clip_net [0] [[1]] [0] <> pointer_scaled_before_tanh clip_net [0] [[1]] [0].
Proof.
  unfold pointer, pointer_scaled_before_tanh, penalize, bmm_row, mmap, madd,
    repeat_last, conv1d, permute, linear, matvec, col, dot, rsum, clip_net.
  cbn [map combine seq length vadd vmul fold_right nth repeat fst snd
       hidden W_q2 W_ref2 Vec2 clip_logits l_weight l_bias].
  intros [= Heq]. revert Heq.
  match goal with
  | |- context [tanh (10 * ?z)] =>
      pose proof (@scaling_differs z ltac:(ring)) as Hne
  end.
  intros Heq. apply Hne. lra.
Qed.

Lemma pointer_clips_after_tanh_witness :
  nth 0 (pointer clip_net [0] [[1]] [0]) 0
  = dot [1] (map (fun z => 10 * tanh z)
               (vadd (linear {| l_weight := [[0]]; l_bias := [0] |} [0])
                     (linear {| l_weight := [[1]]; l_bias := [0] |} [1])))
    - inf * 0.
Proof.
  apply (pointer_clips_after_tanh clip_net [0] [[1]] [0] (k := 0)); simpl; lia.
Defined.

(** *** The decoding loop *)

Section Decode.

Variable self : PtrNet1.
Variable x : list (R * R).

Local Abbreviation N := (length x).

Definition emb : mat := map (fun p => matvec (Embedding self) [fst p; snd p]) x.

Definition enc : list vec * (vec * vec) :=
  lstm (hidden self) (Encoder self) emb (zeros (hidden self), zeros (hidden self)).

Definition start : loop_state :=
  {| st_hc := snd enc; st_dec_input := dec_input self;
     st_mask := zeros N; st_pi := []; st_log_ps := [] |}.

(** The query of a round: the decoder state after the glimpses. *)
Definition query_of (st : loop_state) : vec :=
  Nat.iter (n_glimpse self)
    (fun q => glimpse self q (fst enc) (st_mask st))
    (fst (lstm_cell (hidden self) (Decoder self) (st_dec_input st) (st_hc st))).

(** The city a round selects. *)
Definition chosen (st : loop_state) (u : R) : nat :=
  let log_p := log_softmax (pointer self (query_of st) (fst enc) (st_mask st)) in
  match city_selecter self with
  | greedy => Greedy log_p
  | sampling => Categorical u log_p
  end.

Lemma decode_fold (us : list R) :
  decode self x us = fold_left (step self emb (fst enc)) us start.
Proof.
  unfold decode, start, enc. fold emb.
  destruct (lstm (hidden self) (Encoder self) emb _) as [enc_h hc]. reflexivity.
Qed.

Lemma decode_snoc (us : list R) (u : R) :
  decode self x (us ++ [u]) = step self emb (fst enc) (decode self x us) u.
Proof. rewrite !decode_fold, fold_left_app. reflexivity. Qed.

Lemma step_pi (st : loop_state) (u : R) :
  st_pi (step self emb (fst enc) st u) = st_pi st ++ [chosen st u].
Proof. reflexivity. Qed.

Lemma step_mask (st : loop_state) (u : R) :
  st_mask (step self emb (fst enc) st u)
  = vadd (st_mask st) (scatter (length (fst enc)) (chosen st u)).
Proof. reflexivity. Qed.

Lemma lstm_length (h : nat) (P : LSTM) (xs : list vec) (hc : vec * vec) :
  length (fst (lstm h P xs hc)) = length xs.
Proof.
  revert hc. induction xs as [|e xs IH]; intros hc; [reflexivity|].
  cbn [lstm]. specialize (IH (lstm_cell h P e hc)).
  destruct (lstm h P xs (lstm_cell h P e hc)) as [out last].
  cbn [fst length] in *. f_equal. exact IH.
Qed.

Lemma enc_length : length (fst enc) = N.
Proof. unfold enc. rewrite lstm_length. unfold emb. apply length_map. Qed.

Lemma scatter_nth (n j k : nat) :
  (k < n)%nat -> nth k (scatter n j) 0 = if (k =? j)%nat then 1 else 0.
Proof.
  intros Hk. unfold scatter.
  rewrite (nth_indep _ 0 ((fun k => if (k =? j)%nat then 1 else 0) 0%nat))
    by (rewrite length_map, length_seq; exact Hk).
  rewrite (map_nth (fun k => if (k =? j)%nat then 1 else 0) (seq 0 n) 0%nat k).
  rewrite seq_nth by exact Hk. reflexivity.
Qed.

Lemma scatter_length (n j : nat) : length (scatter n j) = n.
Proof. unfold scatter. rewrite length_map, length_seq. reflexivity. Qed.

(** Whatever the parameters and the policy, the mask counts how often
    each city has been selected. *)
Lemma mask_counts (us : list R) :
  length (st_mask (decode self x us)) = N /\
  length (st_pi (decode self x us)) = length us /\
  forall k, (k < N)%nat ->
    nth k (st_mask (decode self x us)) 0
    = INR (count_occ Nat.eq_dec (st_pi (decode self x us)) k).
Proof.
  induction us as [|u us (IH1 & IH2 & IH3)] using rev_ind.
  - rewrite decode_fold. cbn [fold_left start st_mask st_pi]. unfold zeros.
    rewrite repeat_length. repeat split. intros k Hk.
    rewrite nth_repeat_lt by exact Hk. reflexivity.
  - rewrite decode_snoc, step_mask, step_pi, enc_length.
    rewrite vadd_length, scatter_length, IH1, !length_app, IH2.
    repeat split; [lia|].
    intros k Hk. rewrite vadd_nth by (rewrite ?scatter_length; lia).
    rewrite IH3, scatter_nth by exact Hk.
    rewrite count_occ_app, plus_INR. f_equal. cbn [count_occ].
    destruct (Nat.eq_dec (chosen (decode self x us) u) k) as [->|Hne].
    + rewrite Nat.eqb_refl. reflexivity.
    + destruct (Nat.eqb_spec k (chosen (decode self x us) u)); [congruence|reflexivity].
Qed.





Section Greedy.

Hypothesis Hgreedy : city_selecter self = greedy.

Lemma chosen_greedy (st : loop_state) (u : R) :
  chosen st u
  = argmax (penalize (raw_logits self (query_of st) (fst enc)) (st_mask st)).
Proof.
  unfold chosen. rewrite Hgreedy, Greedy_log_softmax, pointer_raw. reflexivity.
Qed.

End Greedy.

End Decode.

(** *** A network whose clipped logits outweigh the mask penalty *)

Definition zero_linear : Linear := {| l_weight := [[0]]; l_bias := [0] |}.

(** One hidden unit; the encoder feeds its input to the cell gate only;
    the pointer reads the memory through [W_ref2 = 1], [Vec2 = [-1]]
    and the clip constant [1e10], a hundred times the penalty [inf]. *)
Definition loud_net : PtrNet1 :=
  {| embed := 1; hidden := 1; Embedding := [[1; 0]];
     Encoder := {| w_ih := [[0]; [0]; [1]; [0]]; w_hh := [[0]; [0]; [0]; [0]];
                   b_ih := [0; 0; 0; 0]; b_hh := [0; 0; 0; 0] |};
     Decoder := zero_lstm;
     Vec := [0]; Vec2 := [-1];
     W_q := zero_linear; W_ref := zero_linear; W_q2 := zero_linear;
     W_ref2 := {| l_weight := [[1]]; l_bias := [0] |};
     dec_input := [0]; clip_logits := 10000000000; softmax_T := 1;
     n_glimpse := 1; city_selecter := greedy |}.

Definition two_cities : list (R * R) := [(0, 0); (1, 0)].

Lemma linear_zero (q : vec) : linear zero_linear q = [0].
Proof.
  unfold linear, zero_linear, matvec, dot, rsum.
  cbn [l_weight l_bias map vadd]. f_equal.
  destruct q as [|h q]; cbn [vmul fold_right]; ring.
Qed.

Lemma argmax_pair (a b : R) : b <= a -> argmax [a; b] = 0%nat.
Proof.
  intros Hle. cbn [argmax nth]. destruct (Rle_dec b a); [reflexivity|contradiction].
Qed.

Lemma loud_cell (e h c : R) :
  lstm_cell 1 (Encoder loud_net) [e] ([h], [c])
  = ([1 / 2 * tanh (1 / 2 * c + 1 / 2 * tanh e)], [1 / 2 * c + 1 / 2 * tanh e]).
Proof.
  unfold lstm_cell, matvec, dot, rsum.
  cbn [loud_net Encoder w_ih w_hh b_ih b_hh map vadd vmul fold_right
       firstn skipn Nat.mul Nat.add].
  replace (0 * e + 0 + 0 + (0 * h + 0 + 0)) with 0 by ring.
  replace (1 * e + 0 + 0 + (0 * h + 0 + 0)) with e by ring.
  rewrite sigmoid_0. reflexivity.
Qed.

(** The memory of the two cities: the first vector is [0], the second
    has a [tanh] of at least [1/100]. *)
Lemma loud_enc :
  exists r0 r1, fst (enc loud_net two_cities) = [[r0]; [r1]] /\
    tanh r0 = 0 /\ 1 / 100 <= tanh r1.
Proof.
  unfold enc, emb, two_cities, zeros, matvec, dot, rsum.
  cbn [map fst snd vmul fold_right hidden Embedding loud_net repeat lstm].
  change (Encoder _) with (Encoder loud_net).
  rewrite !loud_cell. cbn [fst snd].
  eexists. eexists. split; [reflexivity|].
  replace (1 * 0 + (0 * 0 + 0)) with 0 by ring.
  replace (1 * 1 + (0 * 0 + 0)) with 1 by ring.
  rewrite tanh_0.
  replace (1 / 2 * 0 + 1 / 2 * 0) with 0 by ring.
  rewrite tanh_0.
  replace (1 / 2 * 0) with 0 by ring.
  replace (0 + 1 / 2 * tanh 1) with (1 / 2 * tanh 1) by ring.
  split; [apply tanh_0|].
  pose proof (@tanh_lower 1 1 ltac:(lra) ltac:(lra)) as H1.
  pose proof (@tanh_lower (1 / 4) (1 / 2 * tanh 1) ltac:(lra) ltac:(lra)) as H2.
  pose proof (@tanh_lower (1 / 10) (1 / 2 * tanh (1 / 2 * tanh 1))
                ltac:(lra) ltac:(lra)) as H3.
  lra.
Qed.

Lemma loud_pointer (q : vec) (r0 r1 m0 m1 : R) :
  pointer loud_net q [[r0]; [r1]] [m0; m1]
  = [- (10000000000 * tanh r0) - inf * m0; - (10000000000 * tanh r1) - inf * m1].
Proof.
  unfold pointer. change (W_q2 loud_net) with zero_linear. rewrite linear_zero.
  unfold penalize, bmm_row, mmap, madd, repeat_last, conv1d, permute, col, dot, rsum.
  cbn [map combine seq length vadd vmul fold_right nth repeat fst snd
       hidden W_ref2 Vec2 clip_logits l_weight l_bias loud_net].
  replace (0 + (1 * r0 + 0 + 0)) with r0 by ring.
  replace (0 + (1 * r1 + 0 + 0)) with r1 by ring.
  f_equal; [ring|f_equal; ring].
Qed.

(** While the second city is unvisited and the first has been selected
    at most once, the greedy round selects the first city. *)
Lemma loud_chosen (st : loop_state) (u m0 m1 : R) :
  st_mask st = [m0; m1] -> 0 <= m0 <= 1 -> m1 = 0 ->
  chosen loud_net two_cities st u = 0%nat.
Proof.
  intros Hmask Hm0 Hm1. unfold chosen. cbn [city_selecter loud_net].
  rewrite Greedy_log_softmax, Hmask.
  destruct loud_enc as (r0 & r1 & -> & H0 & H1).
  rewrite loud_pointer, H0. apply argmax_pair. unfold inf. lra.
Qed.

Lemma loud_pi :
  st_pi (decode loud_net two_cities [0; 0]) = [0; 0]%nat /\
  st_mask (decode loud_net two_cities [0; 0]) = [0 + 1 + 1; 0 + 0 + 0].
Proof.
  assert (H0 : st_pi (decode loud_net two_cities []) = [] /\
               st_mask (decode loud_net two_cities []) = [0; 0]).
  { rewrite decode_fold. split; reflexivity. }
  destruct H0 as [Hp0 Hm0].
  assert (H1 : st_pi (decode loud_net two_cities [0]) = [0%nat] /\
               st_mask (decode loud_net two_cities [0]) = [0 + 1; 0 + 0]).
  { change [0] with ([] ++ [0]). rewrite decode_snoc, step_pi, step_mask.
    rewrite (@loud_chosen _ 0 _ _ Hm0) by lra.
    rewrite Hp0, Hm0, enc_length. split; reflexivity. }
  destruct H1 as [Hp1 Hm1].
  change [0; 0] with ([0] ++ [0]). rewrite decode_snoc, step_pi, step_mask.
  rewrite (@loud_chosen _ 0 _ _ Hm1) by lra.
  rewrite Hp1, Hm1, enc_length. split; reflexivity.
Qed.

(** C3, failing input.  With the clip constant [1e10] the logit of the
    second city stays below that of the first even after the first has
    been penalised by [inf]: greedy decoding of two cities returns the
    tour [[0; 0]], which repeats city 0 and never visits city 1. *)
Lemma forward_repeats_city :
  fst (forward loud_net two_cities []) = [0; 0]%nat /\
  ~ Permutation (fst (forward loud_net two_cities [])) (seq 0 (length two_cities)).
Proof.
  assert (Hpi : fst (forward loud_net two_cities []) = [0; 0]%nat).
  { unfold forward. cbn [fst two_cities length app repeat firstn].
    apply loud_pi. }
  split; [exact Hpi|]. rewrite Hpi. cbn [two_cities length seq]. intros HP.
  apply Permutation_sym in HP.
  assert (Hin : In 1%nat [0; 0]%nat)
    by (apply (Permutation_in _ HP); right; left; reflexivity).
  destruct Hin as [E|[E|[]]]; discriminate E.
Qed.



End ActorFacts.

(** * Further properties *)

(** ** Further properties of [env.py] *)

(** *** [get_2city_distance] is a metric *)

Section Metric.

Local Open Scope R_scope.

Lemma distance_R (p q : point R) :
  get_2city_distance p q
  = sqrt ((fst q - fst p) * (fst q - fst p) + (snd q - snd p) * (snd q - snd p)).
Proof. destruct p, q. reflexivity. Qed.

Lemma sum_squares_nonneg (a b : R) : 0 <= a * a + b * b.
Proof. nra. Qed.

(** X1.  The Euclidean distance is symmetric, never negative, and zero
    exactly between equal points. *)
Theorem get_2city_distance_metric (p q : point R) :
  get_2city_distance p q = get_2city_distance q p /\
  0 <= get_2city_distance p q /\
  (get_2city_distance p q = 0 <-> p = q).
Proof.
  rewrite !distance_R. destruct p as [x1 y1], q as [x2 y2]. cbn [fst snd].
  repeat split.
  - f_equal. ring.
  - apply sqrt_pos.
  - intros H0. apply sqrt_eq_0 in H0; [|apply sum_squares_nonneg].
    destruct (Rplus_sqr_eq_0 (x2 - x1) (y2 - y1) H0) as [Hx Hy].
    f_equal; lra.
  - intros [= -> ->].
    replace ((x2 - x2) * (x2 - x2) + (y2 - y2) * (y2 - y2)) with 0 by ring.
    apply sqrt_0.
Qed.

(** X2.  The triangle inequality. *)
Theorem get_2city_distance_triangle (p q r : point R) :
  get_2city_distance p r <= get_2city_distance p q + get_2city_distance q r.
Proof.
  rewrite !distance_R. destruct p as [x1 y1], q as [x2 y2], r as [x3 y3].
  cbn [fst snd].
  set (a := x2 - x1). set (b := y2 - y1). set (c := x3 - x2). set (e := y3 - y2).
  replace (x3 - x1) with (a + c) by (unfold a, c; ring).
  replace (y3 - y1) with (b + e) by (unfold b, e; ring).
  pose proof (sum_squares_nonneg a b) as Hab.
  pose proof (sum_squares_nonneg c e) as Hce.
  pose proof (sqrt_pos (a * a + b * b)) as Hu.
  pose proof (sqrt_pos (c * c + e * e)) as Hv.
  pose proof (sqrt_sqrt _ Hab) as Hu2.
  pose proof (sqrt_sqrt _ Hce) as Hv2.
  set (u := sqrt (a * a + b * b)) in *. set (v := sqrt (c * c + e * e)) in *.
  clearbody u v. clearbody a b c e.
  rewrite <- (sqrt_square (u + v)) by lra.
  apply sqrt_le_1_alt.
  assert (Huv : 0 <= u * v) by (apply Rmult_le_pos; assumption).
  assert (Hcs : a * c + b * e <= u * v).
  { destruct (Rle_dec (a * c + b * e) 0) as [Hn|Hp]; [lra|].
    assert (Hsq : (a * c + b * e) * (a * c + b * e) <= (u * v) * (u * v)).
    { replace ((u * v) * (u * v)) with ((u * u) * (v * v)) by ring.
      rewrite Hu2, Hv2.
      replace ((a * a + b * b) * (c * c + e * e))
        with ((a * c + b * e) * (a * c + b * e) + (a * e - b * c) * (a * e - b * c))
        by ring.
      pose proof (Rle_0_sqr (a * e - b * c)) as Hs. unfold Rsqr in Hs. lra. }
    destruct (Rle_dec (a * c + b * e) (u * v)) as [Hle|Hgt]; [exact Hle|].
    exfalso. apply Rnot_le_lt in Hgt.
    assert ((u * v) * (u * v) < (a * c + b * e) * (a * c + b * e)).
    { apply Rmult_le_0_lt_compat; assumption. }
    lra. }
  replace ((a + c) * (a + c) + (b + e) * (b + e))
    with (a * a + b * b + (c * c + e * e) + 2 * (a * c + b * e)) by ring.
  rewrite <- Hu2, <- Hv2. 
  replace ((u + v) * (u + v)) with (u * u + v * v + 2 * (u * v)) by ring.
  lra.
Qed.

End Metric.

(** *** [get_tour_distance]: what it reads, when it raises *)

Section TourDistance.

Context {D : Type} `{Scalar D}.
Variable self : Env_tsp.

Lemma tour_step_firstn (nodes : list (point D)) (tour : list nat)
    (acc : result D) (i : nat) :
  i < city_t self ->
  tour_step self nodes (firstn (city_t self) tour) acc i
  = tour_step self nodes tour acc i.
Proof.
  intros Hi. unfold tour_step.
  rewrite !index_firstn; [reflexivity| |exact Hi].
  apply Nat.mod_upper_bound. lia.
Qed.

Lemma get_tour_distance_firstn (nodes : list (point D)) (tour : list nat) :
  get_tour_distance self nodes (firstn (city_t self) tour)
  = get_tour_distance self nodes tour.
Proof.
  unfold get_tour_distance. apply fold_left_ext.
  intros acc i Hi. apply in_seq in Hi. apply tour_step_firstn. lia.
Qed.

Lemma tour_step_raises (nodes : list (point D)) (tour : list nat) (l : D) (i : nat) :
  length tour <= i \/ length nodes <= nth i tour 0 ->
  tour_step self nodes tour (Ok l) i = Err IndexError.
Proof.
  intros Hbad. unfold tour_step. cbn [bind].
  destruct (Nat.lt_ge_cases i (length tour)) as [Hi|Hi].
  - rewrite (index_nth tour 0 Hi). cbn [bind].
    destruct Hbad as [Hb|Hb]; [lia|].
    rewrite (index_out nodes Hb). reflexivity.
  - rewrite (index_out tour Hi). reflexivity.
Qed.

Lemma get_tour_distance_raises (nodes : list (point D)) (tour : list nat) (i : nat) :
  i < city_t self ->
  length tour <= i \/ length nodes <= nth i tour 0 ->
  get_tour_distance self nodes tour = Err IndexError.
Proof.
  intros Hi Hbad. unfold get_tour_distance.
  apply (fold_left_raises (tour_step self nodes tour) (seq 0 (city_t self)) i).
  - reflexivity.
  - intros a x _. apply tour_step_cases.
  - apply in_seq. lia.
  - intros a. apply tour_step_raises. exact Hbad.
Qed.

Lemma get_tour_distance_ok (nodes : list (point D)) (tour : list nat) :
  (forall i, i < city_t self -> i < length tour /\ nth i tour 0 < length nodes) ->
  get_tour_distance self nodes tour
  = Ok (cyclic_length (visit nodes (firstn (city_t self) tour))).
Proof.
  intros Hall. rewrite <- get_tour_distance_firstn.
  assert (Hlen : city_t self <= length tour).
  { destruct (city_t self) as [|c] eqn:E; [lia|].
    destruct (Hall c) as [Hc _]; lia. }
  apply get_tour_distance_cyclic.
  - intros a Ha. destruct (In_nth _ _ 0 Ha) as (i & Hi & <-).
    rewrite firstn_length_le in Hi by exact Hlen.
    rewrite nth_firstn. destruct (Nat.ltb_spec i (city_t self)); [|lia].
    apply Hall. exact Hi.
  - apply firstn_length_le. exact Hlen.
Qed.

(** X3.  [get_tour_distance] reads the first [city_t] entries of the tour
    and nothing else: a longer tour is cut there (and closed from entry
    [city_t - 1] back to entry 0). *)
Theorem get_tour_distance_reads_prefix (nodes : list (point D)) (tour : list nat) :
  get_tour_distance self nodes tour
  = get_tour_distance self nodes (firstn (city_t self) tour).
Proof. symmetry. apply get_tour_distance_firstn. Qed.

(** X4.  [get_tour_distance] raises [IndexError], and nothing else, exactly
    when one of the first [city_t] positions is missing from the tour
    or holds a city that is not a row of [nodes]; otherwise it returns. *)
Theorem get_tour_distance_raises_iff (nodes : list (point D)) (tour : list nat) :
  (get_tour_distance self nodes tour = Err IndexError <->
   exists i, i < city_t self /\
     (length tour <= i \/ length nodes <= nth i tour 0)) /\
  ((exists l, get_tour_distance self nodes tour = Ok l) <->
   forall i, i < city_t self -> i < length tour /\ nth i tour 0 < length nodes) /\
  ((exists l, get_tour_distance self nodes tour = Ok l) \/
   get_tour_distance self nodes tour = Err IndexError).
Proof.
  set (P := fun i => i < length tour /\ nth i tour 0 < length nodes).
  assert (Hdec : forall i, {P i} + {~ P i}).
  { intros i. unfold P.
    destruct (lt_dec i (length tour)); [|right; tauto].
    destruct (lt_dec (nth i tour 0) (length nodes)); [left|right]; tauto. }
  assert (Hbad : forall i, ~ P i -> length tour <= i \/ length nodes <= nth i tour 0).
  { intros i Hn. unfold P in Hn.
    destruct (Nat.lt_ge_cases i (length tour)); [|left; assumption].
    destruct (Nat.lt_ge_cases (nth i tour 0) (length nodes)); [tauto|right; assumption]. }
  split; [|split].
  - split.
    + intros Herr.
      destruct (Forall_Exists_dec P Hdec (seq 0 (city_t self))) as [Hall|Hex].
      * rewrite get_tour_distance_ok in Herr; [discriminate|].
        intros i Hi. rewrite Forall_forall in Hall. apply Hall, in_seq. lia.
      * apply Exists_exists in Hex. destruct Hex as (i & Hi & Hn).
        apply in_seq in Hi. exists i. split; [lia|]. apply Hbad, Hn.
    + intros (i & Hi & Hb). eapply get_tour_distance_raises; eassumption.
  - split.
    + intros [l Hl] i Hi.
      destruct (Hdec i) as [Hp|Hn]; [exact Hp|].
      rewrite (get_tour_distance_raises nodes tour Hi (Hbad i Hn)) in Hl. discriminate.
    + intros Hall. eexists. apply get_tour_distance_ok. exact Hall.
  - apply get_tour_distance_cases.
Qed.

End TourDistance.

(** *** [get_tour_distance]: the start and the direction do not matter *)

Section TourSymmetry.

Context {D : Type} `{ScalarLaws D}.
Variable self : Env_tsp.
Variable nodes : list (point D).

Lemma get_tour_distance_cyc_any (t : list nat) :
  length t = city_t self -> (forall a, In a t -> a < length nodes) ->
  get_tour_distance self nodes t = Ok (cyc nodes t).
Proof.
  intros Hl Hin. rewrite get_tour_distance_cyclic by assumption.
  rewrite cyclic_length_cyc. reflexivity.
Qed.

Lemma cyc_app_comm (t1 t2 : list nat) : cyc nodes (t1 ++ t2) = cyc nodes (t2 ++ t1).
Proof.
  destruct t2 as [|a t2].
  - rewrite app_nil_r. reflexivity.
  - apply cyc_rotate. discriminate.
Qed.

(** X5.  A tour and each of its rotations have the same length: with
    exact arithmetic [get_tour_distance] does not depend on the city
    the tour starts from. *)
Theorem get_tour_distance_rotation (t1 t2 : list nat) :
  length (t1 ++ t2) = city_t self ->
  (forall a, In a (t1 ++ t2) -> a < length nodes) ->
  exists l, get_tour_distance self nodes (t1 ++ t2) = Ok l /\
            get_tour_distance self nodes (t2 ++ t1) = Ok l.
Proof.
  intros Hl Hin. exists (cyc nodes (t1 ++ t2)). split.
  - apply get_tour_distance_cyc_any; assumption.
  - rewrite cyc_app_comm. apply get_tour_distance_cyc_any.
    + rewrite length_app, Nat.add_comm, <- length_app. exact Hl.
    + intros a Ha. apply Hin. apply in_app_iff. apply in_app_iff in Ha. tauto.
Qed.

Hypothesis dm_sym : forall j k, dm nodes j k = dm nodes k j.

Lemma path_cost_rev (e j : nat) (q : list nat) :
  path_cost nodes e j q = path_cost nodes j e (rev q).
Proof.
  revert j. induction q as [|k q IH]; intros j.
  - cbn [rev path_cost]. apply dm_sym.
  - cbn [rev path_cost]. rewrite path_cost_snoc, <- IH.
    rewrite (dm_sym k j). apply sadd_comm.
Qed.

Lemma cyc_rev (t : list nat) : cyc nodes (rev t) = cyc nodes t.
Proof.
  destruct t as [|a q]; [reflexivity|].
  cbn [rev]. destruct q as [|b q]; [reflexivity|].
  rewrite <- (cyc_rotate_one nodes a (t := rev (b :: q))).
  - cbn [cyc]. symmetry. apply path_cost_rev.
  - intros E. apply (f_equal (@length nat)) in E.
    rewrite length_rev in E. discriminate.
Qed.

Lemma get_tour_distance_rev (t : list nat) :
  length t = city_t self -> (forall a, In a t -> a < length nodes) ->
  exists l, get_tour_distance self nodes t = Ok l /\
            get_tour_distance self nodes (rev t) = Ok l.
Proof.
  intros Hl Hin. exists (cyc nodes t). split.
  - apply get_tour_distance_cyc_any; assumption.
  - rewrite <- cyc_rev. apply get_tour_distance_cyc_any.
    + rewrite length_rev. exact Hl.
    + intros a Ha. apply Hin. apply in_rev. exact Ha.
Qed.

End TourSymmetry.

Lemma dm_sym_R (nodes : list (point R)) (j k : nat) : dm nodes j k = dm nodes k j.
Proof.
  unfold dm. destruct (nth j nodes (s0, s0)) as [x1 y1], (nth k nodes (s0, s0)) as [x2 y2].
  cbn [get_2city_distance ssqrt sadd smul ssub Scalar_R]. f_equal. ring.
Qed.

(** X6.  Over the reals a tour and the same tour walked backwards have the
    same length. *)
Theorem get_tour_distance_reverse (self : Env_tsp) (nodes : list (point R))
    (t : list nat) :
  length t = city_t self -> (forall a, In a t -> a < length nodes) ->
  exists l, get_tour_distance self nodes t = Ok l /\
            get_tour_distance self nodes (rev t) = Ok l.
Proof.
  intros Hl Hin. apply get_tour_distance_rev; try assumption.
  apply dm_sym_R.
Qed.

Lemma tour_step_nonneg (self : Env_tsp) (nodes : list (point R)) (tour : list nat)
    (acc : result R) (i : nat) :
  (forall l, acc = Ok l -> (0 <= l)%R) ->
  forall l, tour_step self nodes tour acc i = Ok l -> (0 <= l)%R.
Proof.
  intros Hacc l. unfold tour_step.
  destruct acc as [l0|e]; cbn [bind]; [|discriminate].
  destruct (index tour i) as [a|e]; cbn [bind]; [|discriminate].
  destruct (index nodes a) as [p|e]; cbn [bind]; [|discriminate].
  destruct (index tour ((i + 1) mod city_t self)) as [b|e]; cbn [bind]; [|discriminate].
  destruct (index nodes b) as [q|e]; cbn [bind]; [|discriminate].
  intros [= <-]. specialize (Hacc l0 eq_refl).
  destruct p as [x1 y1], q as [x2 y2].
  cbn [get_2city_distance ssqrt sadd smul ssub Scalar_R].
  pose proof (sqrt_pos ((x2 - x1) * (x2 - x1) + (y2 - y1) * (y2 - y1)))%R. lra.
Qed.

(** X7.  Over the reals the length [get_tour_distance] returns is never
    negative. *)
Theorem get_tour_distance_nonneg (self : Env_tsp) (nodes : list (point R))
    (tour : list nat) (l : R) :
  get_tour_distance self nodes tour = Ok l -> (0 <= l)%R.
Proof.
  unfold get_tour_distance.
  assert (Hgen : forall js acc, (forall l0, acc = Ok l0 -> (0 <= l0)%R) ->
            forall l0, fold_left (tour_step self nodes tour) js acc = Ok l0 -> (0 <= l0)%R).
  { induction js as [|i js IH]; intros acc Hacc l0; cbn [fold_left].
    - apply Hacc.
    - apply IH. apply tour_step_nonneg. exact Hacc. }
  apply Hgen. intros l0 [= <-]. cbn [s0 Scalar_R]. lra.
Qed.

(** *** [shuffle] *)

Lemma set_nth_length {A} (i : nat) (x : A) (l : list A) :
  length (set_nth i x l) = length l.
Proof.
  revert i. induction l as [|y l IH]; intros i; [destruct i; reflexivity|].
  destruct i as [|i]; cbn [set_nth length]; [reflexivity|].
  rewrite IH. reflexivity.
Qed.

Lemma set_nth_nth {A} (i j : nat) (x d : A) (l : list A) :
  i < length l ->
  nth j (set_nth i x l) d = if j =? i then x else nth j l d.
Proof.
  revert i j. induction l as [|y l IH]; intros i j Hi; [simpl in Hi; lia|].
  destruct i as [|i]; destruct j as [|j]; cbn [set_nth nth Nat.eqb]; try reflexivity.
  apply IH. simpl in Hi. lia.
Qed.

Lemma visit_Permutation {D} `{Scalar D} (nodes : list (point D)) (perm : list nat) :
  Permutation perm (seq 0 (length nodes)) -> Permutation (visit nodes perm) nodes.
Proof.
  intros HP. unfold visit.
  rewrite (Permutation_map (fun a => nth a nodes (s0, s0)) HP).
  rewrite (map_nth_seq (fun p => p) nodes (s0, s0)), map_id. apply Permutation_refl.
Qed.

Section Shuffle.

Context {D : Type} `{Scalar D}.
Variable self : Env_tsp.

(** The buffer of [shuffle] after the rounds [i < k]. *)
Definition shuffled_rows (perms : list (list nat)) (inputs : list (list (point D)))
    (k : nat) : list (list (point D)) :=
  map (fun i => if i <? k then visit (nth i inputs []) (nth i perms [])
                else map (fun _ => (s0, s0)) (nth i inputs []))
      (seq 0 (length inputs)).

Lemma shuffled_rows_0 (perms : list (list nat)) (inputs : list (list (point D))) :
  shuffled_rows perms inputs 0 = map (map (fun _ => (s0, s0))) inputs.
Proof.
  unfold shuffled_rows. cbn [Nat.ltb Nat.leb].
  apply (map_nth_seq (map (fun _ : point D => (s0, s0))) inputs []).
Qed.

Lemma shuffled_rows_nth (perms : list (list nat)) (inputs : list (list (point D)))
    (k i : nat) :
  i < length inputs ->
  nth i (shuffled_rows perms inputs k) []
  = if i <? k then visit (nth i inputs []) (nth i perms [])
    else map (fun _ => (s0, s0)) (nth i inputs []).
Proof. intros Hi. unfold shuffled_rows. apply nth_map_seq. exact Hi. Qed.

Lemma shuffled_rows_length (perms : list (list nat)) (inputs : list (list (point D)))
    (k : nat) :
  length (shuffled_rows perms inputs k) = length inputs.
Proof. unfold shuffled_rows. rewrite length_map, length_seq. reflexivity. Qed.

Lemma shuffle_step_ok (perms : list (list nat)) (inputs : list (list (point D)))
    (k : nat) :
  k < length inputs -> k < length perms ->
  length (nth k perms []) = length (nth k inputs []) ->
  (forall a, In a (nth k perms []) -> a < length (nth k inputs [])) ->
  shuffle_step perms inputs (Ok (shuffled_rows perms inputs k)) k
  = Ok (shuffled_rows perms inputs (S k)).
Proof.
  intros Hi Hp Hlen Hrange. unfold shuffle_step. cbn [bind].
  rewrite (index_nth inputs [] Hi). cbn [bind].
  rewrite (index_nth perms [] Hp). cbn [bind].
  rewrite (mapM_ok (index (nth k inputs [])) (fun a => nth a (nth k inputs []) (s0, s0))).
  2:{ intros a Ha. apply index_nth. apply Hrange, Ha. }
  cbn [bind]. rewrite length_map, Hlen, Nat.eqb_refl. f_equal.
  apply (nth_ext _ _ [] []).
  - rewrite set_nth_length, !shuffled_rows_length. reflexivity.
  - intros j Hj. rewrite set_nth_length, shuffled_rows_length in Hj.
    rewrite set_nth_nth by (rewrite shuffled_rows_length; exact Hi).
    rewrite !shuffled_rows_nth by exact Hj.
    destruct (Nat.eqb_spec j k) as [->|Hne].
    + destruct (Nat.ltb_spec k (S k)); [reflexivity|lia].
    + destruct (Nat.ltb_spec j k); destruct (Nat.ltb_spec j (S k)); try lia; reflexivity.
Qed.

Lemma shuffle_prefix (perms : list (list nat)) (inputs : list (list (point D)))
    (k : nat) :
  k <= length inputs -> k <= length perms ->
  (forall i, i < k -> length (nth i perms []) = length (nth i inputs [])) ->
  (forall i a, i < k -> In a (nth i perms []) -> a < length (nth i inputs [])) ->
  fold_left (shuffle_step perms inputs) (seq 0 k)
            (Ok (map (map (fun _ => (s0, s0))) inputs))
  = Ok (shuffled_rows perms inputs k).
Proof.
  induction k as [|k IH]; intros Hi Hp Hlen Hrange.
  - cbn [seq fold_left]. rewrite shuffled_rows_0. reflexivity.
  - rewrite seq_S, fold_left_app, IH
      by (try lia; intros; (apply Hlen; lia) || (eapply Hrange; eauto)).
    cbn [Nat.add fold_left]. apply shuffle_step_ok; try lia.
    + apply Hlen. lia.
    + intros a Ha. eapply Hrange; eauto.
Qed.

Lemma shuffle_ok (perms : list (list nat)) (inputs : list (list (point D))) :
  batch self <= length inputs -> batch self <= length perms ->
  (forall i, i < batch self -> length (nth i perms []) = length (nth i inputs [])) ->
  (forall i a, i < batch self -> In a (nth i perms []) -> a < length (nth i inputs [])) ->
  shuffle self perms inputs = Ok (shuffled_rows perms inputs (batch self)).
Proof. intros. unfold shuffle. apply shuffle_prefix; assumption. Qed.

(** X10.  [shuffle] on a batch of at least [cfg.batch] instances: the result
    has as many instances as the input; each of the first [cfg.batch]
    is the input instance read in the order of its permutation, hence a
    reordering of it; each later instance is all zeros, the untouched
    rows of the [torch.zeros] buffer. *)
Theorem shuffle_reorders (perms : list (list nat)) (inputs : list (list (point D))) :
  batch self <= length inputs -> length perms = batch self ->
  (forall i, i < batch self ->
     length (nth i inputs []) = city_t self /\
     Permutation (nth i perms []) (seq 0 (city_t self))) ->
  exists out,
    shuffle self perms inputs = Ok out /\
    length out = length inputs /\
    (forall i, i < batch self ->
       nth i out [] = map (fun a => nth a (nth i inputs []) (s0, s0)) (nth i perms []) /\
       Permutation (nth i out []) (nth i inputs [])) /\
    (forall i, batch self <= i < length inputs ->
       nth i out [] = map (fun _ => (s0, s0)) (nth i inputs [])).
Proof.
  intros Hb Hp Hrows. exists (shuffled_rows perms inputs (batch self)).
  split; [|split; [|split]].
  - apply shuffle_ok; try lia.
    + intros i Hi. destruct (Hrows i Hi) as [Hl HP].
      rewrite (Permutation_length HP), length_seq. symmetry. exact Hl.
    + intros i a Hi Ha. destruct (Hrows i Hi) as [Hl HP]. rewrite Hl.
      eapply Permutation_seq_bound; eassumption.
  - apply shuffled_rows_length.
  - intros i Hi. rewrite shuffled_rows_nth by lia.
    destruct (Nat.ltb_spec i (batch self)); [|lia].
    split; [reflexivity|]. apply visit_Permutation.
    destruct (Hrows i Hi) as [-> HP]. exact HP.
  - intros i Hi. rewrite shuffled_rows_nth by lia.
    destruct (Nat.ltb_spec i (batch self)); [lia|reflexivity].
Qed.

(** X11.  With fewer instances than [cfg.batch] (each of [city_t] cities, the
    permutations those of [torch.randperm(city_t)]), [shuffle] raises
    [IndexError]. *)
Theorem shuffle_short_batch (perms : list (list nat)) (inputs : list (list (point D))) :
  length inputs < batch self -> length perms = batch self ->
  (forall nodes, In nodes inputs -> length nodes = city_t self) ->
  (forall perm, In perm perms -> Permutation perm (seq 0 (city_t self))) ->
  shuffle self perms inputs = Err IndexError.
Proof.
  intros Hlt Hp Hnodes Hperms. unfold shuffle.
  replace (batch self)
    with (length inputs + (1 + (batch self - length inputs - 1))) by lia.
  rewrite !seq_app, !fold_left_app.
  rewrite shuffle_prefix; try lia.
  - cbn [seq fold_left]. unfold shuffle_step at 2. cbn [bind].
    rewrite index_out by lia. cbn [bind].
    apply fold_left_err. reflexivity.
  - intros i Hi.
    assert (Hperm : In (nth i perms []) perms) by (apply nth_In; lia).
    rewrite (Permutation_length (Hperms _ Hperm)), length_seq.
    symmetry. apply Hnodes, nth_In. exact Hi.
  - intros i a Hi Ha. rewrite (Hnodes _ (nth_In inputs [] Hi)).
    eapply Permutation_seq_bound; [|exact Ha].
    apply Hperms, nth_In. lia.
Qed.

End Shuffle.

(** *** [back_tours] after [shuffle], and on coordinates without a match *)

Section BackToursMore.

Context {D : Type} `{ScalarLaws D}.
Variable self : Env_tsp.

Lemma first_index_nth (test : list (point D)) (k : nat) :
  NoDup test -> k < length test ->
  first_index (nth k test (s0, s0)) test = k.
Proof.
  intros Hnd Hk.
  destruct (first_index_spec (nth k test (s0, s0)) test) as (H1 & H2 & _).
  - apply nth_In. exact Hk.
  - apply (proj1 (NoDup_nth test (s0, s0)) Hnd); assumption.
Qed.

Lemma visit_nth (nodes : list (point D)) (perm : list nat) (a : nat) :
  a < length perm ->
  nth a (visit nodes perm) (s0, s0) = nth (nth a perm 0) nodes (s0, s0).
Proof.
  intros Ha. unfold visit.
  rewrite (nth_indep _ (s0, s0) (nth 0 nodes (s0, s0))) by (rewrite length_map; exact Ha).
  exact (map_nth (fun b => nth b nodes (s0, s0)) perm 0 a).
Qed.

Lemma rectify_shuffled (test : list (point D)) (perm tour : list nat) :
  NoDup test -> Permutation perm (seq 0 (length test)) ->
  (forall a, In a tour -> a < length test) ->
  rectify (visit test perm) test tour = map (fun a => nth a perm 0) tour.
Proof.
  intros Hnd HP Hrange. unfold rectify. apply map_ext_in. intros a Ha.
  assert (Hlp : length perm = length test)
    by (rewrite (Permutation_length HP); apply length_seq).
  rewrite visit_nth by (rewrite Hlp; apply Hrange, Ha).
  apply first_index_nth; [exact Hnd|].
  eapply Permutation_seq_bound; [exact HP|].
  apply nth_In. rewrite Hlp. apply Hrange, Ha.
Qed.

(** X12.  The round trip of the test loop.  On a batch of the configured
    size whose instances have pairwise distinct coordinates,
    [back_tours] applied to tours over the instances [shuffle] returns
    sends each tour entry [a] to [perm[a]], the canonical index of the
    city that the shuffled index [a] stands for. *)
Theorem shuffle_back_tours (perms tours : list (list nat))
    (inputs : list (list (point D))) :
  1 <= batch self -> 1 <= city_t self ->
  length inputs = batch self -> length perms = batch self ->
  length tours = batch self ->
  (forall i, i < batch self ->
     length (nth i inputs []) = city_t self /\ NoDup (nth i inputs []) /\
     Permutation (nth i perms []) (seq 0 (city_t self)) /\
     length (nth i tours []) = city_t self /\
     forall a, In a (nth i tours []) -> a < city_t self) ->
  exists shuffle_inputs,
    shuffle self perms inputs = Ok shuffle_inputs /\
    back_tours self tours shuffle_inputs inputs
    = Ok (map (fun i => map (fun a => nth a (nth i perms []) 0) (nth i tours []))
              (seq 0 (batch self))).
Proof.
  intros Hb Hc Hli Hlp Hlt Hrows.
  exists (shuffled_rows perms inputs (batch self)). split.
  - apply shuffle_ok; try lia.
    + intros i Hi. destruct (Hrows i Hi) as (Hl & _ & HP & _).
      rewrite (Permutation_length HP), length_seq. symmetry. exact Hl.
    + intros i a Hi Ha. destruct (Hrows i Hi) as (Hl & _ & HP & _). rewrite Hl.
      eapply Permutation_seq_bound; eassumption.
  - assert (Hrow : forall i, i < batch self ->
              nth i (shuffled_rows perms inputs (batch self)) []
              = visit (nth i inputs []) (nth i perms [])).
    { intros i Hi. rewrite shuffled_rows_nth by lia.
      destruct (Nat.ltb_spec i (batch self)); [reflexivity|lia]. }
    rewrite back_tours_ok; try assumption.
    + f_equal. apply map_ext_in. intros i Hi. apply in_seq in Hi.
      destruct (Hrows i) as (Hl & Hnd & HP & Hlt' & Hrange); [lia|].
      rewrite Hrow by lia. apply rectify_shuffled; rewrite ?Hl; assumption.
    + intros i Hi. destruct (Hrows i Hi) as (Hl & Hnd & HP & Hlt' & Hrange).
      unfold well_formed. rewrite shuffled_rows_length, Hrow by exact Hi.
      repeat split; try lia; try assumption.
      * intros a Ha. unfold visit. rewrite length_map.
        rewrite (Permutation_length HP), length_seq. apply Hrange, Ha.
      * intros p Hp. apply (Permutation_in p (visit_Permutation (nth i inputs [])
                                  (perm := nth i perms []) ltac:(rewrite Hl; exact HP))).
        exact Hp.
Qed.

(** **** Coordinates without a match *)

Lemma existsb_peqb (xy : point D) (test : list (point D)) :
  existsb (peqb xy) test = true <-> In xy test.
Proof.
  rewrite existsb_exists. split.
  - intros (p & Hp & E). apply peqb_true in E. subst p. exact Hp.
  - intros Hin. exists xy. split; [exact Hin|]. apply peqb_true. reflexivity.
Qed.

Lemma scan_none (xy : point D) (pre test : list (point D)) :
  ~ In xy test ->
  scan xy (pre ++ test) (seq (length pre) (length test)) = Ok None.
Proof.
  revert pre. induction test as [|p test IH]; intros pre Hnot; [reflexivity|].
  cbn [length seq scan].
  assert (Hidx : index (pre ++ p :: test) (length pre) = Ok p).
  { unfold index. rewrite nth_error_app2 by lia. rewrite Nat.sub_diag. reflexivity. }
  rewrite Hidx. cbn [bind]. destruct (peqb xy p) eqn:E.
  - apply peqb_true in E. subst p. exfalso. apply Hnot. left. reflexivity.
  - specialize (IH (pre ++ [p])).
    rewrite <- app_assoc, length_app in IH. cbn [length app] in IH.
    replace (length pre + 1) with (S (length pre)) in IH by lia.
    apply IH. intros Hin. apply Hnot. right. exact Hin.
Qed.

(** The cities of a tour that have a match, each sent to its first match. *)
Definition matches (shuffled test : list (point D)) (tour : list nat) : list nat :=
  flat_map (fun a => if existsb (peqb (nth a shuffled (s0, s0))) test
                     then [first_index (nth a shuffled (s0, s0)) test] else [])
           tour.

(** Every city of the tour has its coordinates in the canonical instance. *)
Definition matched (shuffled test : list (point D)) (tour : list nat) : bool :=
  forallb (fun a => existsb (peqb (nth a shuffled (s0, s0))) test) tour.

Lemma matches_length (shuffled test : list (point D)) (tour : list nat) :
  length (matches shuffled test tour) <= length tour.
Proof.
  induction tour as [|a tour IH]; [reflexivity|].
  unfold matches in *. cbn [flat_map].
  destruct (existsb _ test); rewrite length_app; cbn [length]; lia.
Qed.

Lemma matches_matched (shuffled test : list (point D)) (tour : list nat) :
  matched shuffled test tour = true ->
  matches shuffled test tour = rectify shuffled test tour.
Proof.
  induction tour as [|a tour IH]; [reflexivity|].
  unfold matched, matches, rectify in *. cbn [forallb flat_map map].
  intros Hm. apply andb_prop in Hm. destruct Hm as [Ha Hm].
  rewrite Ha. cbn [app]. f_equal. apply IH, Hm.
Qed.

Lemma matches_unmatched (shuffled test : list (point D)) (tour : list nat) :
  matched shuffled test tour = false ->
  length (matches shuffled test tour) < length tour.
Proof.
  induction tour as [|a tour IH]; [discriminate|].
  unfold matched, matches in *. cbn [forallb flat_map].
  destruct (existsb (peqb (nth a shuffled (s0, s0))) test) eqn:Ha.
  - cbn [andb app length]. intros Hm. specialize (IH Hm). lia.
  - intros _. cbn [app length].
    pose proof (matches_length shuffled test tour) as Hle. unfold matches in Hle. lia.
Qed.

Lemma matches_snoc (shuffled test : list (point D)) (tour : list nat) (a : nat) :
  matches shuffled test (tour ++ [a])
  = matches shuffled test tour ++
    (if existsb (peqb (nth a shuffled (s0, s0))) test
     then [first_index (nth a shuffled (s0, s0)) test] else []).
Proof.
  unfold matches. rewrite flat_map_app. cbn [flat_map]. rewrite app_nil_r. reflexivity.
Qed.

(** The shapes [back_tours] needs of instance [i]; nothing is asked of
    the coordinates. *)
Definition well_shaped (tours : list (list nat))
    (shuffled test : list (list (point D))) (i : nat) : Prop :=
  i < length tours /\ i < length shuffled /\ i < length test /\
  length (nth i test []) = city_t self /\
  length (nth i tours []) = city_t self /\
  (forall a, In a (nth i tours []) -> a < length (nth i shuffled [])).

Lemma back_step_any (tour : list nat) (shuffled test : list (list (point D)))
    (i j : nat) (st : list nat * list (list nat)) :
  i < length shuffled -> i < length test ->
  length (nth i test []) = city_t self ->
  j < length tour ->
  nth j tour 0 < length (nth i shuffled []) ->
  back_step self tour (index shuffled i) (index test i) (Ok st) j =
  let xy := nth (nth j tour 0) (nth i shuffled []) (s0, s0) in
  if existsb (peqb xy) (nth i test [])
  then Ok (fst st ++ [first_index xy (nth i test [])],
           if length (fst st ++ [first_index xy (nth i test [])]) =? city_t self
           then snd st ++ [fst st ++ [first_index xy (nth i test [])]] else snd st)
  else Ok st.
Proof.
  intros Hs Ht Hlen Hj Ha. unfold back_step. cbn [bind].
  rewrite (index_nth tour 0 Hj). cbn [bind].
  rewrite (index_nth shuffled [] Hs). cbn [bind].
  rewrite (index_nth (nth i shuffled []) (s0, s0) Ha). cbn [bind].
  rewrite (index_nth test [] Ht). cbn [bind].
  rewrite <- Hlen. cbv zeta.
  destruct (existsb _ (nth i test [])) eqn:E.
  - apply existsb_peqb in E.
    pose proof (scan_first_index _ [] (nth i test []) E) as Hscan.
    cbn [app length Nat.add] in Hscan. rewrite Hscan. reflexivity.
  - assert (Hnot : ~ In (nth (nth j tour 0) (nth i shuffled []) (s0, s0)) (nth i test [])).
    { intros Hin. apply existsb_peqb in Hin. congruence. }
    pose proof (@scan_none _ [] _ Hnot) as Hscan.
    cbn [app length] in Hscan. rewrite Hscan. reflexivity.
Qed.

Lemma back_loop_any (tours : list (list nat))
    (shuffled test : list (list (point D))) (i j : nat) (acc : list (list nat)) :
  1 <= city_t self -> well_shaped tours shuffled test i -> j <= city_t self ->
  let r := matches (nth i shuffled []) (nth i test []) (firstn j (nth i tours [])) in
  fold_left (back_step self (nth i tours []) (index shuffled i) (index test i))
            (seq 0 j) (Ok ([], acc))
  = Ok (r, if length r =? city_t self then acc ++ [r] else acc).
Proof.
  intros Hc (Ht & Hs & Hte & Hlte & Hlt & Hrange).
  induction j as [|j IH]; intros Hj r.
  - cbn [seq fold_left]. unfold r. cbn [firstn matches flat_map length].
    destruct (Nat.eqb_spec 0 (city_t self)); [lia|reflexivity].
  - rewrite seq_S, fold_left_app, IH by lia. cbn [Nat.add fold_left].
    set (r0 := matches (nth i shuffled []) (nth i test []) (firstn j (nth i tours []))).
    assert (Hr0 : length r0 <= j).
    { unfold r0. etransitivity; [apply matches_length|].
      rewrite firstn_length_le; lia. }
    destruct (Nat.eqb_spec (length r0) (city_t self)); [lia|].
    rewrite back_step_any; try assumption; try lia.
    2:{ apply Hrange, nth_In. lia. }
    cbv zeta. cbn [fst snd].
    assert (Er : r = r0 ++
              (if existsb (peqb (nth (nth j (nth i tours []) 0) (nth i shuffled []) (s0, s0)))
                          (nth i test [])
               then [first_index (nth (nth j (nth i tours []) 0) (nth i shuffled []) (s0, s0))
                       (nth i test [])] else [])).
    { unfold r, r0. rewrite (firstn_snoc (nth i tours []) 0) by lia.
      apply matches_snoc. }
    destruct (existsb _ (nth i test [])).
    + rewrite <- Er. reflexivity.
    + rewrite app_nil_r in Er. rewrite Er.
      destruct (Nat.eqb_spec (length r0) (city_t self)); [lia|reflexivity].
Qed.

Lemma back_instance_any (tours : list (list nat))
    (shuffled test : list (list (point D))) (i : nat) (acc : list (list nat)) :
  1 <= city_t self -> well_shaped tours shuffled test i ->
  back_instance self tours shuffled test (Ok acc) i
  = Ok (if matched (nth i shuffled []) (nth i test []) (nth i tours [])
        then acc ++ [rectify (nth i shuffled []) (nth i test []) (nth i tours [])]
        else acc).
Proof.
  intros Hc Hws.
  unfold back_instance. cbn [bind].
  destruct (city_t self) as [|n] eqn:En; [lia|]. rewrite <- En in *.
  pose proof Hws as (Ht & _ & _ & _ & Hlt & _).
  rewrite (index_nth tours [] Ht). cbn [bind].
  rewrite back_loop_any by (assumption || lia).
  cbn [bind snd].
  replace (firstn (city_t self) (nth i tours [])) with (nth i tours [])
    by (rewrite <- Hlt; symmetry; apply firstn_all).
  destruct (matched _ _ (nth i tours [])) eqn:Em.
  - rewrite matches_matched by exact Em.
    unfold rectify at 1. rewrite length_map, Hlt, Nat.eqb_refl. reflexivity.
  - apply matches_unmatched in Em.
    destruct (Nat.eqb_spec (length (matches (nth i shuffled []) (nth i test [])
                                            (nth i tours []))) (city_t self));
      [lia|reflexivity].
Qed.

Lemma back_tours_any_prefix (tours : list (list nat))
    (shuffled test : list (list (point D))) (b : nat) :
  1 <= city_t self ->
  (forall i, i < b -> well_shaped tours shuffled test i) ->
  fold_left (back_instance self tours shuffled test) (seq 0 b) (Ok [])
  = Ok (map (fun i => rectify (nth i shuffled []) (nth i test []) (nth i tours []))
            (filter (fun i => matched (nth i shuffled []) (nth i test []) (nth i tours []))
                    (seq 0 b))).
Proof.
  intros Hc. induction b as [|b IH]; intros Hws; [reflexivity|].
  rewrite seq_S, fold_left_app, IH by (intros i Hi; apply Hws; lia).
  cbn [Nat.add fold_left]. rewrite back_instance_any by (auto; apply Hws; lia).
  rewrite filter_app, map_app. cbn [filter].
  destruct (matched _ _ (nth b tours [])); cbn [map]; [reflexivity|].
  rewrite app_nil_r. reflexivity.
Qed.

(** X13.  An instance one of whose cities has coordinates that occur
    nowhere in the canonical instance raises nothing: it is left out of
    the result, which stacks the tours of the other instances only, and
    [torch.stack] raises [RuntimeError] when no instance is left. *)
Theorem back_tours_drops_unmatched (tours : list (list nat))
    (shuffle_inputs test_inputs : list (list (point D))) :
  1 <= city_t self ->
  (forall i, i < batch self -> well_shaped tours shuffle_inputs test_inputs i) ->
  let kept := filter (fun i => matched (nth i shuffle_inputs []) (nth i test_inputs [])
                                       (nth i tours []))
                     (seq 0 (batch self)) in
  (kept = [] -> back_tours self tours shuffle_inputs test_inputs = Err RuntimeError) /\
  (kept <> [] ->
   back_tours self tours shuffle_inputs test_inputs
   = Ok (map (fun i => rectify (nth i shuffle_inputs []) (nth i test_inputs [])
                               (nth i tours [])) kept)).
Proof.
  intros Hc Hws kept. unfold back_tours.
  rewrite back_tours_any_prefix by assumption. cbn [bind]. fold kept.
  split.
  - intros ->. reflexivity.
  - intros Hne. destruct kept; [congruence|reflexivity].
Qed.

End BackToursMore.

(** *** [stack_l]: its result and its errors *)

Lemma mapM_Ok_nth {A B} (f : A -> result B) (l : list A) (r : list B) (a : A) (b : B) :
  mapM f l = Ok r <->
  length r = length l /\ forall i, i < length l -> f (nth i l a) = Ok (nth i r b).
Proof.
  revert r. induction l as [|x l IH]; intros r; cbn [mapM length].
  - split.
    + intros [= <-]. split; [reflexivity|]. intros i Hi. lia.
    + intros [Hl _]. destruct r; [reflexivity|discriminate].
  - split.
    + destruct (f x) as [y|e] eqn:Ex; cbn [bind]; [|discriminate].
      destruct (mapM f l) as [ys|e] eqn:Em; cbn [bind]; [|discriminate].
      intros [= <-]. destruct (proj1 (IH ys) eq_refl) as [Hl Hn].
      split; [cbn [length]; lia|].
      intros [|i] Hi; cbn [nth]; [exact Ex|]. apply Hn. lia.
    + intros [Hl Hn]. destruct r as [|y r]; [discriminate|].
      pose proof (Hn 0 ltac:(lia)) as H0. cbn [nth] in H0. rewrite H0. cbn [bind].
      rewrite (proj2 (IH r)); [reflexivity|].
      split; [cbn [length] in Hl; lia|].
      intros i Hi. apply (Hn (S i)). lia.
Qed.

Section StackL.

Context {D : Type} `{Scalar D}.
Variable self : Env_tsp.

Lemma stack_l_item_cases (inputs : list (list (point D))) (tours : list (list nat))
    (i : nat) :
  (exists y, (nodes <- index inputs i ;; tour <- index tours i ;;
              get_tour_distance self nodes tour) = Ok y) \/
  (nodes <- index inputs i ;; tour <- index tours i ;;
   get_tour_distance self nodes tour) = Err IndexError.
Proof.
  destruct (index_cases inputs i) as [[nodes ->]| ->]; [cbn [bind]|right; reflexivity].
  destruct (index_cases tours i) as [[tour ->]| ->]; [cbn [bind]|right; reflexivity].
  apply get_tour_distance_cases.
Qed.

Lemma mapM_only_raises {A B} (f : A -> result B) (l : list A) (e : exn) :
  (forall x, (exists y, f x = Ok y) \/ f x = Err e) ->
  (exists r, mapM f l = Ok r) \/ mapM f l = Err e.
Proof.
  intros Hf. induction l as [|x l IH]; [left; eexists; reflexivity|].
  cbn [mapM]. destruct (Hf x) as [[y ->]| ->]; [cbn [bind]|right; reflexivity].
  destruct IH as [[r ->]| ->]; [left; eexists; reflexivity|right; reflexivity].
Qed.

(** X8.  [stack_l] raises [RuntimeError] exactly when [cfg.batch] is 0
    (the stack of no tensor), and it returns [l] exactly when [l] holds,
    for each [i < cfg.batch], what [get_tour_distance] returns on
    instance [i] and tour [i]; its only other outcome is [IndexError]. *)
Theorem stack_l_outcomes (inputs : list (list (point D))) (tours : list (list nat)) :
  (stack_l self inputs tours = Err RuntimeError <-> batch self = 0) /\
  (forall l, stack_l self inputs tours = Ok l <->
     1 <= batch self /\ length l = batch self /\
     forall i, i < batch self ->
       exists nodes tour, index inputs i = Ok nodes /\ index tours i = Ok tour /\
         get_tour_distance self nodes tour = Ok (nth i l s0)) /\
  ((exists l, stack_l self inputs tours = Ok l) \/
   stack_l self inputs tours = Err IndexError \/
   stack_l self inputs tours = Err RuntimeError).
Proof.
  unfold stack_l.
  set (f := fun i => nodes <- index inputs i ;; tour <- index tours i ;;
                     get_tour_distance self nodes tour).
  pose proof (mapM_only_raises f (seq 0 (batch self)) (e := IndexError)
                (stack_l_item_cases inputs tours)) as Hcases.
  split; [|split].
  - split.
    + destruct Hcases as [[r Hr]|Hr]; rewrite Hr; cbn [bind]; [|discriminate].
      pose proof (mapM_length _ _ Hr) as Hl. rewrite length_seq in Hl.
      destruct r; [intros _; simpl in Hl; lia|discriminate].
    + intros ->. reflexivity.
  - intros l. split.
    + destruct (mapM f (seq 0 (batch self))) as [r|e] eqn:Hr; cbn [bind]; [|discriminate].
      destruct r as [|y r]; [discriminate|]. intros [= <-].
      apply (mapM_Ok_nth f (seq 0 (batch self)) (y :: r) 0 s0) in Hr.
      destruct Hr as [Hl Hn]. rewrite length_seq in Hl, Hn.
      split; [cbn [length] in Hl; lia|]. split; [exact Hl|].
      intros i Hi. specialize (Hn i Hi). rewrite seq_nth in Hn by exact Hi.
      cbn [Nat.add] in Hn. unfold f in Hn.
      destruct (index inputs i) as [nodes|e]; cbn [bind] in Hn; [|discriminate].
      destruct (index tours i) as [tour|e]; cbn [bind] in Hn; [|discriminate].
      exists nodes, tour. repeat split. exact Hn.
    + intros (Hb & Hl & Hn).
      rewrite (proj2 (mapM_Ok_nth f (seq 0 (batch self)) l 0 s0)).
      * cbn [bind]. destruct l; [simpl in Hl; lia|reflexivity].
      * rewrite length_seq. split; [exact Hl|].
        intros i Hi. rewrite seq_nth by exact Hi. cbn [Nat.add].
        destruct (Hn i Hi) as (nodes & tour & H1 & H2 & H3).
        unfold f. rewrite H1, H2. exact H3.
  - destruct Hcases as [[r Hr]|Hr]; rewrite Hr; cbn [bind].
    + destruct r; [right; right; reflexivity|left; eexists; reflexivity].
    + right. left. reflexivity.
Qed.

(** *** [stack_l_fast]: its errors *)

Lemma gather_cases (nodes : list (point D)) (tour : list nat) :
  (exists d, gather nodes tour = Ok d /\ length d = length tour) \/
  gather nodes tour = Err RuntimeError.
Proof.
  unfold gather. induction tour as [|a tour IH]; [left; eexists; split; reflexivity|].
  cbn [mapM]. destruct (nth_error nodes a); [cbn [bind]|right; reflexivity].
  destruct IH as [(d & -> & Hl)| ->]; [|right; reflexivity].
  left. eexists. split; [reflexivity|]. cbn [length]. rewrite Hl. reflexivity.
Qed.

Lemma gather_raises (nodes : list (point D)) (tour : list nat) (a : nat) :
  In a tour -> length nodes <= a -> gather nodes tour = Err RuntimeError.
Proof.
  intros Hin Hout. unfold gather.
  apply (mapM_raises _ tour a (e := RuntimeError)); [|exact Hin|].
  - intros b _. destruct (nth_error nodes b); [left; eexists; reflexivity|right; reflexivity].
  - apply nth_error_None in Hout. rewrite Hout. reflexivity.
Qed.

(** X9.  [stack_l_fast] reads the shapes of its arguments, not the
    configuration.  With tours of at least one entry, more tours than
    instances, or a tour entry that is no row of its instance, make
    [torch.gather] raise [RuntimeError].  Tours with no entry at all
    make the subscript [d[:, 0]] raise [IndexError], whether or not
    there are more tours than instances. *)
Theorem stack_l_fast_errors (inputs : list (list (point D))) (tours : list (list nat))
    (m : nat) :
  (forall tour, In tour tours -> length tour = m) ->
  (length inputs < length tours -> 1 <= m ->
   stack_l_fast inputs tours = Err RuntimeError) /\
  (length tours <= length inputs -> 1 <= m ->
   (exists i a, i < length tours /\ In a (nth i tours []) /\
                length (nth i inputs []) <= a) ->
   stack_l_fast inputs tours = Err RuntimeError) /\
  (m = 0 -> tours <> [] -> stack_l_fast inputs tours = Err IndexError).
Proof.
  intros Hrect. unfold stack_l_fast. split; [|split].
  - intros Hlt Hm.
    destruct (Nat.ltb_spec (length inputs) (length tours)); [|lia].
    destruct tours as [|tour tours']; [simpl in Hlt; lia|].
    cbn [forallb]. rewrite (Hrect tour (or_introl eq_refl)).
    destruct m; [lia|reflexivity].
  - intros Hle Hm (i & a & Hi & Ha & Hout).
    destruct (Nat.ltb_spec (length inputs) (length tours)); [lia|].
    apply (mapM_raises _ (combine inputs tours) (nth i inputs [], nth i tours [])
             (e := RuntimeError)).
    + intros [nodes tour] Hin. cbn [fst snd].
      destruct (gather_cases nodes tour) as [(d & -> & Hl)| ->];
        [cbn [bind]|right; reflexivity].
      left. apply in_combine_r in Hin. rewrite (Hrect _ Hin) in Hl.
      destruct d; [simpl in Hl; lia|eexists; reflexivity].
    + rewrite <- (ActorFacts.combine_nth_lt inputs tours [] []) by lia.
      apply nth_In. rewrite length_combine. lia.
    + cbn [fst snd]. rewrite (gather_raises _ _ Ha Hout). reflexivity.
  - intros -> Hne.
    destruct (Nat.ltb_spec (length inputs) (length tours)).
    + replace (forallb (fun tour => length tour =? 0) tours) with true; [reflexivity|].
      symmetry. apply forallb_forall. intros tour Hin.
      rewrite (Hrect tour Hin). reflexivity.
    + destruct tours as [|tour tours]; [congruence|].
      destruct inputs as [|nodes inputs]; [simpl in *; lia|].
      cbn [combine mapM fst snd].
      assert (Ht : tour = []).
      { apply length_zero_iff_nil. apply Hrect. left. reflexivity. }
      subst tour. reflexivity.
Qed.

End StackL.

(** *** [get_optimal_tour]: two cities; the pair [res] *)

(** X17.  With two cities the loop over the subset sizes does not run and
    the tour is [[0, 1]], whatever the coordinates. *)
Theorem get_optimal_tour_two_cities {D : Type} `{Scalar D} (p q : point D) :
  get_optimal_tour [p; q] = Ok [0; 1].
Proof. reflexivity. Qed.

Section OptimalRes.

Context {D : Type} `{ScalarLaws D}.
Variable self : Env_tsp.
Variable nodes : list (point D).

(** X18.  The tour [get_optimal_tour] returns starts at city 0, and the
    length the dynamic programme has accumulated for it ([res[0]]) is
    the one [get_tour_distance] computes on that tour. *)
Theorem get_optimal_res_consistent :
  2 <= length nodes -> city_t self = length nodes ->
  exists c q,
    get_optimal_res nodes = Ok (c, 0 :: q) /\
    get_optimal_tour nodes = Ok (0 :: q) /\
    length (0 :: q) = length nodes /\
    get_tour_distance self nodes (0 :: q) = Ok c.
Proof.
  intros Hn Hc.
  destruct (get_optimal_res_spec nodes Hn) as (c & q & Hres & Hq & Hcost & _).
  exists c, q. split; [exact Hres|]. split; [|split].
  - unfold get_optimal_tour. rewrite Hres. reflexivity.
  - cbn [length]. rewrite (Permutation_length Hq), length_seq. lia.
  - rewrite get_tour_distance_cyc.
    + cbn [cyc]. rewrite Hcost. reflexivity.
    + exact Hc.
    + replace (seq 0 (length nodes)) with (0 :: seq 1 (length nodes - 1))
        by (destruct (length nodes); [lia|cbn [seq]; do 2 f_equal; lia]).
      apply perm_skip, Hq.
Qed.

End OptimalRes.

Lemma get_optimal_res_distances {D : Type} `{Scalar D} (nodes nodes' : list (point D)) :
  all_distances nodes = all_distances nodes' ->
  get_optimal_res nodes = get_optimal_res nodes'.
Proof. intros E. unfold get_optimal_res. rewrite E. reflexivity. Qed.

Definition translate (v : point R) (p : point R) : point R :=
  (fst p + fst v, snd p + snd v)%R.

(** X19.  The optimal tour depends on the cities through their pairwise
    distances only: over the reals, moving all the cities by the same
    vector changes nothing of what [get_optimal_tour] returns. *)
Theorem get_optimal_tour_translate (v : point R) (nodes : list (point R)) :
  get_optimal_tour (map (translate v) nodes) = get_optimal_tour nodes.
Proof.
  unfold get_optimal_tour. f_equal. apply get_optimal_res_distances.
  unfold all_distances. rewrite !map_map. apply map_ext. intros x.
  rewrite map_map. apply map_ext. intros y.
  destruct x as [x1 y1], y as [x2 y2], v as [vx vy]. unfold translate.
  cbn [get_2city_distance fst snd ssqrt sadd smul ssub Scalar_R]. f_equal. ring.
Qed.

(** *** [get_random_tour] and [stack_random_tours] *)

Lemma existsb_eqb_In (c : nat) (l : list nat) :
  existsb (Nat.eqb c) l = true <-> In c l.
Proof.
  rewrite existsb_exists. split.
  - intros (x & Hx & E). apply Nat.eqb_eq in E. subst x. exact Hx.
  - intros Hin. exists c. split; [exact Hin|apply Nat.eqb_refl].
Qed.

Lemma set_eqb_true (a b : list nat) :
  set_eqb a b = true <-> (forall c, In c a <-> In c b).
Proof.
  unfold set_eqb. rewrite andb_true_iff, !forallb_forall. split.
  - intros [H1 H2] c. split; intros Hc.
    + apply existsb_eqb_In, H1, Hc.
    + apply existsb_eqb_In, H2, Hc.
  - intros Hab. split; intros c Hc; apply existsb_eqb_In, Hab, Hc.
Qed.

(** The cities of [l] in the order of their first occurrence. *)
Definition first_seen (l : list nat) : list nat := rev (nodup Nat.eq_dec (rev l)).

Lemma first_seen_In (l : list nat) (c : nat) : In c (first_seen l) <-> In c l.
Proof. unfold first_seen. rewrite <- in_rev, nodup_In, <- in_rev. reflexivity. Qed.

Lemma first_seen_NoDup (l : list nat) : NoDup (first_seen l).
Proof. unfold first_seen. apply NoDup_rev, NoDup_nodup. Qed.

Lemma first_seen_snoc (l : list nat) (c : nat) :
  first_seen (l ++ [c])
  = if negb (existsb (Nat.eqb c) (first_seen l)) then first_seen l ++ [c]
    else first_seen l.
Proof.
  unfold first_seen at 1. rewrite rev_app_distr. cbn [rev app nodup].
  destruct (in_dec Nat.eq_dec c (rev l)) as [Hin|Hnot].
  - replace (existsb (Nat.eqb c) (first_seen l)) with true; [reflexivity|].
    symmetry. apply existsb_eqb_In. apply (proj2 (first_seen_In l c)).
    apply (proj2 (in_rev l c)). exact Hin.
  - replace (existsb (Nat.eqb c) (first_seen l)) with false; [reflexivity|].
    symmetry. apply not_true_is_false. intros E.
    apply existsb_eqb_In in E. apply (proj1 (first_seen_In l c)) in E.
    apply Hnot. apply (proj1 (in_rev l c)). exact E.
Qed.

Section RandomTour.

Variable self : Env_tsp.

Definition complete (l : list nat) : Prop :=
  forall c, In c l <-> c < city_t self.

Lemma set_eqb_complete (tour : list nat) :
  set_eqb tour (seq 0 (city_t self)) = true <-> complete tour.
Proof.
  rewrite set_eqb_true. unfold complete.
  split; intros Hc c; rewrite (Hc c), in_seq; split; intros; lia.
Qed.

Lemma complete_first_seen (l : list nat) : complete (first_seen l) <-> complete l.
Proof.
  unfold complete. split; intros Hc c; rewrite <- (Hc c), first_seen_In; reflexivity.
Qed.

Lemma complete_Permutation (l : list nat) :
  complete l -> Permutation (first_seen l) (seq 0 (city_t self)).
Proof.
  intros Hc. apply NoDup_Permutation.
  - apply first_seen_NoDup.
  - apply seq_NoDup.
  - intros c. rewrite first_seen_In, (Hc c), in_seq. split; intros; lia.
Qed.

(** The loop, started after the draws [pre]. *)
Lemma random_tour_loop_sound (draws pre tour rest : list nat) :
  random_tour_loop self draws (first_seen pre) = Some (tour, rest) ->
  exists used, draws = used ++ rest /\ tour = first_seen (pre ++ used) /\
    complete (pre ++ used) /\
    forall k, k < length used -> ~ complete (pre ++ firstn k used).
Proof.
  revert pre. induction draws as [|c draws IH]; intros pre; cbn [random_tour_loop].
  - destruct (set_eqb (first_seen pre) _) eqn:E; [|discriminate].
    intros [= <- <-]. exists []. rewrite !app_nil_r.
    apply (proj1 (set_eqb_complete _)) in E. apply (proj1 (complete_first_seen _)) in E.
    split; [reflexivity|]. split; [reflexivity|]. split; [exact E|]. intros k Hk. simpl in Hk. lia.
  - destruct (set_eqb (first_seen pre) _) eqn:E.
    + intros [= <- <-]. exists []. rewrite !app_nil_r.
    apply (proj1 (set_eqb_complete _)) in E. apply (proj1 (complete_first_seen _)) in E.
      split; [reflexivity|]. split; [reflexivity|]. split; [exact E|]. intros k Hk. simpl in Hk. lia.
    + rewrite <- first_seen_snoc. intros Hloop.
      destruct (IH _ Hloop) as (used & Hd & Ht & Hc & Hmin).
      exists (c :: used). rewrite <- app_assoc in Ht, Hc. cbn [app] in Ht, Hc.
      split; [cbn [app]; f_equal; exact Hd|]. split; [exact Ht|]. split; [exact Hc|].
      intros [|k] Hk.
      * cbn [firstn]. rewrite app_nil_r. intros Hcomp.
        apply (proj2 (complete_first_seen _)) in Hcomp.
        apply (proj2 (set_eqb_complete _)) in Hcomp. congruence.
      * cbn [firstn]. specialize (Hmin k ltac:(simpl in Hk; lia)).
        rewrite <- app_assoc in Hmin. exact Hmin.
Qed.

Lemma random_tour_loop_returns (draws pre : list nat) :
  (forall c, c < city_t self -> In c (pre ++ draws)) ->
  Forall (fun c => c < city_t self) (pre ++ draws) ->
  exists tour rest, random_tour_loop self draws (first_seen pre) = Some (tour, rest).
Proof.
  revert pre. induction draws as [|c draws IH]; intros pre Hall Hrange;
    cbn [random_tour_loop].
  - rewrite app_nil_r in *.
    assert (E : set_eqb (first_seen pre) (seq 0 (city_t self)) = true).
    { apply (proj2 (set_eqb_complete _)). apply (proj2 (complete_first_seen _)).
      intros c. split.
      - intros Hc. rewrite Forall_forall in Hrange. apply Hrange, Hc.
      - apply Hall. }
    rewrite E. eexists. eexists. reflexivity.
  - destruct (set_eqb (first_seen pre) _); [eexists; eexists; reflexivity|].
    rewrite <- first_seen_snoc. apply IH; rewrite <- app_assoc; assumption.
Qed.

(** X14.  What [get_random_tour] returns is a permutation of the cities:
    the cities in the order in which they were first drawn.  It stops
    at the first draw that completes the set and leaves the later draws
    unread. *)
Theorem get_random_tour_first_draws (draws tour rest : list nat) :
  get_random_tour self draws = Some (tour, rest) ->
  Permutation tour (seq 0 (city_t self)) /\
  exists used, draws = used ++ rest /\
    tour = rev (nodup Nat.eq_dec (rev used)) /\
    (forall c, In c used -> c < city_t self) /\
    forall k, k < length used ->
      exists c, c < city_t self /\ ~ In c (firstn k used).
Proof.
  unfold get_random_tour. change (@nil nat) with (first_seen []) at 1.
  intros Hloop. destruct (random_tour_loop_sound _ _ Hloop) as (used & Hd & Ht & Hc & Hmin).
  cbn [app] in Ht, Hc, Hmin. split.
  - rewrite Ht. apply complete_Permutation, Hc.
  - exists used. split; [exact Hd|]. split; [exact Ht|]. split.
    + intros c Hin. apply Hc, Hin.
    + intros k Hk. specialize (Hmin k Hk).
      destruct (Exists_dec (fun c => ~ In c (firstn k used)) (seq 0 (city_t self)))
        as [Hex|Hno].
      * intros c. destruct (in_dec Nat.eq_dec c (firstn k used)); [right|left]; tauto.
      * apply Exists_exists in Hex. destruct Hex as (c & Hcs & Hnot).
        exists c. split; [apply in_seq in Hcs; lia|exact Hnot].
      * exfalso. apply Hmin. intros c. split.
        -- intros Hin. apply Hc. rewrite <- (firstn_skipn k used).
           apply in_or_app. left. exact Hin.
        -- intros Hlt. destruct (in_dec Nat.eq_dec c (firstn k used)) as [Hin|Hnot];
             [exact Hin|].
           exfalso. apply Hno, Exists_exists. exists c.
           split; [apply in_seq; lia|exact Hnot].
Qed.

(** X15.  [get_random_tour] returns as soon as every city has been drawn;
    with no city at all it returns the empty tour without drawing. *)
Theorem get_random_tour_returns (draws : list nat) :
  Forall (fun c => c < city_t self) draws ->
  (forall c, c < city_t self -> In c draws) ->
  (exists tour rest, get_random_tour self draws = Some (tour, rest)) /\
  (city_t self = 0 -> get_random_tour self draws = Some ([], draws)).
Proof.
  intros Hrange Hall. split.
  - unfold get_random_tour. change (@nil nat) with (first_seen []) at 1.
    apply random_tour_loop_returns; assumption.
  - intros E0. unfold get_random_tour. destruct draws; cbn [random_tour_loop];
      rewrite E0; reflexivity.
Qed.



End RandomTour.

Section RandomTourBatch.

Context {D : Type} `{Scalar D}.
Variable self : Env_tsp.


End RandomTourBatch.

(** *** [get_optimal_tour] in exact arithmetic: ties go to the lexicographically first tour *)

(** [a <= b] on Python lists: not [b < a]. *)
Definition list_le (a b : list nat) : Prop := list_ltb b a = false.

Lemma list_ltb_irrefl (a : list nat) : list_ltb a a = false.
Proof.
  induction a as [|x a IH]; [reflexivity|].
  cbn [list_ltb]. rewrite Nat.eqb_refl. exact IH.
Qed.

Lemma list_ltb_asym (a b : list nat) : list_ltb a b = true -> list_ltb b a = false.
Proof.
  revert b. induction a as [|x a IH]; intros [|y b]; cbn [list_ltb]; try congruence.
  destruct (Nat.eqb_spec x y) as [->|Hne].
  - rewrite Nat.eqb_refl. apply IH.
  - destruct (Nat.eqb_spec y x); [congruence|].
    intros Hlt. apply Nat.ltb_lt in Hlt. apply Nat.ltb_ge. lia.
Qed.

Lemma list_le_trans (a b c : list nat) : list_le a b -> list_le b c -> list_le a c.
Proof.
  unfold list_le. revert b c.
  induction a as [|x a IH]; intros b c Hab Hbc.
  - destruct c; reflexivity.
  - destruct b as [|y b]; [discriminate|].
    destruct c as [|z c]; [discriminate|].
    cbn [list_ltb] in *.
    destruct (Nat.eqb_spec y x) as [->|Hyx].
    + destruct (Nat.eqb_spec z x) as [->|Hzx]; [eapply IH; eassumption|exact Hbc].
    + apply Nat.ltb_ge in Hab.
      destruct (Nat.eqb_spec z y) as [->|Hzy].
      * destruct (Nat.eqb_spec y x); [congruence|]. apply Nat.ltb_ge. exact Hab.
      * apply Nat.ltb_ge in Hbc.
        destruct (Nat.eqb_spec z x); [lia|]. apply Nat.ltb_ge. lia.
Qed.

Lemma list_le_cons (x : nat) (a b : list nat) : list_le a b -> list_le (x :: a) (x :: b).
Proof. unfold list_le. cbn [list_ltb]. rewrite Nat.eqb_refl. auto. Qed.

Section Lex.

Context {D : Type} `{ScalarLaws D}.

(** Two more laws of the order, which the reals and the integers have:
    it is antisymmetric, and adding a number keeps a strict inequality. *)
Hypothesis sle_antisym : forall a b : D, sle a b -> sle b a -> a = b.
Hypothesis sadd_strict :
  forall a b c : D, sltb a b = true -> sltb (sadd c a) (sadd c b) = true.

Lemma seqb_true (a b : D) : seqb a b = true <-> a = b.
Proof. split; [apply seqb_eq|intros ->; apply seqb_refl]. Qed.

Lemma tuple_ltb_irrefl (a : entry D) : tuple_ltb a a = false.
Proof. unfold tuple_ltb. rewrite seqb_refl. apply list_ltb_irrefl. Qed.

Lemma tuple_ltb_same (a b : entry D) :
  fst a = fst b -> tuple_ltb a b = list_ltb (snd a) (snd b).
Proof. intros E. unfold tuple_ltb. rewrite E, seqb_refl. reflexivity. Qed.

Lemma tuple_ltb_other (a b : entry D) :
  fst a <> fst b -> tuple_ltb a b = sltb (fst a) (fst b).
Proof.
  intros E. unfold tuple_ltb. destruct (seqb (fst a) (fst b)) eqn:Es; [|reflexivity].
  apply seqb_eq in Es. contradiction.
Qed.

Lemma fst_eq_dec (a b : entry D) : fst a = fst b \/ fst a <> fst b.
Proof.
  destruct (seqb (fst a) (fst b)) eqn:E.
  - left. apply seqb_eq, E.
  - right. intros Heq. rewrite Heq, seqb_refl in E. discriminate.
Qed.

Lemma tuple_ltb_asym (a b : entry D) : tuple_ltb a b = true -> tuple_ltb b a = false.
Proof.
  destruct (fst_eq_dec a b) as [E|E].
  - rewrite (tuple_ltb_same a b E), (tuple_ltb_same b a (eq_sym E)).
    apply list_ltb_asym.
  - rewrite (tuple_ltb_other a b E), (tuple_ltb_other b a (not_eq_sym E)).
    apply sltb_asym.
Qed.

(** [a <= b] on the tuples: not [b < a]. *)
Definition tuple_le (a b : entry D) : Prop := tuple_ltb b a = false.

Lemma tuple_le_trans (a b c : entry D) : tuple_le a b -> tuple_le b c -> tuple_le a c.
Proof.
  unfold tuple_le. intros Hab Hbc.
  assert (Hs1 : sle (fst a) (fst b)) by (apply tuple_ltb_false, Hab).
  assert (Hs2 : sle (fst b) (fst c)) by (apply tuple_ltb_false, Hbc).
  destruct (fst_eq_dec c a) as [Eca|Eca].
  - rewrite (tuple_ltb_same c a Eca).
    assert (Eab : fst a = fst b).
    { apply sle_antisym; [exact Hs1|]. rewrite <- Eca. exact Hs2. }
    rewrite (tuple_ltb_same b a (eq_sym Eab)) in Hab.
    rewrite (tuple_ltb_same c b (eq_trans Eca Eab)) in Hbc.
    exact (list_le_trans Hab Hbc).
  - rewrite (tuple_ltb_other c a Eca). eapply sle_trans; eassumption.
Qed.

Lemma min_loop_least (l : list (entry D)) (b0 : entry D) :
  let b := fold_left (fun best y => if tuple_ltb y best then y else best) l b0 in
  tuple_le b b0 /\ forall x, In x l -> tuple_le b x.
Proof.
  revert b0. induction l as [|y l IH]; intros b0; cbn [fold_left].
  - split; [apply tuple_ltb_irrefl|intros x []].
  - set (b1 := if tuple_ltb y b0 then y else b0).
    destruct (IH b1) as (H1 & H2).
    assert (Hb1 : tuple_le b1 b0 /\ tuple_le b1 y).
    { unfold b1, tuple_le. destruct (tuple_ltb y b0) eqn:E.
      - split; [apply tuple_ltb_asym, E|apply tuple_ltb_irrefl].
      - split; [apply tuple_ltb_irrefl|exact E]. }
    destruct Hb1 as [Hb0 Hy]. split.
    + eapply tuple_le_trans; eassumption.
    + intros x [<-|Hx]; [eapply tuple_le_trans; eassumption|apply H2, Hx].
Qed.

Lemma py_min_least (l : list (entry D)) (b : entry D) :
  py_min l = Ok b -> forall x, In x l -> tuple_ltb x b = false.
Proof.
  destruct l as [|x0 l]; [discriminate|]. cbn [py_min]. intros [= <-].
  destruct (min_loop_least l x0) as (H1 & H2).
  intros x [<-|Hx]; [exact H1|apply H2, Hx].
Qed.

Lemma sle_strict (a b : D) : sle a b -> a <> b -> sltb a b = true.
Proof.
  intros Hle Hne. destruct (sltb a b) eqn:E; [reflexivity|].
  exfalso. apply Hne. apply sle_antisym; assumption.
Qed.

Variable nodes : list (point D).

Local Abbreviation n := (length nodes).
Local Abbreviation d := (all_distances nodes).

(** Among the shortest paths of its key an entry holds the first in
    the lexicographic order. *)
Definition lexmin (j : nat) (R : list nat) (v : entry D) : Prop :=
  forall q', Permutation q' R -> path_cost nodes 0 j q' = fst v ->
    list_le (snd v) (j :: q').

Definition best_path (k : key) (v : entry D) : Prop :=
  sound nodes (fst k) (snd k) v /\ lexmin (fst k) (snd k) v.

Definition table_lex (r : nat) (A : dict D) : Prop :=
  (forall k v, In (k, v) A -> good nodes r k /\ best_path k v) /\
  (forall k, good nodes r k -> has A k).

Lemma table_lex_inv (r : nat) (A : dict D) : table_lex r A -> table_inv nodes r A.
Proof.
  intros [HA Hhas]. split; [|exact Hhas].
  intros k v Hin. destruct (HA k v Hin) as [Hg [Hs _]]. split; assumption.
Qed.

Lemma init_table_lex :
  1 <= n -> exists A0, init_table d = Ok A0 /\ table_lex 0 A0.
Proof.
  intros Hn. destruct (init_table_inv nodes Hn) as (A0 & HA0 & HQ & Hhas).
  exists A0. split; [exact HA0|]. split; [|exact Hhas].
  intros k v Hin. destruct (HQ k v Hin) as [Hg Hs]. split; [exact Hg|].
  split; [exact Hs|].
  destruct Hg as (_ & _ & Hl & _). apply length_zero_iff_nil in Hl.
  destruct Hs as (q & Hq1 & Hq2 & _). rewrite Hl in Hq2.
  apply Permutation_sym, Permutation_nil in Hq2. subst q.
  intros q' Hq' _. rewrite Hl in Hq'.
  apply Permutation_sym, Permutation_nil in Hq'. subst q'.
  rewrite Hq1. apply list_ltb_irrefl.
Qed.

(** What the generator under [min] yields for [k], with the order. *)
Definition extends_lex (j : nat) (R : list nat) (k : nat) (y : entry D) : Prop :=
  exists c q, y = (sadd (dm nodes j k) c, j :: k :: q) /\
              Permutation q (set_remove k R) /\ c = path_cost nodes 0 k q /\
              (forall q', Permutation q' (set_remove k R) ->
                 sle c (path_cost nodes 0 k q')) /\
              (forall q', Permutation q' (set_remove k R) ->
                 path_cost nodes 0 k q' = c -> list_le (k :: q) (k :: q')).

Lemma candidate_lex (r : nat) (A : dict D) (j k : nat) (R : list nat) :
  table_lex r A -> good nodes (S r) (j, R) -> In k R ->
  exists y, candidate d A j R k = Ok y /\ extends_lex j R k y.
Proof.
  intros [HA Hhas] Hg Hk. unfold candidate.
  assert (Hb : 1 <= k < n) by (eapply good_bounds; eassumption).
  assert (Hj : 1 <= j < n) by (destruct Hg as (_ & _ & _ & Hj & _); exact Hj).
  rewrite index2_dm by lia. cbn [bind].
  assert (Hgr : good nodes r (k, set_remove k R)) by (eapply good_remove; eassumption).
  destruct (Hhas _ Hgr) as [v Hv]. rewrite Hv. cbn [bind].
  apply dict_get_In, HA in Hv.
  destruct Hv as [_ [(q & Hq1 & Hq2 & Hq3 & Hq4) Hlex]].
  cbn [fst snd] in *. eexists. split; [reflexivity|].
  exists (fst v), q. rewrite Hq1. repeat split; try assumption.
  intros q' Hq' Hc. rewrite <- Hq1. apply Hlex; assumption.
Qed.

(** A shortest path through [R] continues with a shortest path. *)
Lemma shortest_tail (j k : nat) (c opt : D) (q : list nat) :
  sle c (path_cost nodes 0 k q) ->
  sle opt (sadd (dm nodes j k) c) ->
  opt = sadd (dm nodes j k) (path_cost nodes 0 k q) ->
  c = path_cost nodes 0 k q.
Proof.
  intros Hc Hopt Eopt.
  destruct (seqb c (path_cost nodes 0 k q)) eqn:E; [apply seqb_eq, E|].
  exfalso.
  assert (Hne : c <> path_cost nodes 0 k q).
  { intros Heq. rewrite Heq, seqb_refl in E. discriminate. }
  pose proof (sadd_strict _ _ (dm nodes j k) (sle_strict Hc Hne)) as Hlt.
  rewrite <- Eopt in Hlt. unfold sle in Hopt. congruence.
Qed.

(** The entry [min] selects among the candidates of one key. *)
Lemma least_of_candidates (j : nat) (R : list nat) (cands : list (entry D))
    (best : entry D) :
  increasing R -> R <> [] ->
  Forall2 (extends_lex j R) R cands ->
  py_min cands = Ok best -> In best cands ->
  (forall x, In x cands -> sle (fst best) (fst x)) ->
  lexmin j R best.
Proof.
  intros HRi HRne HF Hbest Hin Hmin q' Hq' Hcost.
  destruct q' as [|k' q''].
  { apply Permutation_nil in Hq'. congruence. }
  assert (Hk' : In k' R) by (apply (Permutation_in _ Hq'); left; reflexivity).
  assert (Hq'' : Permutation q'' (set_remove k' R)).
  { apply (Permutation_cons_inv (a := k')).
    rewrite Hq'. apply set_remove_Permutation; assumption. }
  destruct (Forall2_In_l k' HF Hk') as (y & Hy & c' & p' & -> & _ & Hc' & Hmin' & Hlex').
  cbn [path_cost] in Hcost.
  assert (Ec : c' = path_cost nodes 0 k' q'').
  { apply (@shortest_tail j k' c' (fst best) q'').
    - apply Hmin', Hq''.
    - apply (Hmin _ Hy).
    - symmetry. exact Hcost. }
  pose proof (py_min_least _ Hbest _ Hy) as Hle.
  rewrite tuple_ltb_same in Hle by (cbn [fst]; rewrite Ec; exact Hcost).
  cbn [snd] in Hle.
  apply (list_le_trans (b := j :: k' :: p')); [exact Hle|].
  apply list_le_cons. apply Hlex'; [exact Hq''|symmetry; exact Ec].
Qed.

Lemma best_lex (r : nat) (A : dict D) (j : nat) (R : list nat) :
  table_lex r A -> good nodes (S r) (j, R) ->
  exists best, (cands <- mapM (candidate d A j R) R ;; py_min cands) = Ok best /\
               best_path (j, R) best.
Proof.
  intros HA Hg.
  destruct (best_ok (table_lex_inv HA) Hg) as (best & Hbest & Hs).
  exists best. split; [exact Hbest|]. split; [exact Hs|]. cbn [fst snd].
  destruct (mapM_rel (candidate d A j R) (extends_lex j R) R) as (cands & Hc & HF).
  { intros k Hk. eapply candidate_lex; eassumption. }
  rewrite Hc in Hbest. cbn [bind] in Hbest.
  assert (HR : increasing R /\ length R = S r).
  { destruct Hg as (H1 & _ & H3 & _). split; assumption. }
  destruct HR as [HRi HRl].
  assert (HRne : R <> []) by (intros ->; discriminate).
  assert (Hne : cands <> []).
  { intros ->. inversion HF as [E|]. subst R. discriminate. }
  destruct (py_min_spec Hne) as (best' & Hbest' & Hin & Hmin).
  assert (best' = best) by congruence. subst best'.
  eapply least_of_candidates; eassumption.
Qed.

Lemma fill_lex (r : nat) (A B : dict D) (S : list nat) (j : nat) :
  table_lex r A -> good nodes (Datatypes.S r) (j, set_remove j S) ->
  exists v, fill d A S (Ok B) j = Ok (dict_set B (j, set_remove j S) v) /\
            good nodes (Datatypes.S r) (j, set_remove j S) /\
            best_path (j, set_remove j S) v.
Proof.
  intros HA Hg. destruct (best_lex HA Hg) as (best & Hbest & Hs).
  exists best. split; [|split; assumption].
  unfold fill. cbn [bind].
  destruct (mapM (candidate d A j (set_remove j S)) (set_remove j S)) as [cands|e];
    cbn [bind] in *; [|discriminate].
  rewrite Hbest. reflexivity.
Qed.

Lemma layer_lex (r : nat) (A : dict D) :
  table_lex r A ->
  exists B, layer d n (Ok A) (r + 2) = Ok B /\ table_lex (S r) B.
Proof.
  intros HA. unfold layer. cbn [bind].
  rewrite (fold_left_nested (fun S acc j => fill d A S acc j) (fun S => S)).
  set (pairs := flat_map (fun S => map (pair S) S) (combinations (seq 1 (n - 1)) (r + 2))).
  assert (Hpairs : forall p, In p pairs <->
            increasing (fst p) /\ incl (fst p) (seq 1 (n - 1)) /\
            length (fst p) = r + 2 /\ In (snd p) (fst p)).
  { intros [S j]. unfold pairs. rewrite in_flat_map. cbn [fst snd]. split.
    - intros (S' & HS' & Hin). apply in_map_iff in Hin.
      destruct Hin as (j' & [= -> ->] & Hj).
      apply (combinations_spec (increasing_seq 1 (n - 1))) in HS'.
      destruct HS' as (H1 & H2 & H3). auto.
    - intros (H1 & H2 & H3 & H4). exists S. split.
      + apply (combinations_spec (increasing_seq 1 (n - 1))). auto.
      + apply in_map. exact H4. }
  assert (Hkey : forall p, In p pairs ->
            good nodes (S r) (snd p, set_remove (snd p) (fst p))).
  { intros [S j] Hp. apply Hpairs in Hp. cbn [fst snd] in *.
    destruct Hp as (H1 & H2 & H3 & H4). repeat split; cbn [fst snd].
    - apply set_remove_increasing, H1.
    - intros x Hx. apply set_remove_In in Hx. apply H2, Hx.
    - assert (Datatypes.S (length (set_remove j S)) = length S)
        by (apply set_remove_length; assumption). lia.
    - apply H2, in_seq in H4. lia.
    - apply H2, in_seq in H4. lia.
    - intros Hin. apply set_remove_In in Hin. destruct Hin as [_ Hne]. congruence. }
  destruct (dict_fold (fun acc p => fill d A (fst p) acc (snd p))
              (fun p => (snd p, set_remove (snd p) (fst p)))
              (fun k v => good nodes (S r) k /\ best_path k v) pairs)
    with (B0 := @nil (key * entry D)) as (B & HB & HQ & Hhas).
  - intros p B Hp. apply fill_lex; [exact HA|apply Hkey, Hp].
  - intros k v [].
  - exists B. split; [exact HB|]. split; [exact HQ|].
    intros [j R] Hg. apply Hhas. right. apply in_map_iff.
    exists (set_add j R, j). destruct Hg as (H1 & H2 & H3 & H4 & H5).
    cbn [fst snd] in *. split.
    + rewrite set_remove_add by exact H5. reflexivity.
    + apply Hpairs. cbn [fst snd]. repeat split.
      * apply set_add_increasing; assumption.
      * intros x Hx. apply set_add_In in Hx. destruct Hx as [->|Hx]; [|apply H2, Hx].
        apply in_seq. lia.
      * rewrite set_add_length. lia.
      * apply set_add_In. left. reflexivity.
Qed.

Lemma layers_lex (A0 : dict D) (t : nat) :
  table_lex 0 A0 ->
  exists A, fold_left (layer d n) (seq 2 t) (Ok A0) = Ok A /\ table_lex t A.
Proof.
  intros H0'. induction t as [|t (A & HA & Hinv)].
  - exists A0. split; [reflexivity|exact H0'].
  - destruct (layer_lex Hinv) as (B & HB & HBinv).
    exists B. rewrite seq_S, fold_left_app, HA. cbn [fold_left].
    replace (2 + t) with (t + 2) by lia. split; assumption.
Qed.

(** The pair [res]: the first, in the lexicographic order, of the
    shortest tours that start at city 0. *)
Lemma get_optimal_res_lex :
  2 <= n ->
  exists c q, get_optimal_res nodes = Ok (c, 0 :: q) /\
    Permutation q (seq 1 (n - 1)) /\ c = path_cost nodes 0 0 q /\
    (forall q', Permutation q' (seq 1 (n - 1)) -> sle c (path_cost nodes 0 0 q')) /\
    forall q', Permutation q' (seq 1 (n - 1)) -> path_cost nodes 0 0 q' = c ->
      list_le (0 :: q) (0 :: q').
Proof.
  intros Hn.
  destruct (get_optimal_res_spec nodes Hn) as (c & q & Hres & Hq & Hcost & Hmin).
  exists c, q. split; [exact Hres|]. split; [exact Hq|]. split; [exact Hcost|].
  split; [exact Hmin|].
  revert Hres. unfold get_optimal_res.
  destruct init_table_lex as (A0 & HA0 & Hinv0); [lia|].
  rewrite HA0. cbn [bind]. rewrite all_distances_length.
  destruct (layers_lex (n - 2) Hinv0) as (A & HA & [HQ Hhas]).
  rewrite HA. cbn [bind].
  set (g := fun kv : key * entry D =>
              (sadd (dm nodes 0 (fst (fst kv))) (fst (snd kv)), 0 :: snd (snd kv))).
  rewrite (mapM_ok (closing d) g).
  2:{ intros [k v] Hin. destruct (HQ k v Hin) as [(_ & _ & _ & Hk & _) _].
      unfold closing. cbn [fst snd]. rewrite index2_dm by lia. reflexivity. }
  cbn [bind]. intros Hbest q' Hq' Hc'.
  destruct q' as [|j' q''].
  { apply Permutation_length in Hq'. rewrite length_seq in Hq'. simpl in Hq'. lia. }
  assert (Hj' : In j' (seq 1 (n - 1)))
    by (apply (Permutation_in _ Hq'); left; reflexivity).
  pose proof Hj' as Hb. apply in_seq in Hb.
  assert (Hq'' : Permutation q'' (set_remove j' (seq 1 (n - 1)))).
  { apply (Permutation_cons_inv (a := j')). rewrite Hq'.
    apply set_remove_Permutation; [apply increasing_seq|exact Hj']. }
  assert (Hkey : good nodes (n - 2) (j', set_remove j' (seq 1 (n - 1)))).
  { repeat split; cbn [fst snd]; try lia.
    - apply set_remove_increasing, increasing_seq.
    - intros x Hx. apply set_remove_In in Hx. apply Hx.
    - assert (S (length (set_remove j' (seq 1 (n - 1)))) = length (seq 1 (n - 1)))
        by (apply set_remove_length; [apply increasing_seq|exact Hj']).
      rewrite length_seq in *. lia.
    - intros Hx. apply set_remove_In in Hx. destruct Hx as [_ Hne]. congruence. }
  destruct (Hhas _ Hkey) as [v' Hv']. apply dict_get_In in Hv'.
  destruct (HQ _ _ Hv') as [_ [(p' & Hp1 & Hp2 & Hp3 & Hpmin) Hlex']].
  cbn [fst snd] in Hp1, Hp2, Hp3, Hpmin, Hlex'.
  assert (Hy : In (g ((j', set_remove j' (seq 1 (n - 1))), v')) (map g A))
    by (apply in_map; exact Hv').
  cbn [path_cost] in Hc'.
  assert (Ec : fst v' = path_cost nodes 0 j' q'').
  { apply (@shortest_tail 0 j' (fst v') c q'').
    - apply Hpmin, Hq''.
    - rewrite Hp3. change (sle c (path_cost nodes 0 0 (j' :: p'))).
      apply Hmin. rewrite Hp2. apply Permutation_sym.
      apply set_remove_Permutation; [apply increasing_seq|exact Hj'].
    - symmetry. exact Hc'. }
  pose proof (py_min_least _ Hbest _ Hy) as Hle.
  rewrite tuple_ltb_same in Hle
    by (unfold g; cbn [fst snd]; rewrite Ec; exact Hc').
  unfold g in Hle. cbn [fst snd] in Hle.
  apply (list_le_trans (b := 0 :: snd v')); [exact Hle|].
  apply list_le_cons. apply Hlex'; [exact Hq''|symmetry; exact Ec].
Qed.

End Lex.

Lemma sle_antisym_R (a b : R) : sle a b -> sle b a -> a = b.
Proof.
  unfold sle. cbn [sltb Scalar_R]. intros H1 H2.
  apply Rltb_false in H1, H2. lra.
Qed.

Lemma sadd_strict_R (a b c : R) :
  sltb a b = true -> sltb (sadd c a) (sadd c b) = true.
Proof.
  cbn [sltb sadd Scalar_R]. intros Hlt. apply Rltb_true in Hlt.
  apply Rltb_true. lra.
Qed.

(** X27.  Run on the instance of [__main__], [get_optimal_tour] returns the
    tour [[0, 1, 2, 3]]: of the two tours of length 12 it is the first. *)
Theorem main_instance_tour : get_optimal_tour main_nodes = Ok [0; 1; 2; 3].
Proof.
  destruct (get_optimal_res_lex sle_antisym_R sadd_strict_R main_nodes)
    as (c & q & Hres & Hq & Hcost & Hmin & Hlex); [simpl; lia|].
  change (seq 1 (length main_nodes - 1)) with [1; 2; 3] in *.
  assert (H123 : Permutation [1; 2; 3] [1; 2; 3]) by apply Permutation_refl.
  pose proof sqrt_10_bounds as Hs.
  destruct (main_path_cost H123) as [[_ E]|(Hne & _)]; [|congruence].
  assert (Hc12 : c = 12%R /\ (q = [1; 2; 3] \/ q = [3; 2; 1])).
  { pose proof (Hmin _ H123) as Hle. apply Rltb_false in Hle. rewrite E in Hle.
    destruct (main_path_cost Hq) as [[Hor E']|(_ & _ & E')].
    - split; [congruence|exact Hor].
    - rewrite <- Hcost in E'. lra. }
  destruct Hc12 as [-> [-> | ->]].
  - unfold get_optimal_tour. rewrite Hres. reflexivity.
  - specialize (Hlex _ H123 E). discriminate Hlex.
Qed.

(** *** [stack_l_fast] on any sequence of cities *)

Section FastAnyTour.

Context {D : Type} `{Scalar D}.

(** X28.  [stack_l_fast] agrees with [stack_l] on any sequences of city
    indices, permutations or not (a city may repeat): it returns what
    [stack_l] returns under the configuration whose batch size and
    [city_t] are the dimensions of [tours]. *)
Theorem stack_l_fast_any_tour (inputs : list (list (point D)))
    (tours : list (list nat)) (m : nat) :
  1 <= length tours -> 1 <= m -> length inputs = length tours ->
  (forall i, i < length tours ->
     length (nth i tours []) = m /\
     forall a, In a (nth i tours []) -> a < length (nth i inputs [])) ->
  exists l,
    stack_l_fast inputs tours = Ok l /\
    stack_l {| batch := length tours; city_t := m |} inputs tours = Ok l /\
    length l = length tours.
Proof.
  intros Hb Hm Hli Hrows.
  destruct (stack_l_both {| batch := length tours; city_t := m |} inputs tours)
    as (H1 & H2 & H3); try assumption; try reflexivity.
  eexists. split; [exact H2|]. split; [exact H1|exact H3].
Qed.

End FastAnyTour.

(** ** Instances of the further properties *)

Definition triangle_env : Env_tsp := {| batch := 1; city_t := 3 |}.

Definition triangle_Z : list (point Z) := [(0, 0); (3, 0); (3, 4)]%Z.

Definition triangle_R : list (point R) := [(0, 0); (3, 0); (3, 4)]%R.

Lemma get_tour_distance_rotation_witness :
  exists l,
    get_tour_distance triangle_env triangle_Z ([2] ++ [0; 1]) = Ok l /\
    get_tour_distance triangle_env triangle_Z ([0; 1] ++ [2]) = Ok l.
Proof.
  apply (@get_tour_distance_rotation Z _ _ triangle_env triangle_Z [2] [0; 1]).
  - reflexivity.
  - cbn [app]. intros a [<-|[<-|[<-|[]]]]; simpl; lia.
Defined.

Lemma get_tour_distance_reverse_witness :
  exists l,
    get_tour_distance triangle_env triangle_R [0; 1; 2] = Ok l /\
    get_tour_distance triangle_env triangle_R (rev [0; 1; 2]) = Ok l.
Proof.
  apply (get_tour_distance_reverse triangle_env triangle_R [0; 1; 2]).
  - reflexivity.
  - intros a [<-|[<-|[<-|[]]]]; simpl; lia.
Defined.

Lemma get_tour_distance_nonneg_witness :
  (0 <= 0 + sqrt ((0 - 0) * (0 - 0) + (0 - 0) * (0 - 0)))%R.
Proof.
  apply (@get_tour_distance_nonneg {| batch := 1; city_t := 1 |} [(0, 0)%R] [0]).
  reflexivity.
Defined.

Lemma shuffle_reorders_witness :
  exists out,
    shuffle triangle_env [[2; 0; 1]] [triangle_Z] = Ok out /\
    length out = 1 /\
    (forall i, i < 1 ->
       nth i out [] = map (fun a => nth a (nth i [triangle_Z] []) (0, 0)%Z)
                          (nth i [[2; 0; 1]] []) /\
       Permutation (nth i out []) (nth i [triangle_Z] [])) /\
    (forall i, 1 <= i < 1 ->
       nth i out [] = map (fun _ => (0, 0)%Z) (nth i [triangle_Z] [])).
Proof.
  refine (@shuffle_reorders Z _ triangle_env [[2; 0; 1]] [triangle_Z] _ _ _).
  - simpl. lia.
  - reflexivity.
  - intros [|i] Hi; [|simpl in Hi; lia]. split; [reflexivity|].
    apply (Permutation_cons_app [0; 1] [] 2), Permutation_refl.
Defined.

Lemma shuffle_short_batch_witness :
  shuffle {| batch := 2; city_t := 1 |} [[0]; [0]] [[(0, 0)%Z]] = Err IndexError.
Proof.
  apply (@shuffle_short_batch Z _ {| batch := 2; city_t := 1 |} [[0]; [0]] [[(0, 0)%Z]]).
  - simpl. lia.
  - reflexivity.
  - intros nodes [<-|[]]. reflexivity.
  - intros perm [<-|[<-|[]]]; apply Permutation_refl.
Defined.

Lemma triangle_Z_NoDup : NoDup triangle_Z.
Proof.
  unfold triangle_Z. repeat constructor; simpl; intuition discriminate.
Qed.

Lemma shuffle_back_tours_witness :
  exists shuffle_inputs,
    shuffle triangle_env [[2; 0; 1]] [triangle_Z] = Ok shuffle_inputs /\
    back_tours triangle_env [[1; 2; 0]] shuffle_inputs [triangle_Z]
    = Ok (map (fun i => map (fun a => nth a (nth i [[2; 0; 1]] []) 0)
                            (nth i [[1; 2; 0]] []))
              (seq 0 1)).
Proof.
  apply (@shuffle_back_tours Z _ _ triangle_env [[2; 0; 1]] [[1; 2; 0]] [triangle_Z]);
    try reflexivity; try (simpl; lia).
  intros [|i] Hi; [|simpl in Hi; lia]. cbn [nth].
  split; [reflexivity|]. split; [exact triangle_Z_NoDup|].
  split; [apply (Permutation_cons_app [0; 1] [] 2), Permutation_refl|].
  split; [reflexivity|].
  intros a [<-|[<-|[<-|[]]]]; simpl; lia.
Defined.

Lemma back_tours_drops_unmatched_witness :
  back_tours {| batch := 1; city_t := 2 |} [[0; 1]]
    [[(0, 0); (9, 9)]]%Z [[(0, 0); (3, 4)]]%Z = Err RuntimeError.
Proof.
  refine (proj1 (@back_tours_drops_unmatched Z _ _ {| batch := 1; city_t := 2 |}
                   [[0; 1]] [[(0, 0); (9, 9)]]%Z [[(0, 0); (3, 4)]]%Z _ _) _).
  - simpl. lia.
  - intros [|i] Hi; [|simpl in Hi; lia]. unfold well_shaped. cbn [nth length city_t].
    repeat split; try lia. intros a [<-|[<-|[]]]; lia.
  - reflexivity.
Defined.

Lemma stack_l_fast_errors_witness :
  stack_l_fast [[(0, 0); (3, 4)]]%Z [[0; 5]] = Err RuntimeError.
Proof.
  refine (proj1 (proj2 (@stack_l_fast_errors Z _ [[(0, 0); (3, 4)]]%Z [[0; 5]] 2 _))
            _ _ _).
  - intros tour [<-|[]]. reflexivity.
  - simpl. lia.
  - lia.
  - exists 0, 5. cbn [nth length]. repeat split; try lia. right. left. reflexivity.
Defined.

Lemma get_optimal_res_consistent_witness :
  exists c q,
    get_optimal_res triangle_R = Ok (c, 0 :: q) /\
    get_optimal_tour triangle_R = Ok (0 :: q) /\
    length (0 :: q) = length triangle_R /\
    get_tour_distance triangle_env triangle_R (0 :: q) = Ok c.
Proof.
  apply (@get_optimal_res_consistent R _ _ triangle_env triangle_R).
  - simpl. lia.
  - reflexivity.
Defined.

Lemma get_random_tour_first_draws_witness :
  Permutation [1; 0; 2] (seq 0 (city_t triangle_env)) /\
  exists used, [1; 1; 0; 2; 2] = used ++ [2] /\
    [1; 0; 2] = rev (nodup Nat.eq_dec (rev used)) /\
    (forall c, In c used -> c < city_t triangle_env) /\
    forall k, k < length used ->
      exists c, c < city_t triangle_env /\ ~ In c (firstn k used).
Proof.
  apply (@get_random_tour_first_draws triangle_env [1; 1; 0; 2; 2] [1; 0; 2] [2]).
  reflexivity.
Defined.

Lemma get_random_tour_returns_witness :
  (exists tour rest, get_random_tour triangle_env [1; 1; 0; 2; 2] = Some (tour, rest)) /\
  (city_t triangle_env = 0 ->
   get_random_tour triangle_env [1; 1; 0; 2; 2] = Some ([], [1; 1; 0; 2; 2])).
Proof.
  apply (@get_random_tour_returns triangle_env [1; 1; 0; 2; 2]).
  - repeat constructor.
  - intros c Hc. simpl in Hc.
    destruct c as [|[|[|c]]]; simpl; auto; lia.
Defined.


Lemma stack_l_fast_any_tour_witness :
  exists l,
    stack_l_fast [[(0, 0); (3, 4)]]%Z [[0; 0; 1]] = Ok l /\
    stack_l {| batch := length [[0; 0; 1]]; city_t := 3 |}
            [[(0, 0); (3, 4)]]%Z [[0; 0; 1]] = Ok l /\
    length l = length [[0; 0; 1]].
Proof.
  refine (@stack_l_fast_any_tour Z _ [[(0, 0); (3, 4)]]%Z [[0; 0; 1]] 3 _ _ _ _).
  - simpl. lia.
  - lia.
  - reflexivity.
  - intros [|i] Hi; [|simpl in Hi; lia]. split; [reflexivity|].
    intros a [<-|[<-|[<-|[]]]]; simpl; lia.
Defined.

(** ** Further properties of [actor.py] *)

Module ForwardFacts.

Import Actor ActorFacts.
Local Open Scope R_scope.

(** *** [softmax] and [log_softmax] *)

Lemma rsum_exp_pos (u : vec) : u <> [] -> 0 < rsum (map exp u).
Proof.
  induction u as [|x u IH]; intros Hne; [congruence|].
  cbn [map rsum fold_right]. pose proof (exp_pos x) as Hx.
  destruct u as [|y u].
  - cbn [map fold_right]. lra.
  - assert (0 < rsum (map exp (y :: u))) by (apply IH; discriminate).
    unfold rsum in *. lra.
Qed.

Lemma rsum_exp_nonneg (u : vec) : 0 <= rsum (map exp u).
Proof.
  destruct u as [|x u]; [cbn; lra|].
  apply Rlt_le, rsum_exp_pos. discriminate.
Qed.

Lemma exp_le_rsum (u : vec) (j : nat) :
  (j < length u)%nat -> exp (nth j u 0) <= rsum (map exp u).
Proof.
  revert j. induction u as [|x u IH]; intros j Hj; [simpl in Hj; lia|].
  cbn [map rsum fold_right]. pose proof (exp_pos x) as Hx.
  pose proof (rsum_exp_nonneg u) as Hu. unfold rsum in Hu.
  destruct j as [|j]; cbn [nth]; [lra|].
  specialize (IH j ltac:(simpl in Hj; lia)). unfold rsum in IH. lra.
Qed.

Lemma rsum_scale (c : R) (l : vec) :
  rsum (map (fun x => x / c) l) = rsum l / c.
Proof.
  unfold rsum. induction l as [|x l IH]; cbn [map fold_right].
  - unfold Rdiv. ring.
  - rewrite IH. unfold Rdiv. ring.
Qed.




Lemma log_softmax_length (u : vec) : length (log_softmax u) = length u.
Proof. unfold log_softmax. apply length_map. Qed.

Lemma log_softmax_nth (u : vec) (j : nat) :
  (j < length u)%nat ->
  nth j (log_softmax u) 0 = nth j u 0 - ln (rsum (map exp u)).
Proof.
  intros Hj. unfold log_softmax.
  rewrite (nth_indep _ 0 ((fun x => x - ln (rsum (map exp u))) 0))
    by (rewrite length_map; exact Hj).
  exact (map_nth (fun x => x - ln (rsum (map exp u))) u 0 j).
Qed.

Lemma log_softmax_nonpos (u : vec) (j : nat) : nth j (log_softmax u) 0 <= 0.
Proof.
  destruct (Nat.lt_ge_cases j (length u)) as [Hj|Hj].
  - rewrite log_softmax_nth by exact Hj.
    pose proof (exp_le_rsum u Hj) as Hle. pose proof (exp_pos (nth j u 0)) as Hp.
    destruct (Rle_lt_or_eq_dec _ _ Hle) as [Hlt|Heq].
    + pose proof (ln_increasing _ _ Hp Hlt) as Hln. rewrite ln_exp in Hln. lra.
    + rewrite <- Heq, ln_exp. lra.
  - rewrite nth_overflow by (rewrite log_softmax_length; exact Hj). lra.
Qed.

Lemma log_softmax_normalised (u : vec) :
  u <> [] -> rsum (map exp (log_softmax u)) = 1.
Proof.
  intros Hne. pose proof (rsum_exp_pos Hne) as Hz.
  unfold log_softmax. rewrite map_map.
  rewrite (map_ext (fun x => exp (x - ln (rsum (map exp u))))
                   (fun x => exp x / rsum (map exp u))).
  - rewrite <- (map_map exp (fun e => e / rsum (map exp u))), rsum_scale.
    field. lra.
  - intros x. unfold Rminus. rewrite exp_plus, exp_Ropp, exp_ln by exact Hz.
    reflexivity.
Qed.

(** *** [Greedy] *)

Lemma argmax_first (l : vec) (j : nat) :
  (j < argmax l)%nat -> nth j l 0 < nth (argmax l) l 0.
Proof.
  revert j. induction l as [|x l IH]; intros j Hj; [simpl in Hj; lia|].
  destruct l as [|y l]; [simpl in Hj; lia|].
  revert Hj.
  change (argmax (x :: y :: l))
    with (if Rle_dec (nth (argmax (y :: l)) (y :: l) 0) x then 0%nat
          else S (argmax (y :: l))).
  destruct (Rle_dec _ x) as [Hle|Hgt]; intros Hj; [lia|].
  destruct j as [|j].
  - change (x < nth (argmax (y :: l)) (y :: l) 0). lra.
  - change (nth j (y :: l) 0 < nth (argmax (y :: l)) (y :: l) 0).
    apply IH. lia.
Qed.

(** X20.  [Greedy] returns the position of a largest entry, and the first
    such position when the largest value occurs more than once. *)
Theorem Greedy_first_maximum (log_p : vec) :
  log_p <> [] ->
  (Greedy log_p < length log_p)%nat /\
  (forall j, (j < length log_p)%nat -> nth j log_p 0 <= nth (Greedy log_p) log_p 0) /\
  (forall j, (j < Greedy log_p)%nat -> nth j log_p 0 < nth (Greedy log_p) log_p 0).
Proof.
  intros Hne. unfold Greedy. split; [|split].
  - apply argmax_lt. exact Hne.
  - intros j Hj. apply argmax_max. exact Hj.
  - intros j Hj. apply argmax_first. exact Hj.
Qed.

(** *** [glimpse]: a weighted mean of the projected memory *)

Section PointerMore.

Variable self : PtrNet1.




End PointerMore.

(** *** [forward]: the tour, the mask and the log-likelihood *)

Section ForwardMore.

Variable self : PtrNet1.
Variable x : list (R * R).

Local Abbreviation N := (length x).

Lemma step_log_ps (st : loop_state) (u : R) :
  st_log_ps (step self (emb self x) (fst (enc self x)) st u)
  = st_log_ps st ++
    [log_softmax (pointer self (query_of self x st) (fst (enc self x)) (st_mask st))].
Proof. reflexivity. Qed.

Lemma pointer_length (query : vec) (ref : mat) (mask : vec) :
  length mask = length ref -> length (pointer self query ref mask) = length ref.
Proof.
  intros Hm. rewrite pointer_raw, penalize_length; rewrite raw_logits_length; auto.
Qed.

(** Every vector of log-probabilities a round records. *)
Definition log_distribution (n : nat) (lp : vec) : Prop :=
  length lp = n /\ (forall j, nth j lp 0 <= 0) /\ (n <> 0%nat -> rsum (map exp lp) = 1).

Lemma decode_log_ps (us : list R) :
  length (st_log_ps (decode self x us)) = length us /\
  Forall (log_distribution N) (st_log_ps (decode self x us)).
Proof.
  induction us as [|u us [IH1 IH2]] using rev_ind.
  - rewrite decode_fold. cbn [fold_left start st_log_ps]. split; [reflexivity|constructor].
  - rewrite decode_snoc, step_log_ps, !length_app. cbn [length].
    split; [lia|]. apply Forall_app. split; [exact IH2|].
    constructor; [|constructor].
    destruct (mask_counts self x us) as (Hl & _ & _).
    assert (Hlen : length (pointer self (query_of self x (decode self x us))
                             (fst (enc self x)) (st_mask (decode self x us))) = N).
    { rewrite pointer_length; rewrite enc_length; auto. }
    split; [|split].
    + rewrite log_softmax_length. exact Hlen.
    + intros j. apply log_softmax_nonpos.
    + intros HN. apply log_softmax_normalised. intros E. rewrite E in Hlen.
      simpl in Hlen. lia.
Qed.

Lemma get_log_likelihood_nonpos (log_ps : list vec) (pi : list nat) :
  Forall (fun lp => forall j, nth j lp 0 <= 0) log_ps ->
  get_log_likelihood log_ps pi <= 0.
Proof.
  unfold get_log_likelihood, rsum. revert pi.
  induction log_ps as [|lp log_ps IH]; intros pi Hall; [cbn; lra|].
  destruct pi as [|k pi]; [cbn; lra|].
  inversion Hall as [|? ? Hlp Hall']. subst.
  cbn [combine map fold_right fst snd].
  specialize (IH pi Hall'). specialize (Hlp k). lra.
Qed.

(** X24.  Whatever the parameters and the policy, [forward] returns a tour
    with one entry for each city, and the mask is a vector of counters:
    after any number of rounds its entry [k] is the number of times city
    [k] has been selected so far. *)
Theorem forward_mask_counts (us : list R) :
  (1 <= N)%nat ->
  length (fst (forward self x us)) = N /\
  forall rounds k, (k < N)%nat ->
    nth k (st_mask (decode self x rounds)) 0
    = INR (count_occ Nat.eq_dec (st_pi (decode self x rounds)) k).
Proof.
  intros _. split.
  - unfold forward. cbn [fst].
    destruct (mask_counts self x (firstn N (us ++ repeat 0 N))) as (_ & Hp & _).
    rewrite Hp. apply firstn_length_le. rewrite length_app, repeat_length. lia.
  - intros rounds k Hk. destruct (mask_counts self x rounds) as (_ & _ & Hc).
    apply Hc, Hk.
Qed.

(** X25.  Each round records a vector of [N] log-probabilities: none is
    positive and their exponentials sum to 1; hence the log-likelihood
    [forward] returns is never positive. *)
Theorem forward_log_likelihood (us : list R) :
  (1 <= N)%nat ->
  snd (forward self x us) <= 0 /\
  forall rounds lp, In lp (st_log_ps (decode self x rounds)) ->
    length lp = N /\ (forall j, nth j lp 0 <= 0) /\ rsum (map exp lp) = 1.
Proof.
  intros HN. split.
  - unfold forward. cbn [snd]. apply get_log_likelihood_nonpos.
    destruct (decode_log_ps (firstn N (us ++ repeat 0 N))) as [_ Hall].
    eapply Forall_impl; [|exact Hall]. intros lp (_ & Hlp & _). exact Hlp.
  - intros rounds lp Hin. destruct (decode_log_ps rounds) as [_ Hall].
    rewrite Forall_forall in Hall. destruct (Hall lp Hin) as (H1 & H2 & H3).
    split; [exact H1|]. split; [exact H2|]. apply H3. lia.
Qed.

End ForwardMore.

(** *** Greedy decoding *)

Section GreedyRange.

Variable self : PtrNet1.
Variable x : list (R * R).

Local Abbreviation N := (length x).

Hypothesis Hgreedy : city_selecter self = greedy.

Lemma chosen_in_range (us : list R) (u : R) :
  (1 <= N)%nat -> (chosen self x (decode self x us) u < N)%nat.
Proof.
  intros HN. rewrite (chosen_greedy self x Hgreedy).
  destruct (mask_counts self x us) as (Hl & _ & _).
  set (st := decode self x us) in *.
  set (raw := raw_logits self (query_of self x st) (fst (enc self x))).
  assert (Hraw : length raw = N)
    by (unfold raw; rewrite raw_logits_length; apply enc_length).
  assert (Hpl : length (penalize raw (st_mask st)) = N)
    by (rewrite penalize_length; lia).
  rewrite <- Hpl. apply argmax_lt.
  intros E. rewrite E in Hpl. simpl in Hpl. lia.
Qed.

Lemma decode_pi_in_range (us : list R) :
  (1 <= N)%nat -> Forall (fun k => (k < N)%nat) (st_pi (decode self x us)).
Proof.
  intros HN. induction us as [|u us IH] using rev_ind.
  - rewrite decode_fold. cbn [fold_left start st_pi]. constructor.
  - rewrite decode_snoc, step_pi. apply Forall_app. split; [exact IH|].
    constructor; [|constructor]. apply chosen_in_range. exact HN.
Qed.

(** X30.  Under greedy decoding every entry of the tour [forward] returns is
    the index of a city of the instance, whatever the parameters: a
    city may repeat, but no entry is out of range. *)
Theorem forward_greedy_in_range (us : list R) :
  (1 <= N)%nat -> Forall (fun k => (k < N)%nat) (fst (forward self x us)).
Proof. intros HN. unfold forward. cbn [fst]. apply decode_pi_in_range. exact HN. Qed.

End GreedyRange.

(** *** Instances *)

Definition two_logits : vec := [0; 1].

Lemma Greedy_first_maximum_witness :
  (Greedy two_logits < length two_logits)%nat /\
  (forall j, (j < length two_logits)%nat ->
     nth j two_logits 0 <= nth (Greedy two_logits) two_logits 0) /\
  (forall j, (j < Greedy two_logits)%nat ->
     nth j two_logits 0 < nth (Greedy two_logits) two_logits 0).
Proof.
  apply (@Greedy_first_maximum two_logits). discriminate.
Defined.


Lemma forward_mask_counts_witness :
  length (fst (forward clip_net two_cities [])) = length two_cities /\
  forall rounds k, (k < length two_cities)%nat ->
    nth k (st_mask (decode clip_net two_cities rounds)) 0
    = INR (count_occ Nat.eq_dec (st_pi (decode clip_net two_cities rounds)) k).
Proof.
  apply (@forward_mask_counts clip_net two_cities []). simpl. lia.
Defined.

Lemma forward_log_likelihood_witness :
  snd (forward clip_net two_cities []) <= 0 /\
  forall rounds lp, In lp (st_log_ps (decode clip_net two_cities rounds)) ->
    length lp = length two_cities /\ (forall j, nth j lp 0 <= 0) /\
    rsum (map exp lp) = 1.
Proof.
  apply (@forward_log_likelihood clip_net two_cities []). simpl. lia.
Defined.

Lemma forward_greedy_in_range_witness :
  Forall (fun k => (k < length two_cities)%nat) (fst (forward loud_net two_cities [])).
Proof.
  refine (@forward_greedy_in_range loud_net two_cities eq_refl [] _).
  simpl. lia.
Defined.

End ForwardFacts.
